(** * QasT: tokenizer, parser and evaluator

    A shallow embedding of [src/lib/lexer.js], [src/lib/parser.js],
    [src/lib/runtime.js] and of [main] of [src/bin/qast.js], and the
    properties of the specification proved (or refuted) on it.

    Conventions of the embedding.
    - A JavaScript string is a [string]; a character stands for one UTF-16
      code unit below 256.
    - A JavaScript number is a binary64 [float]; line and column numbers,
      which the code only ever builds from indices, are [nat].
    - An exception is a [Throw] result; a loop that the source may run for
      ever takes a fuel argument and yields [OutOfFuel] when it is spent.
    - [console.log] appends its argument to an output log; [rl.question]
      appends the prompt.  Each call of [input] opens a readline interface
      of its own and closes it at the first line, so the input is given
      interface by interface: the line that answers, and the lines that
      reached the interface with it, which are lost.
    - [main] takes its host as two functions, for [path.resolve] and
      [fs.readFileSync], and returns how the process ends with what it
      wrote. *)

From Stdlib Require Import ZArith String Ascii List Floats Lia Bool.
From stdpp Require Import base gmap strings list pretty sorting.

Local Open Scope string_scope.
Local Open Scope list_scope.

(** ** The host language

    The operators the evaluator applies to its values ([+], [<], [===],
    [Number(...)], ...) are JavaScript's.  This module gives the part of
    ECMA-262 they need. *)
Module JS.

Local Open Scope Z_scope.

(** The values an evaluation can meet: primitives, and the one function
    object of the runtime, the built-in [print] closure. *)
Inductive value : Type :=
| VUndefined
| VNull
| VBool (b : bool)
| VNum (n : float)
| VStr (s : string)
| VPrint.

(** *** Characters *)

Definition code (c : ascii) : nat := nat_of_ascii c.

(** [WhiteSpace] and [LineTerminator] code units below 256: the
    characters [/\s/] matches and [trim] removes. *)
Definition isSpace (c : ascii) : bool :=
  let n := code c in
  ((9 <=? n)%nat && (n <=? 13)%nat) || (n =? 32)%nat || (n =? 160)%nat.

(** [/[0-9]/] *)
Definition isDigit (c : ascii) : bool :=
  let n := code c in (48 <=? n)%nat && (n <=? 57)%nat.

(** [/[A-Za-z_]/] *)
Definition isIdentStart (c : ascii) : bool :=
  let n := code c in
  ((65 <=? n)%nat && (n <=? 90)%nat) || ((97 <=? n)%nat && (n <=? 122)%nat)
  || (n =? 95)%nat.

Definition digitVal (c : ascii) : Z := Z.of_nat (code c) - 48.

(** *** Strings *)

Fixpoint trimStart (s : string) : string :=
  match s with
  | String c r => if isSpace c then trimStart r else s
  | EmptyString => EmptyString
  end.

(** [trimEnd], written so that it recurses on the string: a character is
    dropped when it is a space and nothing but spaces follows. *)
Fixpoint trimEnd (s : string) : string :=
  match s with
  | String c r =>
      match trimEnd r with
      | EmptyString => if isSpace c then EmptyString else String c EmptyString
      | r' => String c r'
      end
  | EmptyString => EmptyString
  end.

(** [String.prototype.trim] *)
Definition trim (s : string) : string := trimEnd (trimStart s).

(** [s.startsWith(p)] *)
Definition startsWith (s p : string) : bool := String.prefix p s.

(** [s.slice(a)] for [0 <= a] *)
Definition sliceFrom (s : string) (a : nat) : string :=
  substring a (String.length s - a) s.

(** [s.slice(a, b)] for [0 <= a], [0 <= b] *)
Definition slice (s : string) (a b : nat) : string :=
  substring a (Nat.min b (String.length s) - a) s.

(** [s.indexOf(p)], as the position of the first occurrence; [None]
    stands for [-1]. *)
Fixpoint indexOfFrom (s p : string) (i : nat) : option nat :=
  if String.prefix p s then Some i
  else match s with
       | String _ r => indexOfFrom r p (S i)
       | EmptyString => None
       end.

Definition indexOf (s p : string) : option nat := indexOfFrom s p 0.

(** [c] is one of the characters of [set]: [set.includes(c)] for a
    one-character [c]. *)
Fixpoint includes (set : string) (c : ascii) : bool :=
  match set with
  | String d r => Ascii.eqb c d || includes r c
  | EmptyString => false
  end.

(** *** Numbers from text: [StringToNumber] *)

(** [num * 10^e10] rounded to the nearest binary64, ties to even. *)
Definition roundDecimal (neg : bool) (num e10 : Z) : float :=
  if num <=? 0 then (if neg then neg_zero else zero)
  else
    let '(a, b) := if 0 <=? e10 then (num * 10 ^ e10, 1) else (num, 10 ^ (- e10)) in
    (* a / b, cut to a quotient of at least 64 bits and its remainder *)
    let sh := Z.max 0 (64 + Z.log2 b - Z.log2 a) in
    let q := (a * 2 ^ sh) / b in
    let r := (a * 2 ^ sh) mod b in
    let loc := if r =? 0 then loc_Exact else loc_Inexact (2 * r ?= b) in
    SF2Prim (binary_round_aux prec emax neg q (- sh) loc).

(** A natural number as a number. *)
Definition ofNat (n : nat) : float := roundDecimal false (Z.of_nat n) 0.

Fixpoint digitsVal (acc : Z) (ds : list ascii) : Z :=
  match ds with
  | [] => acc
  | d :: r => digitsVal (10 * acc + digitVal d) r
  end.

(** The longest run of digits at the head of [s], and the rest. *)
Fixpoint spanDigits (s : list ascii) : list ascii * list ascii :=
  match s with
  | c :: r => if isDigit c then let '(ds, t) := spanDigits r in (c :: ds, t)
              else ([], s)
  | [] => ([], [])
  end.

(** [ExponentPart] (optional): the exponent, when the rest is exactly
    one; [None] when the text is not a numeric literal. *)
Definition parseExponent (s : list ascii) : option Z :=
  match s with
  | [] => Some 0
  | c :: r =>
      if Ascii.eqb c "e" || Ascii.eqb c "E" then
        let '(neg, r1) :=
          match r with
          | s1 :: r' => if Ascii.eqb s1 "-" then (true, r')
                        else if Ascii.eqb s1 "+" then (false, r') else (false, r)
          | [] => (false, r)
          end in
        match spanDigits r1 with
        | ((_ :: _) as ds, []) => Some (if neg then - digitsVal 0 ds else digitsVal 0 ds)
        | _ => None
        end
      else None
  end.

(** [StrUnsignedDecimalLiteral], without [Infinity] *)
Definition parseUnsignedDecimal (neg : bool) (s : list ascii) : option float :=
  let '(ip, r) := spanDigits s in
  let '(fp, r1) :=
    match r with
    | c :: r' => if Ascii.eqb c "." then spanDigits r' else ([], r)
    | [] => ([], r)
    end in
  match ip, fp with
  | [], [] => None
  | _, _ =>
      match parseExponent r1 with
      | Some e =>
          Some (roundDecimal neg (digitsVal 0 (ip ++ fp)) (e - Z.of_nat (length fp)))
      | None => None
      end
  end.

Definition radixDigit (radix : Z) (c : ascii) : option Z :=
  let n := Z.of_nat (code c) in
  let v := if (48 <=? n) && (n <=? 57) then n - 48
           else if (97 <=? n) && (n <=? 102) then n - 87
           else if (65 <=? n) && (n <=? 70) then n - 55
           else 16 in
  if v <? radix then Some v else None.

Fixpoint radixVal (radix acc : Z) (ds : list ascii) : option Z :=
  match ds with
  | [] => Some acc
  | d :: r => match radixDigit radix d with
              | Some v => radixVal radix (radix * acc + v) r
              | None => None
              end
  end.

(** [NonDecimalIntegerLiteral]: [0x], [0o], [0b] and their capitals *)
Definition parseNonDecimal (s : list ascii) : option float :=
  match s with
  | z :: k :: ((_ :: _) as ds) =>
      if Ascii.eqb z "0" then
        let radix := if Ascii.eqb k "x" || Ascii.eqb k "X" then 16
                     else if Ascii.eqb k "o" || Ascii.eqb k "O" then 8
                     else if Ascii.eqb k "b" || Ascii.eqb k "B" then 2 else 0 in
        match radixVal radix 0 ds with
        | Some v => if radix =? 0 then None else Some (roundDecimal false v 0)
        | None => None
        end
      else None
  | _ => None
  end.

(** [StringToNumber]: the number a string converts to, [NaN] when it is
    not a [StringNumericLiteral]. *)
Definition stringToNumber (s : string) : float :=
  let t := trim s in
  if String.eqb t "" then zero
  else
    let cs := list_ascii_of_string t in
    match parseNonDecimal cs with
    | Some f => f
    | None =>
        let '(neg, body) :=
          match cs with
          | c :: r => if Ascii.eqb c "-" then (true, r)
                      else if Ascii.eqb c "+" then (false, r) else (false, cs)
          | [] => (false, cs)
          end in
        if String.eqb (string_of_list_ascii body) "Infinity"
        then (if neg then neg_infinity else infinity)
        else match parseUnsignedDecimal neg body with
             | Some f => f
             | None => nan
             end
    end.

(** *** Text from numbers: [Number::toString], radix 10 *)

(** [x >= 10^j] for the positive rational [x = a / b]. *)
Definition geqPow10 (a b j : Z) : bool :=
  if 0 <=? j then b * 10 ^ j <=? a else b <=? a * 10 ^ (- j).

(** The [n] with [10^(n-1) <= a/b < 10^n], searched upwards from [n]. *)
Fixpoint decimalExponent (fuel : nat) (a b n : Z) : Z :=
  match fuel with
  | O => n
  | S f => if geqPow10 a b n then decimalExponent f a b (n + 1) else n
  end.

(** The [k]-digit decimals [s * 10^(n-k)] next to [x = a/b] that convert
    back to [x], the closer one first (of two equally close, the even). *)
Definition shortestCandidates (x : float) (a b n : Z) (k : Z) : list (Z * Z) :=
  let p := n - k in
  let '(a', b') := if 0 <=? p then (a, b * 10 ^ p) else (a * 10 ^ (- p), b) in
  let lo := a' / b' in
  let r := a' mod b' in
  let norm s := if s =? 10 ^ k then (10 ^ (k - 1), n + 1) else (s, n) in
  let ok '(s, n') := PrimFloat.eqb (roundDecimal false s (n' - k)) x in
  let first_hi :=
    match 2 * r ?= b' with
    | Gt => true
    | Eq => Z.odd lo
    | Lt => false
    end in
  let cands := if r =? 0 then [norm lo]
               else if first_hi then [norm (lo + 1); norm lo]
               else [norm lo; norm (lo + 1)] in
  filter (fun c => ok c) cands.

(** The digits [s] and the exponent [n] of step 5 of [Number::toString],
    for a finite [x > 0]: the least number of digits [k] for which some
    [s * 10^(n-k)] is [x]. *)
Fixpoint shortestFrom (fuel : nat) (x : float) (a b n : Z) (k : Z) : Z * Z * Z :=
  match fuel with
  | O => (k, 0, n)
  | S f =>
      match shortestCandidates x a b n k with
      | (s, n') :: _ => (k, s, n')
      | [] => shortestFrom f x a b n (k + 1)
      end
  end.

Definition zeros (n : Z) : string := string_of_list_ascii (repeat "0"%char (Z.to_nat n)).

Definition formatDecimal (k s n : Z) : string :=
  let ds := pretty s in
  if (k <=? n) && (n <=? 21) then ds +:+ zeros (n - k)
  else if (0 <? n) && (n <=? 21) then
    substring 0 (Z.to_nat n) ds +:+ "." +:+ sliceFrom ds (Z.to_nat n)
  else if (-6 <? n) && (n <=? 0) then "0." +:+ zeros (- n) +:+ ds
  else
    let e := n - 1 in
    let es := (if e <? 0 then "-" else "+") +:+ pretty (Z.abs e) in
    if k =? 1 then ds +:+ "e" +:+ es
    else substring 0 1 ds +:+ "." +:+ sliceFrom ds 1 +:+ "e" +:+ es.

(** [Number::toString(x, 10)] *)
Definition numberToString (x : float) : string :=
  match Prim2SF x with
  | S754_nan => "NaN"
  | S754_zero _ => "0"
  | S754_infinity sg => if sg then "-Infinity" else "Infinity"
  | S754_finite sg m e =>
      let '(a, b) := if 0 <=? e then (Z.pos m * 2 ^ e, 1) else (Z.pos m, 2 ^ (- e)) in
      let n := decimalExponent 700 a b (-330) in
      let '(k, s, n') := shortestFrom 17 (PrimFloat.abs x) a b n 1 in
      (if sg then "-" else "") +:+ formatDecimal k s n'
  end.

(** *** Conversions *)

(** The source text of the built-in [print] closure (runtime.js, lines
    44 to 46), which is what the function converts to as a string. *)
Definition printSource : string :=
  "(...args) => {" +:+ String "010" "    console.log(...args);" +:+ String "010" "  }".

(** [ToPrimitive]: only the function object is not a primitive; its
    [valueOf] yields itself, so its [toString] decides. *)
Definition toPrimitive (v : value) : value :=
  match v with
  | VPrint => VStr printSource
  | _ => v
  end.

Definition toNumber (v : value) : float :=
  match toPrimitive v with
  | VUndefined => nan
  | VNull => zero
  | VBool b => if b then one else zero
  | VNum n => n
  | VStr s => stringToNumber s
  | VPrint => nan
  end.

Definition toString (v : value) : string :=
  match toPrimitive v with
  | VUndefined => "undefined"
  | VNull => "null"
  | VBool b => if b then "true" else "false"
  | VNum n => numberToString n
  | VStr s => s
  | VPrint => printSource
  end.

Definition toBoolean (v : value) : bool :=
  match v with
  | VUndefined | VNull => false
  | VBool b => b
  | VNum n => negb (PrimFloat.is_zero n || PrimFloat.is_nan n)
  | VStr s => negb (String.eqb s "")
  | VPrint => true
  end.

(** [typeof v === 'string'] *)
Definition isString (v : value) : bool :=
  match v with VStr _ => true | _ => false end.

(** *** Operators *)

(** [x % y] on numbers: the remainder of the truncating division, exact,
    with the sign of the dividend. *)
Definition numberRemainder (x y : float) : float :=
  match Prim2SF x, Prim2SF y with
  | S754_nan, _ | _, S754_nan => nan
  | S754_infinity _, _ => nan
  | _, S754_zero _ => nan
  | _, S754_infinity _ => x
  | S754_zero _, _ => x
  | S754_finite sx mx ex, S754_finite _ my ey =>
      let e := Z.min ex ey in
      let r := Z.rem (Z.pos mx * 2 ^ (ex - e)) (Z.pos my * 2 ^ (ey - e)) in
      SF2Prim (binary_normalize prec emax (if sx then - r else r) e sx)
  end.

(** [l + r] *)
Definition add (l r : value) : value :=
  let lp := toPrimitive l in
  let rp := toPrimitive r in
  if isString lp || isString rp then VStr (toString lp +:+ toString rp)
  else VNum (PrimFloat.add (toNumber lp) (toNumber rp)).

(** [l - r], [l * r], [l / r], [l % r]: both operands to numbers. *)
Definition arith (f : float -> float -> float) (l r : value) : value :=
  VNum (f (toNumber l) (toNumber r)).

(** [-v] and [!v] *)
Definition neg (v : value) : value := VNum (PrimFloat.opp (toNumber v)).
Definition not (v : value) : value := VBool (negb (toBoolean v)).

(** [l === r]: [IsStrictlyEqual]; values of different types are never
    equal, and nothing is converted. *)
Definition strictEquals (l r : value) : bool :=
  match l, r with
  | VUndefined, VUndefined => true
  | VNull, VNull => true
  | VBool a, VBool b => Bool.eqb a b
  | VNum a, VNum b => PrimFloat.eqb a b
  | VStr a, VStr b => String.eqb a b
  | VPrint, VPrint => true
  | _, _ => false
  end.

(** [IsLessThan(l, r)]: two strings are compared as strings; otherwise
    both operands are converted to numbers, and [None] (undefined) is
    the answer when one of them is [NaN]. *)
Definition isLessThan (l r : value) : option bool :=
  match toPrimitive l, toPrimitive r with
  | VStr a, VStr b => Some (String.ltb a b)
  | lp, rp =>
      let a := toNumber lp in
      let b := toNumber rp in
      if PrimFloat.is_nan a || PrimFloat.is_nan b then None
      else Some (PrimFloat.ltb a b)
  end.

(** [l < r], [l > r], [l <= r], [l >= r] *)
Definition lt (l r : value) : bool := default false (isLessThan l r).
Definition gt (l r : value) : bool := default false (isLessThan r l).
Definition le (l r : value) : bool :=
  match isLessThan r l with Some false => true | _ => false end.
Definition ge (l r : value) : bool :=
  match isLessThan l r with Some false => true | _ => false end.

End JS.

(** ** Results *)

(** [QastError]: the constructor stores its arguments; [name] is always
    ['QastError'] and [isQastError] always [true], so they are not fields
    here (see [QastError_get]).  [file] and [hint] may be [undefined]. *)
Record QastError : Type := mkQastError {
  message : string;
  file : option string;
  line : nat;
  column : nat;
  hint : option string;
}.

(** What a stage can throw: a [QastError], or an error of the host
    ([new Error(...)], a [TypeError]). *)
Inductive error : Type :=
| Qast (e : QastError)
| HostError (name msg : string).

Inductive result (A : Type) : Type :=
| Ok (a : A)
| Throw (e : error)
| OutOfFuel.
Arguments Ok {A} a.
Arguments Throw {A} e.
Arguments OutOfFuel {A}.

#[global] Instance result_ret : MRet result := fun A a => Ok a.
#[global] Instance result_bind : MBind result := fun A B k r =>
  match r with
  | Ok a => k a
  | Throw e => Throw e
  | OutOfFuel => OutOfFuel
  end.

(** [e[key]]: the properties the constructor sets ([message] by
    [super(message)]); any other key reads [undefined] (the [stack] the
    host attaches to an [Error] is not modelled). *)
Definition QastError_get (e : QastError) (key : string) : JS.value :=
  let optional (o : option string) :=
    match o with Some s => JS.VStr s | None => JS.VUndefined end in
  if String.eqb key "message" then JS.VStr (message e)
  else if String.eqb key "name" then JS.VStr "QastError"
  else if String.eqb key "isQastError" then JS.VBool true
  else if String.eqb key "file" then optional (file e)
  else if String.eqb key "line" then JS.VNum (JS.ofNat (line e))
  else if String.eqb key "column" then JS.VNum (JS.ofNat (column e))
  else if String.eqb key "hint" then optional (hint e)
  else JS.VUndefined.

(** The kinds of the specification's taxonomy. *)
Definition taxonomy : list string :=
  ["HeaderError"; "PrefixError"; "LexError"; "ParseError"; "RuntimeError"].

(** [new QastError(message, file, line, column, hint)], thrown. *)
Definition throwQast {A : Type} (msg : string) (f : option string) (l c : nat)
    (h : option string) : result A :=
  Throw (Qast (mkQastError msg f l c h)).

(** ** The tokenizer (src/lib/lexer.js) *)

Inductive tokenType : Type :=
| NUMBER | STRING | IDENT
| PRINT | SET | INPUT | IF | ELIF | ELSE | END | LOOP | WHILE | FN | RETURN
| OP | EOF.

#[global] Instance tokenType_eq_dec : EqDecision tokenType.
Proof. solve_decision. Defined.

(** A token, [{ type, value, line, column, file }]. *)
Module Token.
Record t : Type := mk {
  type : tokenType;
  value : JS.value;
  line : nat;
  column : nat;
  file : string;
}.
End Token.
Abbreviation token := Token.t.

(** [KEYWORDS], with the type each one is given by [toUpperCase]. *)
Definition KEYWORDS : list (string * tokenType) :=
  [("print", PRINT); ("set", SET); ("input", INPUT); ("if", IF); ("elif", ELIF);
   ("else", ELSE); ("end", END); ("loop", LOOP); ("while", WHILE); ("fn", FN);
   ("return", RETURN)].

Fixpoint assoc {A : Type} (k : string) (l : list (string * A)) : option A :=
  match l with
  | [] => None
  | (k', a) :: r => if String.eqb k k' then Some a else assoc k r
  end.

Definition keywordOrIdent (value : string) : tokenType :=
  default IDENT (assoc value KEYWORDS).

(** The number of characters at the head of [s] that satisfy [p]: how far
    a loop [while (pos < text.length && p(text[pos])) pos++] advances. *)
Fixpoint spanLength (p : ascii -> bool) (s : string) : nat :=
  match s with
  | String c r => if p c then S (spanLength p r) else O
  | EmptyString => O
  end.

(** [/[0-9.]/] and [/[A-Za-z0-9_]/] *)
Definition isNumberChar (c : ascii) : bool := JS.isDigit c || Ascii.eqb c ".".
Definition isIdentChar (c : ascii) : bool := JS.isIdentStart c || JS.isDigit c.

(** [readNumber] and [readIdent] return [{ value, endPos }]. *)
Definition readNumber (text : string) (start : nat) : JS.value * nat :=
  let pos := (start + spanLength isNumberChar (JS.sliceFrom text start)) in
  let raw := JS.slice text start pos in
  (JS.VNum (JS.stringToNumber raw), pos).

Definition readIdent (text : string) (start : nat) : string * nat :=
  let pos := (start + spanLength isIdentChar (JS.sliceFrom text start)) in
  let raw := JS.slice text start pos in
  (raw, pos).

(** The loop of [readString], on the text from [pos] on: [Some] when the
    closing quote is found, [None] when the loop runs off the text.  A
    backslash (character 092) that ends the text appends [undefined] and
    steps past the end, so the loop exits there too. *)
Fixpoint readStringLoop (quote : ascii) (rest : string) (pos : nat) (value : string)
    : option (string * nat) :=
  match rest with
  | EmptyString => None
  | String ch r =>
      if Ascii.eqb ch "092" then
        match r with
        | String next r' =>
            let c := if Ascii.eqb next "n" then "010"%char
                     else if Ascii.eqb next "t" then "009"%char else next in
            readStringLoop quote r' (pos + 2) (value +:+ String c EmptyString)
        | EmptyString => None
        end
      else if Ascii.eqb ch quote then Some (value, (pos + 1))
      else readStringLoop quote r (pos + 1) (value +:+ String ch EmptyString)
  end.

Definition readString (text : string) (start : nat) (file : string) (line : nat)
    : result (string * nat) :=
  match String.get start text with
  | Some quote =>
      match readStringLoop quote (JS.sliceFrom text (start + 1)) (start + 1) "" with
      | Some r => Ok r
      | None => throwQast "Unterminated string literal" (Some file) line (start + 1) None
      end
  | None => throwQast "Unterminated string literal" (Some file) line (start + 1) None
  end.

Definition isTwoCharOp (two : string) : bool :=
  String.eqb two "==" || String.eqb two "!=" || String.eqb two ">=" ||
  String.eqb two "<=" || String.eqb two "&&" || String.eqb two "||".

(** The [while (pos < len)] loop of [tokenizeStatement]; [tokens] is the
    array the tokens are pushed on.  Every round moves [pos] forward, so
    [fuel] above [len - pos] is never spent ([tokenizeLoop_post]).  The
    characters 034 and 039 are the double and the single quote. *)
Fixpoint tokenizeLoop (fuel : nat) (text : string) (pos : nat) (tokens : list token)
    (file : string) (line : nat) : result (list token) :=
  match fuel with
  | O => OutOfFuel
  | S fuel' =>
      match String.get pos text with
      | None => Ok tokens
      | Some ch =>
          let column := (pos + 1) in
          let add type value := tokens ++ [Token.mk type value line column file] in
          if JS.isSpace ch then tokenizeLoop fuel' text (pos + 1) tokens file line
          else if Ascii.eqb ch "034" || Ascii.eqb ch "039" then
            '(value, endPos) ← readString text pos file line;
            tokenizeLoop fuel' text endPos (add STRING (JS.VStr value)) file line
          else if JS.isDigit ch then
            let '(value, endPos) := readNumber text pos in
            tokenizeLoop fuel' text endPos (add NUMBER value) file line
          else if JS.isIdentStart ch then
            let '(value, endPos) := readIdent text pos in
            tokenizeLoop fuel' text endPos (add (keywordOrIdent value) (JS.VStr value)) file line
          else
            let two := JS.slice text pos (pos + 2) in
            if isTwoCharOp two then
              tokenizeLoop fuel' text (pos + 2) (add OP (JS.VStr two)) file line
            else if JS.includes "+-*/%><=(){}[],." ch then
              tokenizeLoop fuel' text (pos + 1) (add OP (JS.VStr (String ch EmptyString))) file line
            else
              throwQast ("Unexpected character '" +:+ String ch "'") (Some file) line column None
      end
  end.

Definition tokenizeStatement (text : string) (tokens : list token) (file : string)
    (line : nat) : result (list token) :=
  tokenizeLoop (S (String.length text)) text 0 tokens file line.

(** [source.split(/\r?\n/)] *)
Fixpoint splitLines (source : string) : list string :=
  match source with
  | EmptyString => [EmptyString]
  | String c r =>
      if Ascii.eqb c "010" then EmptyString :: splitLines r
      else
        match r with
        | String d r' =>
            if Ascii.eqb c "013" && Ascii.eqb d "010" then EmptyString :: splitLines r'
            else match splitLines r with
                 | l :: ls => String c l :: ls
                 | [] => [String c EmptyString]
                 end
        | EmptyString => [String c EmptyString]
        end
  end.

(** The body of the [for] loop of [lex] over the lines from index [i] on;
    [lineNum] is [i + 1]. *)
Fixpoint lexLines (lines : list string) (lineNum : nat) (headerFound : bool)
    (tokens : list token) (file : string) : result (list token) :=
  match lines with
  | [] => Ok tokens
  | raw :: rest =>
      let trimmed := JS.trim raw in
      if String.eqb trimmed "" then lexLines rest (S lineNum) headerFound tokens file
      else if JS.startsWith trimmed "#" then lexLines rest (S lineNum) headerFound tokens file
      else if negb headerFound then
        if negb (JS.startsWith trimmed "new qas") then
          throwQast "Missing QasT header (new qas)." (Some file) lineNum 1
            (Some "First non-empty line must be: new qas")
        else lexLines rest (S lineNum) true tokens file
      else if negb (JS.startsWith trimmed "q.") then
        throwQast "Executable lines must start with 'q.'." (Some file) lineNum
          (match JS.indexOf raw trimmed with Some i => i + 1 | None => 0 end) None
      else
        let stmt := JS.sliceFrom raw
          (match JS.indexOf raw "q." with Some i => i + 2 | None => 1 end) in
        tokens' ← tokenizeStatement stmt tokens file lineNum;
        lexLines rest (S lineNum) true tokens' file
  end.

Definition lex (source : string) (file : string) : result (list token) :=
  let lines := splitLines source in
  tokens ← lexLines lines 1 false [] file;
  Ok (tokens ++ [Token.mk EOF JS.VNull (length lines) 1 file]).

(** ** The parser (src/lib/parser.js) *)

(** A position [{ line, column }] and a [loc], [{ start, end }]. *)
Record position : Type := mkPos { pos_line : nat; pos_column : nat }.

Module Loc.
Record t : Type := mk { start : position; end_ : position }.
End Loc.
Abbreviation loc := Loc.t.

#[global] Instance position_eq_dec : EqDecision position.
Proof. solve_decision. Defined.
#[global] Instance loc_eq_dec : EqDecision loc.
Proof. solve_decision. Defined.

(** Expression nodes.  [value], [name] and [operator] hold the [value] of
    the token they were read from. *)
Inductive expr : Type :=
| NumberLiteral (value : JS.value) (l : loc)
| StringLiteral (value : JS.value) (l : loc)
| Identifier (name : JS.value) (l : loc)
| UnaryExpression (operator : JS.value) (argument : expr) (l : loc)
| BinaryExpression (operator : JS.value) (left right : expr) (l : loc)
| Grouping (expression : expr) (l : loc).

(** Statement nodes.  [prompt] is [null] or a token's value; the bodies of
    the control-flow nodes are lists of statements, which [parse] leaves
    empty. *)
#[warnings="-register-all"]
Inductive statement : Type :=
| PrintStatement (argument : expr) (l : loc)
| SetStatement (name : JS.value) (value : expr) (l : loc)
| InputStatement (name : JS.value) (prompt : JS.value) (l : loc)
| ExprStatement (e : expr) (l : loc)
| ReturnStatement (argument : option expr) (l : loc)
| IfStatement (tests : list (expr * list statement)) (alternate : option (list statement))
    (l : loc)
| LoopStatement (count : expr) (body : list statement) (l : loc)
| WhileStatement (test : expr) (body : list statement) (l : loc)
| FunctionDef (name : JS.value) (params : list JS.value) (body : list statement) (l : loc).

(** [{ type: 'Program', body }] *)
Record Program : Type := mkProgram { body : list statement }.

Definition expr_loc (e : expr) : loc :=
  match e with
  | NumberLiteral _ l | StringLiteral _ l | Identifier _ l
  | UnaryExpression _ _ l | BinaryExpression _ _ _ l | Grouping _ l => l
  end.

Definition statement_loc (s : statement) : loc :=
  match s with
  | PrintStatement _ l | SetStatement _ _ l | InputStatement _ _ l
  | ExprStatement _ l | ReturnStatement _ l | IfStatement _ _ l
  | LoopStatement _ _ l | WhileStatement _ _ l | FunctionDef _ _ _ l => l
  end.

(** [node.type] *)
Definition statement_type (s : statement) : string :=
  match s with
  | PrintStatement _ _ => "PrintStatement"
  | SetStatement _ _ _ => "SetStatement"
  | InputStatement _ _ _ => "InputStatement"
  | ExprStatement _ _ => "ExprStatement"
  | ReturnStatement _ _ => "ReturnStatement"
  | IfStatement _ _ _ => "IfStatement"
  | LoopStatement _ _ _ => "LoopStatement"
  | WhileStatement _ _ _ => "WhileStatement"
  | FunctionDef _ _ _ _ => "FunctionDef"
  end.

(** [tok.type] as text, for the messages. *)
Definition tokenType_name (t : tokenType) : string :=
  match t with
  | NUMBER => "NUMBER" | STRING => "STRING" | IDENT => "IDENT"
  | PRINT => "PRINT" | SET => "SET" | INPUT => "INPUT" | IF => "IF"
  | ELIF => "ELIF" | ELSE => "ELSE" | END => "END" | LOOP => "LOOP"
  | WHILE => "WHILE" | FN => "FN" | RETURN => "RETURN" | OP => "OP" | EOF => "EOF"
  end.

(** An argument of [locFrom]: a token, which has a [line] and a [column]
    and no [loc], or a node, which has a [loc]. *)
Inductive locArg : Type :=
| OfToken (t : token)
| OfNode (l : loc).

Definition token_position (t : token) : position :=
  mkPos (Token.line t) (Token.column t).

Definition locFrom (startNode : locArg) (endNode : option locArg) : loc :=
  let s := match startNode with
           | OfNode l => Loc.start l
           | OfToken t => token_position t
           end in
  let e := match endNode with
           | Some (OfNode l) => Loc.end_ l
           | _ => s
           end in
  Loc.mk s e.

(** Reading a property of [undefined] *)
Definition typeError {A : Type} (prop : string) : result A :=
  Throw (HostError "TypeError"
    ("Cannot read properties of undefined (reading '" +:+ prop +:+ "')")).

(** The functions [parse] declares; they share [tokens] and [file], and
    the cursor [pos], which each takes and returns. *)
Section Parser.
Variable tokens : list token.
Variable file : string.

(** [tokens[pos] || tokens[tokens.length - 1]]: [None] is [undefined],
    which only an empty array yields. *)
Definition peek (pos : nat) : option token :=
  match tokens !! pos with
  | Some t => Some t
  | None => last tokens
  end.

(** [tok.type === type && (value === undefined || tok.value === value)] *)
Definition token_is (tok : token) (type : tokenType) (value : option string) : bool :=
  bool_decide (Token.type tok = type) &&
  match value with
  | None => true
  | Some v => JS.strictEquals (Token.value tok) (JS.VStr v)
  end.

Definition consume (type : tokenType) (value : option string) (pos : nat)
    : result (token * nat) :=
  match peek pos with
  | None => typeError "type"
  | Some tok =>
      if token_is tok type value then Ok (tok, S pos)
      else
        let expected := match value with
                        | Some v => tokenType_name type +:+ "(" +:+ v +:+ ")"
                        | None => tokenType_name type
                        end in
        let found := match Token.value tok with
                     | JS.VNull | JS.VUndefined => ""
                     | v => JS.toString v
                     end in
        throwQast ("Expected " +:+ expected +:+ " but found " +:+
                   tokenType_name (Token.type tok) +:+ " " +:+ found)
          (Some file) (Token.line tok) (Token.column tok) None
  end.

Definition match_ (type : tokenType) (value : option string) (pos : nat)
    : result (bool * nat) :=
  match peek pos with
  | None => typeError "type"
  | Some tok => if token_is tok type value then Ok (true, S pos) else Ok (false, pos)
  end.

(** [match('OP', v1) || match('OP', v2) || ...] *)
Fixpoint matchOp (values : list string) (pos : nat) : result (bool * nat) :=
  match values with
  | [] => Ok (false, pos)
  | v :: rest =>
      '(m, pos') ← match_ OP (Some v) pos;
      if m : bool then Ok (true, pos') else matchOp rest pos'
  end.

(** [tokens[pos - 1].value] *)
Definition previousValue (pos : nat) : result JS.value :=
  match tokens !! (pos - 1) with
  | Some t => Ok (Token.value t)
  | None => typeError "value"
  end.

Definition parsePrimary (parseExpression : nat -> result (expr * nat)) (pos : nat)
    : result (expr * nat) :=
  match peek pos with
  | None => typeError "type"
  | Some tok =>
      '(number, pos1) ← match_ NUMBER None pos;
      if number : bool then
        Ok (NumberLiteral (Token.value tok) (locFrom (OfToken tok) None), pos1)
      else
        '(string, pos2) ← match_ STRING None pos1;
        if string : bool then
          Ok (StringLiteral (Token.value tok) (locFrom (OfToken tok) None), pos2)
        else
          '(ident, pos3) ← match_ IDENT None pos2;
          if ident : bool then
            Ok (Identifier (Token.value tok) (locFrom (OfToken tok) None), pos3)
          else
            '(paren, pos4) ← match_ OP (Some "(") pos3;
            if paren : bool then
              '(e, pos5) ← parseExpression pos4;
              '(_, pos6) ← consume OP (Some ")") pos5;
              Ok (Grouping e (locFrom (OfToken tok) (Some (OfNode (expr_loc e)))), pos6)
            else
              throwQast ("Unexpected token " +:+ tokenType_name (Token.type tok))
                (Some file) (Token.line tok) (Token.column tok) None
  end.

(** The [while] loop shared by [parseEquality], [parseComparison],
    [parseTerm] and [parseFactor]: [values] are the operators of the
    level and [operand] parses the next level. *)
Fixpoint binaryLoop (values : list string) (operand : nat -> result (expr * nat))
    (fuel : nat) (e : expr) (pos : nat) : result (expr * nat) :=
  match fuel with
  | O => OutOfFuel
  | S fuel' =>
      '(m, pos1) ← matchOp values pos;
      if m : bool then
        op ← previousValue pos1;
        '(rhs, pos2) ← operand pos1;
        binaryLoop values operand fuel'
          (BinaryExpression op e rhs
             (locFrom (OfNode (expr_loc e)) (Some (OfNode (expr_loc rhs))))) pos2
      else Ok (e, pos1)
  end.

Definition binaryLevel (values : list string) (operand : nat -> result (expr * nat))
    (fuel : nat) (pos : nat) : result (expr * nat) :=
  '(e, pos1) ← operand pos;
  binaryLoop values operand fuel e pos1.

(** The four binary levels above a given [parseUnary]. *)
Definition parseFactorOver (unary : nat -> result (expr * nat)) (fuel : nat) :=
  binaryLevel ["*"; "/"; "%"] unary fuel.
Definition parseTermOver (unary : nat -> result (expr * nat)) (fuel : nat) :=
  binaryLevel ["+"; "-"] (parseFactorOver unary fuel) fuel.
Definition parseComparisonOver (unary : nat -> result (expr * nat)) (fuel : nat) :=
  binaryLevel [">"; "<"; ">="; "<="] (parseTermOver unary fuel) fuel.
Definition parseEqualityOver (unary : nat -> result (expr * nat)) (fuel : nat) :=
  binaryLevel ["=="; "!="] (parseComparisonOver unary fuel) fuel.

(** [parseUnary]; the recursion of the grammar goes through it: into
    itself after an operator, and, by [parsePrimary], into
    [parseExpression] after an opening parenthesis.  The start of the
    [loc] is read from [tokens[pos - 1]] once the operand is parsed. *)
Fixpoint parseUnary (fuel : nat) (pos : nat) : result (expr * nat) :=
  match fuel with
  | O => OutOfFuel
  | S fuel' =>
      '(m, pos1) ← matchOp ["!"; "-"] pos;
      if m : bool then
        op ← previousValue pos1;
        '(rhs, pos2) ← parseUnary fuel' pos1;
        match tokens !! (pos2 - 1) with
        | Some t =>
            Ok (UnaryExpression op rhs
                  (locFrom (OfToken t) (Some (OfNode (expr_loc rhs)))), pos2)
        | None => typeError "loc"
        end
      else parsePrimary (parseEqualityOver (parseUnary fuel') fuel') pos1
  end.

Definition parseFactor (fuel : nat) := parseFactorOver (parseUnary fuel) fuel.
Definition parseTerm (fuel : nat) := parseTermOver (parseUnary fuel) fuel.
Definition parseComparison (fuel : nat) := parseComparisonOver (parseUnary fuel) fuel.
Definition parseEquality (fuel : nat) := parseEqualityOver (parseUnary fuel) fuel.
Definition parseExpression (fuel : nat) := parseEquality fuel.

Definition parsePrint (fuel : nat) (pos : nat) : result (statement * nat) :=
  '(start, pos1) ← consume PRINT None pos;
  '(argument, pos2) ← parseExpression fuel pos1;
  Ok (PrintStatement argument
        (locFrom (OfToken start) (Some (OfNode (expr_loc argument)))), pos2).

Definition parseSet (fuel : nat) (pos : nat) : result (statement * nat) :=
  '(start, pos1) ← consume SET None pos;
  '(id, pos2) ← consume IDENT None pos1;
  '(_, pos3) ← consume OP (Some "=") pos2;
  '(value, pos4) ← parseExpression fuel pos3;
  Ok (SetStatement (Token.value id) value
        (locFrom (OfToken start) (Some (OfNode (expr_loc value)))), pos4).

Definition parseInput (pos : nat) : result (statement * nat) :=
  '(start, pos1) ← consume INPUT None pos;
  '(id, pos2) ← consume IDENT None pos1;
  '(m, pos3) ← match_ STRING None pos2;
  prompt ← (if m : bool then previousValue pos3 else Ok JS.VNull);
  Ok (InputStatement (Token.value id) prompt
        (locFrom (OfToken start) (Some (OfToken id))), pos3).

Definition parseIf (fuel : nat) (pos : nat) : result (statement * nat) :=
  '(start, pos1) ← consume IF None pos;
  '(firstTestExpr, pos2) ← parseExpression fuel pos1;
  '(_, pos3) ← consume END None pos2;
  Ok (IfStatement [(firstTestExpr, [])] None
        (locFrom (OfToken start) (Some (OfNode (expr_loc firstTestExpr)))), pos3).

Definition parseLoop (fuel : nat) (pos : nat) : result (statement * nat) :=
  '(start, pos1) ← consume LOOP None pos;
  '(countExpr, pos2) ← parseExpression fuel pos1;
  '(_, pos3) ← consume END None pos2;
  Ok (LoopStatement countExpr []
        (locFrom (OfToken start) (Some (OfNode (expr_loc countExpr)))), pos3).

Definition parseWhile (fuel : nat) (pos : nat) : result (statement * nat) :=
  '(start, pos1) ← consume WHILE None pos;
  '(test, pos2) ← parseExpression fuel pos1;
  '(_, pos3) ← consume END None pos2;
  Ok (WhileStatement test []
        (locFrom (OfToken start) (Some (OfNode (expr_loc test)))), pos3).

(** [while (match('IDENT')) params.push(tokens[pos - 1].value)] *)
Fixpoint parseParams (fuel : nat) (params : list JS.value) (pos : nat)
    : result (list JS.value * nat) :=
  match fuel with
  | O => OutOfFuel
  | S fuel' =>
      '(m, pos1) ← match_ IDENT None pos;
      if m : bool then
        v ← previousValue pos1;
        parseParams fuel' (params ++ [v]) pos1
      else Ok (params, pos1)
  end.

Definition parseFn (fuel : nat) (pos : nat) : result (statement * nat) :=
  '(start, pos1) ← consume FN None pos;
  '(id, pos2) ← consume IDENT None pos1;
  '(params, pos3) ← parseParams fuel [] pos2;
  '(_, pos4) ← consume END None pos3;
  Ok (FunctionDef (Token.value id) params []
        (locFrom (OfToken start) (Some (OfToken id))), pos4).

Definition parseReturn (fuel : nat) (pos : nat) : result (statement * nat) :=
  '(start, pos1) ← consume RETURN None pos;
  match peek pos1 with
  | None => typeError "type"
  | Some tok =>
      if bool_decide (Token.type tok = EOF) then
        Ok (ReturnStatement None (locFrom (OfToken start) (Some (OfToken start))), pos1)
      else
        '(argument, pos2) ← parseExpression fuel pos1;
        Ok (ReturnStatement (Some argument)
              (locFrom (OfToken start) (Some (OfNode (expr_loc argument)))), pos2)
  end.

Definition parseStatement (fuel : nat) (pos : nat) : result (statement * nat) :=
  match peek pos with
  | None => typeError "type"
  | Some tok =>
      match Token.type tok with
      | PRINT => parsePrint fuel pos
      | SET => parseSet fuel pos
      | INPUT => parseInput pos
      | IF => parseIf fuel pos
      | LOOP => parseLoop fuel pos
      | WHILE => parseWhile fuel pos
      | FN => parseFn fuel pos
      | RETURN => parseReturn fuel pos
      | _ =>
          '(e, pos1) ← parseExpression fuel pos;
          Ok (ExprStatement e (locFrom (OfNode (expr_loc e)) None), pos1)
      end
  end.

(** [while (peek().type !== 'EOF') body.push(parseStatement())] *)
Fixpoint parseBody (fuel : nat) (body : list statement) (pos : nat)
    : result (list statement) :=
  match fuel with
  | O => OutOfFuel
  | S fuel' =>
      match peek pos with
      | None => typeError "type"
      | Some tok =>
          if bool_decide (Token.type tok = EOF) then Ok body
          else
            '(s, pos1) ← parseStatement fuel' pos;
            parseBody fuel' (body ++ [s]) pos1
      end
  end.

End Parser.

(** [parse(tokens, file)].  The loops and the recursion of the source may
    go on for ever on a token array that does not end with [EOF]; [fuel]
    bounds the nesting and the rounds of every loop. *)
Definition parse (fuel : nat) (tokens : list token) (file : string) : result Program :=
  body ← parseBody tokens file fuel [] 0;
  Ok (mkProgram body).

(** ** The evaluator (src/lib/runtime.js) *)

(** A frame is an object without prototype used as a map from names to
    values; [envStack] lists the frames, the global one first and the
    innermost one last. *)
Record runtime : Type := mkRuntime {
  envStack : list (gmap string JS.value);
  trace : bool;
}.

(** What is written for the user: an argument of [console.log], or the
    query of [rl.question]. *)
Inductive output : Type :=
| Log (v : JS.value)
| Query (prompt : string).

(** What reaches the readline interface that one call of [input] opens
    on [process.stdin]: the line that answers its question, and the lines
    that arrived with it.  The callback closes the interface at the
    answer, so these are lost: no later interface receives them. *)
Record arrival : Type := mkArrival {
  answered : string;
  lost : list string;
}.

(** What will reach the readline interfaces, one [arrival] for each call
    of [input] that gets an answer (with none left, the call waits for
    ever), and what was written so far. *)
Record world : Type := mkWorld {
  stdin : list arrival;
  stdout : list output;
}.

(** How the evaluation of a statement, or of the program, ends:
    [Normal] with nothing (the program's promise resolves to [undefined]),
    [Returned v] with [{ type: 'return', value: v }] (the program's
    promise resolves to [v]), [Thrown e] with an exception, and [Awaiting]
    when it waits for a line that never comes. *)
Inductive completion : Type :=
| Normal
| Returned (v : JS.value)
| Thrown (e : error)
| Awaiting.

(** [createRuntime(options)]: one global frame that binds [print]. *)
Definition createRuntime (trace : bool) : runtime :=
  mkRuntime [ {[ "print" := JS.VPrint ]} ] trace.

(** A name used as a property key: [ToPropertyKey]. *)
Definition propertyKey (name : JS.value) : string := JS.toString name.

(** [envStack[envStack.length - 1][name] = value]; [None] when there is
    no frame, where the assignment throws a [TypeError]. *)
Definition setVar (rt : runtime) (name : JS.value) (value : JS.value) : option runtime :=
  let i := length (envStack rt) - 1 in
  match envStack rt !! i with
  | Some frame =>
      Some (mkRuntime (<[ i := <[ propertyKey name := value ]> frame ]> (envStack rt)) (trace rt))
  | None => None
  end.

(** The loop of [getVar], about to look at the frames below index [n]. *)
Fixpoint getVarLoop (stack : list (gmap string JS.value)) (n : nat) (key : string)
    : option JS.value :=
  match n with
  | O => None
  | S i =>
      match stack !! i with
      | Some frame =>
          match frame !! key with
          | Some v => Some v
          | None => getVarLoop stack i key
          end
      | None => getVarLoop stack i key
      end
  end.

(** How the promise of [evalExpression] settles. *)
Inductive settled : Type :=
| Fulfilled (v : JS.value)
| Rejected (e : error).

(** [v = await p; k v] *)
Definition await (p : settled) (k : JS.value -> settled) : settled :=
  match p with
  | Fulfilled v => k v
  | Rejected e => Rejected e
  end.

(** [getVar(name, loc)].  The [loc] of a node has no [file], so the
    error's [file] is [undefined]. *)
Definition getVar (rt : runtime) (name : JS.value) (l : loc) : settled :=
  match getVarLoop (envStack rt) (length (envStack rt)) (propertyKey name) with
  | Some v => Fulfilled v
  | None =>
      Rejected (Qast (mkQastError ("Undefined variable '" +:+ JS.toString name +:+ "'")
                        None (pos_line (Loc.start l)) (pos_column (Loc.start l)) None))
  end.

Definition hostError (msg : string) : settled :=
  Rejected (HostError "Error" msg).

(** The [switch (node.operator)] of a [BinaryExpression] *)
Definition evalBinary (operator : JS.value) (l r : JS.value) : settled :=
  match operator with
  | JS.VStr op =>
      if String.eqb op "+" then Fulfilled (JS.add l r)
      else if String.eqb op "-" then Fulfilled (JS.arith PrimFloat.sub l r)
      else if String.eqb op "*" then Fulfilled (JS.arith PrimFloat.mul l r)
      else if String.eqb op "/" then Fulfilled (JS.arith PrimFloat.div l r)
      else if String.eqb op "%" then Fulfilled (JS.arith JS.numberRemainder l r)
      else if String.eqb op "==" then Fulfilled (JS.VBool (JS.strictEquals l r))
      else if String.eqb op "!=" then Fulfilled (JS.VBool (negb (JS.strictEquals l r)))
      else if String.eqb op ">" then Fulfilled (JS.VBool (JS.gt l r))
      else if String.eqb op "<" then Fulfilled (JS.VBool (JS.lt l r))
      else if String.eqb op ">=" then Fulfilled (JS.VBool (JS.ge l r))
      else if String.eqb op "<=" then Fulfilled (JS.VBool (JS.le l r))
      else hostError ("Unknown operator " +:+ op)
  | _ => hostError ("Unknown operator " +:+ JS.toString operator)
  end.

(** The tests on [node.operator] of a [UnaryExpression] *)
Definition evalUnary (operator : JS.value) (v : JS.value) : settled :=
  match operator with
  | JS.VStr op =>
      if String.eqb op "-" then Fulfilled (JS.neg v)
      else if String.eqb op "!" then Fulfilled (JS.not v)
      else hostError ("Unknown unary operator " +:+ op)
  | _ => hostError ("Unknown unary operator " +:+ JS.toString operator)
  end.

(** [evalExpression]; a node always has a [loc] here, so [node.loc] is
    what [getVar] is given. *)
Fixpoint evalExpression (node : expr) (rt : runtime) : settled :=
  match node with
  | NumberLiteral value _ => Fulfilled value
  | StringLiteral value _ => Fulfilled value
  | Identifier name l => getVar rt name l
  | UnaryExpression operator argument _ =>
      await (evalExpression argument rt) (fun v =>
      evalUnary operator v)
  | BinaryExpression operator lhs rhs _ =>
      await (evalExpression lhs rt) (fun l =>
      await (evalExpression rhs rt) (fun r =>
      evalBinary operator l r))
  | Grouping expression _ => evalExpression expression rt
  end.

(** [runtime.envStack[0].print(v)]: the value of the property [print] of
    the global frame, called with [v].  Only the built-in closure can be
    called; it passes [v] to [console.log]. *)
Definition callValue (f : JS.value) (v : JS.value) (w : world) : completion * world :=
  match f with
  | JS.VPrint => (Normal, mkWorld (stdin w) (stdout w ++ [Log v]))
  | _ => (Thrown (HostError "TypeError" "runtime.envStack[0].print is not a function"), w)
  end.

Definition callPrint (rt : runtime) (v : JS.value) (w : world) : completion * world :=
  match envStack rt !! 0 with
  | Some globals => callValue (default JS.VUndefined (globals !! "print")) v w
  | None =>
      (Thrown (HostError "TypeError" "Cannot read properties of undefined (reading 'print')"), w)
  end.

(** [runtime.setVar(name, v)] as a statement's last step *)
Definition assign (rt : runtime) (name v : JS.value) (w : world)
    : completion * runtime * world :=
  match setVar rt name v with
  | Some rt' => (Normal, rt', w)
  | None =>
      (Thrown (HostError "TypeError" "Cannot set properties of undefined"), rt, w)
  end.

(** The [switch (node.type)] of [evalStatement], after the trace. *)
Definition execStatement (node : statement) (rt : runtime) (w : world)
    : completion * runtime * world :=
  match node with
  | PrintStatement argument _ =>
      match evalExpression argument rt with
      | Fulfilled v => let '(c, w') := callPrint rt v w in (c, rt, w')
      | Rejected e => (Thrown e, rt, w)
      end
  | SetStatement name value _ =>
      match evalExpression value rt with
      | Fulfilled v => assign rt name v w
      | Rejected e => (Thrown e, rt, w)
      end
  | InputStatement name prompt _ =>
      let query := if JS.toBoolean prompt then JS.toString prompt else "" in
      let w1 := mkWorld (stdin w) (stdout w ++ [Query query]) in
      match stdin w with
      | reached :: later =>
          assign rt name (JS.VStr (answered reached)) (mkWorld later (stdout w1))
      | [] => (Awaiting, rt, w1)
      end
  | ExprStatement e _ =>
      match evalExpression e rt with
      | Fulfilled _ => (Normal, rt, w)
      | Rejected e => (Thrown e, rt, w)
      end
  | ReturnStatement argument _ =>
      match argument with
      | Some a =>
          match evalExpression a rt with
          | Fulfilled v => (Returned v, rt, w)
          | Rejected e => (Thrown e, rt, w)
          end
      | None => (Returned JS.VNull, rt, w)
      end
  | IfStatement _ _ _ | LoopStatement _ _ _ | WhileStatement _ _ _
  | FunctionDef _ _ _ _ => (Normal, rt, w)
  end.

(** [if (runtime.trace) console.log(`[trace] ${node.type}`)] *)
Definition traced (node : statement) (rt : runtime) (w : world) : world :=
  if trace rt
  then mkWorld (stdin w) (stdout w ++ [Log (JS.VStr ("[trace] " +:+ statement_type node))])
  else w.

Definition evalStatement (node : statement) (rt : runtime) (w : world)
    : completion * runtime * world :=
  execStatement node rt (traced node rt w).

(** [evalProgram]: the [for] loop over [program.body]. *)
Fixpoint evalStatements (stmts : list statement) (rt : runtime) (w : world)
    : completion * runtime * world :=
  match stmts with
  | [] => (Normal, rt, w)
  | stmt :: rest =>
      match evalStatement stmt rt w with
      | (Normal, rt', w') => evalStatements rest rt' w'
      | res => res
      end
  end.

Definition evalProgram (program : Program) (rt : runtime) (w : world)
    : completion * runtime * world :=
  evalStatements (body program) rt w.

(** ** The command line (src/bin/qast.js) *)








(** The host of [main]: [resolve p] is [path.resolve(process.cwd(), p)],
    and [readFileSync p] the text of the file at [p], [None] when reading
    it throws. *)
Section Host.
Variable resolve : string -> string.
Variable readFileSync : string -> option string.


End Host.

(** * Notions of the statements *)

(** ** Sample inputs *)

Definition newline : string := String "010" EmptyString.

(** The lines of a source text, joined by line feeds. *)
Definition source (lines : list string) : string := String.concat newline lines.

Definition at_ (line column : nat) : loc :=
  Loc.mk (mkPos line column) (mkPos line column).

(** A stack of two frames: [x] is bound in both, [print] in the global
    one only. *)
Definition two_frames : runtime :=
  mkRuntime [ {[ "print" := JS.VPrint; "x" := JS.VNum 1 ]}; {[ "x" := JS.VNum 2 ]} ] false.

(** The global frame, below a frame that binds [print] to a number. *)
Definition shadowed_print : runtime :=
  mkRuntime [ {[ "print" := JS.VPrint ]}; {[ "print" := JS.VNum 5 ]} ] false.

Definition loop_then_print : string :=
  source ["new qas"; "q.loop 3 end"; "q.print 1"; ""].

Definition return_then_print : string :=
  source ["new qas"; "q.return 7"; "q.print 99"; ""].

Definition return_twice : string :=
  source ["new qas"; "q.return 1"; "q.return 2"; ""].

Definition print_then_return : string :=
  source ["new qas"; "q.print y"; "q.return 7"; ""].

(** ** Statements and operators *)

(** The statements whose bodies the parser leaves empty. *)
Definition isControlFlow (node : statement) : bool :=
  match node with
  | IfStatement _ _ _ | LoopStatement _ _ _ | WhileStatement _ _ _
  | FunctionDef _ _ _ _ => true
  | _ => false
  end.

(** The four relational operators. *)
Definition isRelational (op : string) : bool :=
  String.eqb op ">" || String.eqb op "<" || String.eqb op ">=" || String.eqb op "<=".

(** ** The lines of a source *)

(** A line the tokenizer does not skip: not empty once trimmed, and not
    a comment. *)
Definition isEffective (raw : string) : bool :=
  negb (String.eqb (JS.trim raw) "") && negb (JS.startsWith (JS.trim raw) "#").

(** The first effective line from [lineNum] on, trimmed, with its number. *)
Fixpoint firstEffective (lines : list string) (lineNum : nat) : option (nat * string) :=
  match lines with
  | [] => None
  | raw :: rest =>
      if isEffective raw then Some (lineNum, JS.trim raw)
      else firstEffective rest (S lineNum)
  end.

(** The error [lex] throws for a missing header, raised on line [n]. *)
Definition headerError (f : string) (n : nat) : error :=
  Qast (mkQastError "Missing QasT header (new qas)." (Some f) n 1
          (Some "First non-empty line must be: new qas")).

(** What one call of the statement tokenizer can do: push tokens other
    than [EOF], or throw a [QastError] of the given file and line that has
    no hint.  It is never short of fuel above [len - pos]. *)
Definition tokenize_post (tokens : list token) (f : string) (ln : nat) (bound : nat)
    (r : result (list token)) : Prop :=
  match r with
  | Ok tokens' =>
      exists added, tokens' = tokens ++ added /\
                    Forall (fun t => Token.type t <> EOF) added
  | Throw err =>
      exists q, err = Qast q /\ file q = Some f /\ line q = ln /\ hint q = None
  | OutOfFuel => bound = 0
  end.

(** ** Where the nodes of a parse lie

    [expr_spans tokens e pos pos'] describes a node [e] read with the
    cursor going from [pos] to [pos']: what its [loc], and the [loc] of
    every node below it, is made of.  A literal or an identifier is one
    token and starts and ends at that token's position.  A [Grouping]
    starts at its opening parenthesis and ends where the expression inside
    ends; the closing parenthesis is the token after it.  A
    [BinaryExpression] starts where its left operand starts and ends where
    its right operand ends, the operator being the token between them.  A
    [UnaryExpression] ends where its operand ends; nothing is said of
    where it starts. *)
Fixpoint expr_spans (tokens : list token) (e : expr) (pos pos' : nat) : Prop :=
  match e with
  | NumberLiteral _ l | StringLiteral _ l | Identifier _ l =>
      exists tok, peek tokens pos = Some tok /\
                  l = Loc.mk (token_position tok) (token_position tok) /\
                  pos' = S pos
  | Grouping inner l =>
      exists tok mid, peek tokens pos = Some tok /\
                      Loc.start l = token_position tok /\
                      Loc.end_ l = Loc.end_ (expr_loc inner) /\
                      expr_spans tokens inner (S pos) mid /\
                      pos' = S mid
  | UnaryExpression _ argument l =>
      Loc.end_ l = Loc.end_ (expr_loc argument) /\
      expr_spans tokens argument (S pos) pos'
  | BinaryExpression _ lhs rhs l =>
      exists mid, Loc.start l = Loc.start (expr_loc lhs) /\
                  Loc.end_ l = Loc.end_ (expr_loc rhs) /\
                  expr_spans tokens lhs pos mid /\
                  expr_spans tokens rhs (S mid) pos'
  end.

(** The same for a statement.  A statement that begins with a keyword
    starts at the keyword; it ends where its expression ends when it has
    one, and where it starts otherwise (so the prompt of an [input], the
    parameters of a [fn] and the closing [end] are not covered).  An
    [ExprStatement] starts and ends where its expression starts. *)
Definition statement_spans (tokens : list token) (s : statement) (pos pos' : nat) : Prop :=
  match s with
  | PrintStatement e l =>
      exists tok, peek tokens pos = Some tok /\
                  Loc.start l = token_position tok /\
                  Loc.end_ l = Loc.end_ (expr_loc e) /\
                  expr_spans tokens e (S pos) pos'
  | SetStatement _ e l =>
      exists tok, peek tokens pos = Some tok /\
                  Loc.start l = token_position tok /\
                  Loc.end_ l = Loc.end_ (expr_loc e) /\
                  expr_spans tokens e (pos + 3) pos'
  | InputStatement _ prompt l =>
      exists tok, peek tokens pos = Some tok /\
                  l = Loc.mk (token_position tok) (token_position tok) /\
                  (pos' = pos + 2 \/ pos' = pos + 3)
  | ExprStatement e l =>
      l = Loc.mk (Loc.start (expr_loc e)) (Loc.start (expr_loc e)) /\
      expr_spans tokens e pos pos'
  | ReturnStatement None l =>
      exists tok, peek tokens pos = Some tok /\
                  l = Loc.mk (token_position tok) (token_position tok) /\
                  pos' = S pos
  | ReturnStatement (Some e) l =>
      exists tok, peek tokens pos = Some tok /\
                  Loc.start l = token_position tok /\
                  Loc.end_ l = Loc.end_ (expr_loc e) /\
                  expr_spans tokens e (S pos) pos'
  | IfStatement tests alternate l =>
      exists tok e mid, peek tokens pos = Some tok /\
                        tests = [(e, [])] /\ alternate = None /\
                        Loc.start l = token_position tok /\
                        Loc.end_ l = Loc.end_ (expr_loc e) /\
                        expr_spans tokens e (S pos) mid /\
                        pos' = S mid
  | LoopStatement e body l | WhileStatement e body l =>
      exists tok mid, peek tokens pos = Some tok /\
                      body = [] /\
                      Loc.start l = token_position tok /\
                      Loc.end_ l = Loc.end_ (expr_loc e) /\
                      expr_spans tokens e (S pos) mid /\
                      pos' = S mid
  | FunctionDef _ params body l =>
      exists tok, peek tokens pos = Some tok /\
                  body = [] /\
                  l = Loc.mk (token_position tok) (token_position tok) /\
                  pos' = pos + 3 + length params
  end.

(** The statements of a body, read one after the other from [pos] on. *)
Fixpoint body_spans (tokens : list token) (stmts : list statement) (pos : nat) : Prop :=
  match stmts with
  | [] => True
  | s :: rest =>
      exists pos', statement_spans tokens s pos pos' /\ body_spans tokens rest pos'
  end.

(** The leftmost leaf of the expression is under a unary operator. *)
Fixpoint leftmostUnary (e : expr) : bool :=
  match e with
  | UnaryExpression _ _ _ => true
  | BinaryExpression _ lhs _ _ => leftmostUnary lhs
  | _ => false
  end.

(** Every node a parsing function returns lies as [expr_spans] says. *)
Definition spans_ok (tokens : list token) (p : nat -> result (expr * nat)) : Prop :=
  forall pos e pos', p pos = Ok (e, pos') -> expr_spans tokens e pos pos'.

(** ** A token no production takes

    With a token that nothing consumes at index [k], the cursor of a
    parsing function called at [pos <= k] stays at or below [k].
    [held fuel pos r] says so of a result [r]: a success has moved the
    cursor forward and not past [k], a failure is a [QastError], and the
    fuel only runs out when there was no more of it than tokens left
    before [k]. *)
Definition held {A : Type} (k fuel pos : nat) (r : result (A * nat)) : Prop :=
  match r with
  | Ok (_, pos') => pos < pos' /\ pos' <= k
  | Throw (Qast _) => True
  | Throw (HostError _ _) => False
  | OutOfFuel => fuel <= k - pos
  end.

(** What the parser asks of a token, in [consume] and [match]: a type
    other than [OP], or an operator other than [&&] and [||]. *)
Definition asked (ty : tokenType) (v : option string) : Prop :=
  ty <> OP \/ exists s, v = Some s /\ s <> "&&" /\ s <> "||".

Definition holds (k fuel : nat) (p : nat -> result (expr * nat)) : Prop :=
  forall pos, pos <= k -> held k fuel pos (p pos).

(** ** What the tokenizer makes *)

(** The value a token carries, by its type: a number, a string, the text
    of the operator (one of the six two-character operators or one of the
    sixteen single characters), [null] for [EOF], and for an identifier or
    a keyword its text, which [keywordOrIdent] maps to the token's type
    (so the text of an [IDENT] is no keyword). *)
Definition token_shaped (t : token) : Prop :=
  match Token.type t with
  | NUMBER => exists n, Token.value t = JS.VNum n
  | STRING => exists s, Token.value t = JS.VStr s
  | OP =>
      exists s, Token.value t = JS.VStr s /\
                (isTwoCharOp s = true \/
                 exists ch, s = String ch EmptyString /\
                            JS.includes "+-*/%><=(){}[],." ch = true)
  | EOF => Token.value t = JS.VNull
  | ty => exists s, Token.value t = JS.VStr s /\ keywordOrIdent s = ty
  end.

(** [a] comes before [b]: on an earlier line, or on the same line at a
    smaller column. *)
Definition before (a b : token) : Prop :=
  Token.line a < Token.line b \/
  (Token.line a = Token.line b /\ Token.column a < Token.column b).

(** The errors of the tokenizer, by message: the header error, with its
    hint and column 1, and the three without hint. *)
Definition lex_error_kind (q : QastError) : Prop :=
  (message q = "Missing QasT header (new qas)." /\
   hint q = Some "First non-empty line must be: new qas" /\ column q = 1) \/
  (hint q = None /\
   (message q = "Executable lines must start with 'q.'." \/
    message q = "Unterminated string literal" \/
    exists ch, message q = "Unexpected character '" +:+ String ch "'")).

(** The tokens one statement adds, from position [pos] of its text on. *)
Definition statement_tokens (f : string) (ln pos : nat) (added : list token) : Prop :=
  Forall (fun t => Token.file t = f /\ Token.line t = ln /\ pos < Token.column t /\
                   token_shaped t) added /\
  StronglySorted (fun a b => Token.column a < Token.column b) added.

(** A token, or an error, of the file [f] placed on the lines from [lo]
    up to, not including, [hi]. *)
Definition token_placed (f : string) (lo hi : nat) (t : token) : Prop :=
  Token.file t = f /\ lo <= Token.line t < hi /\ 1 <= Token.column t /\ token_shaped t.

Definition error_placed (f : string) (lo hi : nat) (q : QastError) : Prop :=
  file q = Some f /\ lo <= line q < hi /\ 1 <= column q /\ lex_error_kind q.

(** What [tokenizeLoop] returns from [pos] on. *)
Definition tokenized (tokens : list token) (f : string) (ln pos : nat)
    (r : result (list token)) : Prop :=
  match r with
  | Ok tokens' => exists added, tokens' = tokens ++ added /\ statement_tokens f ln pos added
  | Throw err =>
      exists q, err = Qast q /\ file q = Some f /\ line q = ln /\ pos < column q /\
                hint q = None /\
                (message q = "Unterminated string literal" \/
                 exists ch, message q = "Unexpected character '" +:+ String ch "'")
  | OutOfFuel => True
  end.

(** The text of a string literal that needs no escape: it holds
    neither a backslash nor the quote that delimits it. *)
Fixpoint isPlain (quote : ascii) (s : string) : bool :=
  match s with
  | EmptyString => true
  | String c r => negb (Ascii.eqb c "092") && negb (Ascii.eqb c quote) && isPlain quote r
  end.

(** Every character of [s] satisfies [p]. *)
Fixpoint every (p : ascii -> bool) (s : string) : bool :=
  match s with
  | EmptyString => true
  | String c r => p c && every p r
  end.

(** ** How tightly the operators bind *)

(** The level of a binary operator in the grammar: 1 for equality, 2 for
    comparison, 3 for [+] and [-], 4 for [*], [/] and [%]. *)
Definition opLevel (op : JS.value) : option nat :=
  match op with
  | JS.VStr s =>
      if String.eqb s "==" || String.eqb s "!=" then Some 1
      else if String.eqb s ">" || String.eqb s "<" || String.eqb s ">=" || String.eqb s "<="
      then Some 2
      else if String.eqb s "+" || String.eqb s "-" then Some 3
      else if String.eqb s "*" || String.eqb s "/" || String.eqb s "%" then Some 4
      else None
  | _ => None
  end.

(** The level of an expression: that of its operator when it is a
    [BinaryExpression], and 5 (unary and primary) otherwise. *)
Definition exprLevel (e : expr) : nat :=
  match e with
  | BinaryExpression op _ _ _ => default 0 (opLevel op)
  | _ => 5
  end.

(** An expression nested as the grammar nests it: the left operand of a
    binary operator binds at least as tightly as the operator and the
    right operand strictly tighter (operators of one level chain to the
    left); the operand of a unary operator, which is [!] or [-], is unary
    or primary; anything looser is inside a [Grouping]. *)
Fixpoint well_nested (e : expr) : Prop :=
  match e with
  | BinaryExpression op lhs rhs _ =>
      (exists n, opLevel op = Some n /\ n <= exprLevel lhs /\ n < exprLevel rhs) /\
      well_nested lhs /\ well_nested rhs
  | UnaryExpression op argument _ =>
      (op = JS.VStr "!" \/ op = JS.VStr "-") /\ exprLevel argument = 5 /\
      well_nested argument
  | Grouping e' _ => well_nested e'
  | _ => True
  end.

(** The expressions a statement holds, and the names it binds. *)
Definition statement_exprs (s : statement) : list expr :=
  match s with
  | PrintStatement e _ | SetStatement _ e _ | ExprStatement e _
  | LoopStatement e _ _ | WhileStatement e _ _ => [e]
  | ReturnStatement (Some e) _ => [e]
  | IfStatement tests _ _ => map fst tests
  | _ => []
  end.

Definition statement_names (s : statement) : list JS.value :=
  match s with
  | SetStatement name _ _ | InputStatement name _ _ => [name]
  | FunctionDef name params _ _ => name :: params
  | _ => []
  end.

(** Every node a parsing function returns is nested as the grammar says,
    at level [lvl] or tighter. *)
Definition nested_ok (lvl : nat) (p : nat -> result (expr * nat)) : Prop :=
  forall pos e pos', p pos = Ok (e, pos') -> well_nested e /\ lvl <= exprLevel e.

(** Whether the operator [!] occurs in an expression. *)
Fixpoint negated (e : expr) : bool :=
  match e with
  | UnaryExpression op argument _ => JS.strictEquals op (JS.VStr "!") || negated argument
  | BinaryExpression _ lhs rhs _ => negated lhs || negated rhs
  | Grouping e' _ => negated e'
  | _ => false
  end.

(** No node a parsing function returns holds the operator [!]. *)
Definition unnegated_ok (p : nat -> result (expr * nat)) : Prop :=
  forall pos e pos', p pos = Ok (e, pos') -> negated e = false.

(** An expression [parseExpression] returned, at some cursor. *)
Definition parsed_expression (tokens : list token) (f : string) (e : expr) : Prop :=
  exists fuel pos pos', parseExpression tokens f fuel pos = Ok (e, pos').

(** The value of an [IDENT] token of the array. *)
Definition identifier_of (tokens : list token) (name : JS.value) : Prop :=
  exists tok, tok ∈ tokens /\ Token.type tok = IDENT /\ Token.value tok = name.

(** ** A sample host *)



(** ** What evaluation keeps *)

(** From [rt] to [rt']: the [trace] option and the number of frames are
    the same, and so is every frame below the innermost. *)
Definition frames_kept (rt rt' : runtime) : Prop :=
  trace rt' = trace rt /\
  length (envStack rt') = length (envStack rt) /\
  forall j, j < length (envStack rt) - 1 -> envStack rt' !! j = envStack rt !! j.

(** From [w] to [w']: what was written is kept, and [out] is written
    after it. *)
Definition output_kept (w w' : world) : Prop :=
  exists out, stdout w' = stdout w ++ out.

(** The error of [getVar]. *)
Definition undefined_variable (e : error) : Prop :=
  exists name ln col,
    e = Qast (mkQastError ("Undefined variable '" +:+ name +:+ "'") None ln col None).

(** A runtime with the global frame only, in which [print] is the
    built-in. *)
Definition global_only (rt : runtime) : Prop :=
  exists globals, envStack rt = [globals] /\ globals !! "print" = Some JS.VPrint.

(** A name that is the text of an identifier, so no keyword. *)
Definition plain_name (name : JS.value) : Prop :=
  exists s, name = JS.VStr s /\ keywordOrIdent s = IDENT.

(** ** The errors of the parser *)

(** An error of [consume] or of [parsePrimary]: it names the file given
    to [parse], has no hint, and stands at a token of the array, whose
    type its message names. *)
Definition parse_error_at (f : string) (tokens : list token) (q : QastError) : Prop :=
  file q = Some f /\ hint q = None /\
  exists tok,
    tok ∈ tokens /\ line q = Token.line tok /\ column q = Token.column tok /\
    (message q = "Unexpected token " +:+ tokenType_name (Token.type tok) \/
     exists expected found,
       message q = "Expected " +:+ expected +:+ " but found " +:+
                   tokenType_name (Token.type tok) +:+ " " +:+ found).

Definition placed_error {A : Type} (f : string) (tokens : list token) (r : result A) : Prop :=
  match r with
  | Throw (Qast q) => parse_error_at f tokens q
  | _ => True
  end.

(** * Properties *)

(** ** Variables: [getVar] and the [Identifier] case *)

Lemma getVarLoop_found (stack : list (gmap string JS.value)) (key : string) (n i : nat)
    (frame : gmap string JS.value) (v : JS.value) :
  i < n ->
  stack !! i = Some frame ->
  frame !! key = Some v ->
  (forall j frame', i < j -> j < n -> stack !! j = Some frame' -> frame' !! key = None) ->
  getVarLoop stack n key = Some v.
Proof.
  induction n as [|n IH]; intros Hi Hf Hv Hinner; [lia|].
  simpl. destruct (decide (i = n)) as [->|Hne].
  - rewrite Hf, Hv. reflexivity.
  - assert (IHn : getVarLoop stack n key = Some v).
    { apply IH; [lia | exact Hf | exact Hv |].
      intros j frame' Hij Hjn Hj. apply (Hinner j frame'); [lia | lia | exact Hj]. }
    destruct (stack !! n) as [fr|] eqn:Hn; [|exact IHn].
    rewrite (Hinner n fr); [exact IHn | lia | lia | exact Hn].
Qed.

Lemma getVarLoop_none (stack : list (gmap string JS.value)) (key : string) (n : nat) :
  (forall i frame, stack !! i = Some frame -> frame !! key = None) ->
  getVarLoop stack n key = None.
Proof.
  intros Hnone. induction n as [|n IH]; [reflexivity|].
  simpl. destruct (stack !! n) as [fr|] eqn:Hn; [|exact IH].
  rewrite (Hnone n fr Hn). exact IH.
Qed.

(** C6.  An [Identifier] evaluates to the value bound in the innermost
    frame (the one of greatest index) that has the name; when no frame has
    it, the evaluation is rejected with the error
    [Undefined variable '<name>'] whose line and column are those of the
    start of the identifier's own [loc]. *)
Theorem identifier_lookup (rt : runtime) (name : JS.value) (l : loc) :
  (forall (i : nat) (frame : gmap string JS.value) (v : JS.value),
      envStack rt !! i = Some frame ->
      frame !! propertyKey name = Some v ->
      (forall j frame', i < j -> envStack rt !! j = Some frame' ->
                        frame' !! propertyKey name = None) ->
      evalExpression (Identifier name l) rt = Fulfilled v)
  /\
  ((forall (i : nat) (frame : gmap string JS.value),
      envStack rt !! i = Some frame -> frame !! propertyKey name = None) ->
   evalExpression (Identifier name l) rt =
     Rejected (Qast (mkQastError ("Undefined variable '" +:+ JS.toString name +:+ "'")
                      None (pos_line (Loc.start l)) (pos_column (Loc.start l)) None))).
Proof.
  split.
  - intros i frame v Hf Hv Hinner. simpl. unfold getVar.
    rewrite (getVarLoop_found (envStack rt) (propertyKey name)
               (length (envStack rt)) i frame v); auto.
    + apply lookup_lt_Some in Hf. exact Hf.
    + intros j frame' Hij _ Hj. eauto.
  - intros Hnone. simpl. unfold getVar.
    rewrite getVarLoop_none; auto.
Qed.

(** [identifier_lookup] on a stack of two frames that both bind [x]: the
    inner binding is found, and [y], bound nowhere, is reported at 3:7. *)
Lemma identifier_lookup_witness :
  evalExpression (Identifier (JS.VStr "x") (at_ 3 7)) two_frames = Fulfilled (JS.VNum 2) /\
  evalExpression (Identifier (JS.VStr "y") (at_ 3 7)) two_frames =
    Rejected (Qast (mkQastError "Undefined variable 'y'" None 3 7 None)).
Proof.
  split.
  - apply (proj1 (identifier_lookup two_frames (JS.VStr "x") (at_ 3 7))
             1 {[ "x" := JS.VNum 2 ]} (JS.VNum 2)).
    + reflexivity.
    + vm_compute. reflexivity.
    + intros [|[|j]] frame' Hj Hf; [lia | lia | discriminate Hf].
  - apply (proj2 (identifier_lookup two_frames (JS.VStr "y") (at_ 3 7))).
    intros [|[|i]] frame Hf; [| | discriminate Hf];
      injection Hf as <-; vm_compute; reflexivity.
Defined.

(** ** Statements *)

Lemma evalStatements_app (pre post : list statement) (rt : runtime) (w : world) :
  evalStatements (pre ++ post) rt w =
    match evalStatements pre rt w with
    | (Normal, rt', w') => evalStatements post rt' w'
    | res => res
    end.
Proof.
  revert rt w. induction pre as [|s pre IH]; intros rt w; simpl.
  - destruct (evalStatements post rt w) as [[[] ?] ?]; reflexivity.
  - destruct (evalStatement s rt w) as [[[] rt1] w1]; auto.
Qed.

(** C5 as stated fails when a statement before the [ReturnStatement]
    ends the program.  In [q.return 1 / q.return 2] the body holds a
    [ReturnStatement] at index 1 whose argument evaluates to 2, but the
    result is 1 and, as the single trace line shows, the statement at
    index 1 is never evaluated.  In [q.print y / q.return 7] the
    [ReturnStatement] at index 1 is not reached either: the program ends
    with the exception of [print y]. *)
Lemma return_is_not_always_reached :
  (exists toks first a l,
     lex return_twice "f" = Ok toks /\
     parse 8 toks "f" = Ok (mkProgram [first; ReturnStatement (Some a) l]) /\
     evalExpression a (createRuntime true) = Fulfilled (JS.VNum 2) /\
     evalProgram (mkProgram [first; ReturnStatement (Some a) l]) (createRuntime true)
       (mkWorld [] []) =
       (Returned (JS.VNum 1), createRuntime true,
        mkWorld [] [Log (JS.VStr "[trace] ReturnStatement")])) /\
  (exists toks first a l q,
     lex print_then_return "f" = Ok toks /\
     parse 8 toks "f" = Ok (mkProgram [first; ReturnStatement (Some a) l]) /\
     evalExpression a (createRuntime false) = Fulfilled (JS.VNum 7) /\
     evalProgram (mkProgram [first; ReturnStatement (Some a) l]) (createRuntime false)
       (mkWorld [] []) =
       (Thrown (Qast q), createRuntime false, mkWorld [] []) /\
     message q = "Undefined variable 'y'").
Proof.
  split.
  - eexists _, _, _, _. split; [vm_compute; reflexivity|].
    split; [vm_compute; reflexivity|]. split; reflexivity.
  - eexists _, _, _, _, _. split; [vm_compute; reflexivity|].
    split; [vm_compute; reflexivity|]. split; [reflexivity|]. split; reflexivity.
Qed.

(** C5, amended.  For a program whose body holds a [ReturnStatement] at
    index [i] (after the statements [pre]), the statements before it are
    evaluated in order.  When each of them completes normally, leaving
    the state [rt'] and [w'], the [ReturnStatement] is evaluated next and
    ends the program: with the value of its argument in [rt'] ([null]
    when there is none) as the result, or with the exception that
    evaluating the argument raises; the final state is [rt'] and [w']
    (with the trace line of the [ReturnStatement] in trace mode).  When
    one of them ends the evaluation (an earlier [ReturnStatement], an
    exception, or an input that is never answered), the program ends
    there, with that outcome, and the [ReturnStatement] at index [i] is
    not evaluated.  In every case the outcome is the same whatever
    statements [post] follow: none of them is run. *)
Theorem return_ends_program (pre post : list statement) (argument : option expr)
    (l : loc) (rt : runtime) (w : world) :
  evalProgram (mkProgram (pre ++ ReturnStatement argument l :: post)) rt w =
    match evalStatements pre rt w with
    | (Normal, rt', w') =>
        let written := traced (ReturnStatement argument l) rt' w' in
        match argument with
        | None => (Returned JS.VNull, rt', written)
        | Some a =>
            match evalExpression a rt' with
            | Fulfilled v => (Returned v, rt', written)
            | Rejected e => (Thrown e, rt', written)
            end
        end
    | ended => ended
    end.
Proof.
  unfold evalProgram. simpl. rewrite evalStatements_app.
  destruct (evalStatements pre rt w) as [[[|v|e|] rt'] w']; try reflexivity.
  simpl. unfold evalStatement. simpl.
  destruct argument as [a|]; [|reflexivity].
  destruct (evalExpression a rt') as [v|e]; reflexivity.
Qed.

(** [return_ends_program] on [q.return 7] followed by [q.print 99]: the
    result is 7 and nothing is written. *)
Lemma return_ends_program_witness :
  exists toks pre a l post,
    lex return_then_print "f" = Ok toks /\
    parse 8 toks "f" = Ok (mkProgram (pre ++ ReturnStatement (Some a) l :: post)) /\
    post <> [] /\
    evalProgram (mkProgram (pre ++ ReturnStatement (Some a) l :: post))
      (createRuntime false) (mkWorld [] []) =
      (Returned (JS.VNum 7), createRuntime false, mkWorld [] []).
Proof.
  eexists _, [], _, _, _. split; [vm_compute; reflexivity|].
  split; [vm_compute; reflexivity|]. split; [discriminate|].
  rewrite return_ends_program. reflexivity.
Defined.

(** C7 as stated fails in trace mode: evaluating a [LoopStatement]
    writes its trace line. *)
Lemma control_flow_writes_trace :
  stdout (evalStatement (LoopStatement (NumberLiteral (JS.VNum 3) (at_ 2 6)) [] (at_ 2 1))
            (createRuntime true) (mkWorld [] [])).2
  = [Log (JS.VStr "[trace] LoopStatement")].
Proof. reflexivity. Qed.

(** C7, amended.  Evaluating an [IfStatement], [LoopStatement],
    [WhileStatement] or [FunctionDef] completes normally, leaves the
    runtime (frame stack included) and the input unchanged, and writes
    nothing but the statement's trace line, which it writes in trace mode
    only.  The program [new qas / q.loop 3 end / q.print 1] passes [1] to
    [console.log] once, in either mode. *)
Theorem control_flow_is_noop :
  (forall (node : statement) (rt : runtime) (w : world),
     isControlFlow node = true ->
     evalStatement node rt w =
       (Normal, rt,
        mkWorld (stdin w)
          (stdout w ++ if trace rt
                       then [Log (JS.VStr ("[trace] " +:+ statement_type node))]
                       else []))) /\
  (forall (tr : bool) (input : list arrival),
     exists toks prog,
       lex loop_then_print "f" = Ok toks /\
       parse 8 toks "f" = Ok prog /\
       evalProgram prog (createRuntime tr) (mkWorld input []) =
         (Normal, createRuntime tr,
          mkWorld input
            (if tr
             then [Log (JS.VStr "[trace] LoopStatement");
                   Log (JS.VStr "[trace] PrintStatement"); Log (JS.VNum 1)]
             else [Log (JS.VNum 1)]))).
Proof.
  split.
  - intros node rt [inp out] Hcf. unfold evalStatement, traced.
    destruct node; try discriminate Hcf; simpl;
      destruct (trace rt); simpl; rewrite ?app_nil_r; reflexivity.
  - intros tr input. eexists _, _.
    split; [vm_compute; reflexivity|]. split; [vm_compute; reflexivity|].
    destruct tr; vm_compute; reflexivity.
Qed.

(** [control_flow_is_noop] on a [WhileStatement], trace mode off. *)
Lemma control_flow_is_noop_witness :
  evalStatement (WhileStatement (Identifier (JS.VStr "x") (at_ 2 7)) [] (at_ 2 1))
    (createRuntime false) (mkWorld [mkArrival "typed" []] [Log (JS.VNum 1)])
  = (Normal, createRuntime false, mkWorld [mkArrival "typed" []] [Log (JS.VNum 1)]).
Proof.
  exact (proj1 control_flow_is_noop
           (WhileStatement (Identifier (JS.VStr "x") (at_ 2 7)) [] (at_ 2 1))
           (createRuntime false) (mkWorld [mkArrival "typed" []] [Log (JS.VNum 1)]) eq_refl).
Defined.

(** C9.  A [PrintStatement] calls the value of [print] in the global
    frame (index 0), whatever the frames above it bind.  With a single
    frame, [set print = v] overwrites that binding, and a later
    [PrintStatement] calls [v]: unless [v] is the built-in closure, the
    call throws and nothing is written. *)
Theorem print_reads_global_frame :
  (forall (globals : gmap string JS.value) (inner : list (gmap string JS.value))
          (tr : bool) (argument : expr) (l : loc) (x : JS.value) (w : world),
     let rt := mkRuntime (globals :: inner) tr in
     evalExpression argument rt = Fulfilled x ->
     evalStatement (PrintStatement argument l) rt w =
       (let '(c, w') := callValue (default JS.VUndefined (globals !! "print")) x
                          (traced (PrintStatement argument l) rt w) in
        (c, rt, w'))) /\
  (forall (globals : gmap string JS.value) (tr : bool) (value : expr) (l : loc)
          (v : JS.value) (w : world),
     let rt := mkRuntime [globals] tr in
     let rt' := mkRuntime [<[ "print" := v ]> globals] tr in
     evalExpression value rt = Fulfilled v ->
     evalStatement (SetStatement (JS.VStr "print") value l) rt w =
       (Normal, rt', traced (SetStatement (JS.VStr "print") value l) rt w) /\
     forall (argument : expr) (l' : loc) (x : JS.value) (w' : world),
       evalExpression argument rt' = Fulfilled x ->
       evalStatement (PrintStatement argument l') rt' w' =
         (let '(c, w'') := callValue v x (traced (PrintStatement argument l') rt' w') in
          (c, rt', w''))).
Proof.
  split.
  - intros globals inner tr argument l x w rt Hx.
    unfold evalStatement. simpl. rewrite Hx. reflexivity.
  - intros globals tr value l v w rt rt' Hv. split.
    + unfold evalStatement. simpl. rewrite Hv. reflexivity.
    + intros argument l' x w' Hx. unfold evalStatement. simpl. rewrite Hx.
      unfold callPrint. simpl. rewrite lookup_insert_eq. reflexivity.
Qed.

(** [print_reads_global_frame] on a shadowed [print], and on
    [set print = 5] followed by a [PrintStatement]. *)
Lemma print_reads_global_frame_witness :
  (* the global closure is called although the inner frame binds [print] *)
  evalStatement (PrintStatement (StringLiteral (JS.VStr "hi") (at_ 2 7)) (at_ 2 1))
    shadowed_print (mkWorld [] [])
  = (Normal, shadowed_print, mkWorld [] [Log (JS.VStr "hi")]) /\
  (* after [set print = 5], printing calls the number 5 *)
  evalStatements
    [SetStatement (JS.VStr "print") (NumberLiteral (JS.VNum 5) (at_ 2 13)) (at_ 2 1);
     PrintStatement (StringLiteral (JS.VStr "hi") (at_ 3 7)) (at_ 3 1)]
    (createRuntime false) (mkWorld [] [])
  = (Thrown (HostError "TypeError" "runtime.envStack[0].print is not a function"),
     mkRuntime [<[ "print" := JS.VNum 5 ]> {[ "print" := JS.VPrint ]}] false,
     mkWorld [] []).
Proof.
  split.
  - exact (proj1 print_reads_global_frame {[ "print" := JS.VPrint ]}
             [ {[ "print" := JS.VNum 5 ]} ] false
             (StringLiteral (JS.VStr "hi") (at_ 2 7)) (at_ 2 1) (JS.VStr "hi")
             (mkWorld [] []) eq_refl).
  - pose proof (proj2 print_reads_global_frame {[ "print" := JS.VPrint ]} false
                  (NumberLiteral (JS.VNum 5) (at_ 2 13)) (at_ 2 1) (JS.VNum 5)
                  (mkWorld [] []) eq_refl) as [Hset Hprint].
    unfold evalStatements, createRuntime. rewrite Hset.
    rewrite (Hprint (StringLiteral (JS.VStr "hi") (at_ 3 7)) (at_ 3 1) (JS.VStr "hi")
               _ eq_refl).
    reflexivity.
Defined.

(** ** Operators *)

(** C2 as stated fails for the relational operators: a string operand is
    converted to a number, so [1 < "2"] holds, [1 < "0"] does not, and
    [10 >= "9"] holds although the strings compare the other way. *)
Lemma relational_operators_convert :
  evalBinary (JS.VStr "<") (JS.VNum 1) (JS.VStr "2") = Fulfilled (JS.VBool true) /\
  evalBinary (JS.VStr "<") (JS.VNum 1) (JS.VStr "0") = Fulfilled (JS.VBool false) /\
  evalBinary (JS.VStr ">=") (JS.VNum 10) (JS.VStr "9") = Fulfilled (JS.VBool true) /\
  evalBinary (JS.VStr ">=") (JS.VStr "10") (JS.VStr "9") = Fulfilled (JS.VBool false).
Proof. repeat split; vm_compute; reflexivity. Qed.

(** C2, amended.  When one operand of a [BinaryExpression] evaluates to a
    number and the other to a string, [==] yields [false] and [!=] yields
    [true] without converting either ([===] and [!==]); [>], [<], [>=]
    and [<=] convert the string to a number ([StringToNumber]) and
    compare the two numbers. *)
Theorem comparison_of_number_and_string (rt : runtime) (lhs rhs : expr) (l : loc)
    (n : float) (s : string) :
  evalExpression lhs rt = Fulfilled (JS.VNum n) ->
  evalExpression rhs rt = Fulfilled (JS.VStr s) ->
  evalExpression (BinaryExpression (JS.VStr "==") lhs rhs l) rt = Fulfilled (JS.VBool false) /\
  evalExpression (BinaryExpression (JS.VStr "==") rhs lhs l) rt = Fulfilled (JS.VBool false) /\
  evalExpression (BinaryExpression (JS.VStr "!=") lhs rhs l) rt = Fulfilled (JS.VBool true) /\
  evalExpression (BinaryExpression (JS.VStr "!=") rhs lhs l) rt = Fulfilled (JS.VBool true) /\
  forall op, isRelational op = true ->
    evalExpression (BinaryExpression (JS.VStr op) lhs rhs l) rt =
      evalBinary (JS.VStr op) (JS.VNum n) (JS.VNum (JS.stringToNumber s)) /\
    evalExpression (BinaryExpression (JS.VStr op) rhs lhs l) rt =
      evalBinary (JS.VStr op) (JS.VNum (JS.stringToNumber s)) (JS.VNum n).
Proof.
  intros Hl Hr. simpl. rewrite Hl, Hr. simpl.
  repeat (split; [reflexivity|]).
  intros op Hop. unfold isRelational in Hop. unfold evalBinary.
  destruct (String.eqb_spec op "+") as [->|_]; [discriminate Hop|].
  destruct (String.eqb_spec op "-") as [->|_]; [discriminate Hop|].
  destruct (String.eqb_spec op "*") as [->|_]; [discriminate Hop|].
  destruct (String.eqb_spec op "/") as [->|_]; [discriminate Hop|].
  destruct (String.eqb_spec op "%") as [->|_]; [discriminate Hop|].
  destruct (String.eqb_spec op "==") as [->|_]; [discriminate Hop|].
  destruct (String.eqb_spec op "!=") as [->|_]; [discriminate Hop|].
  destruct (String.eqb op ">"); [split; reflexivity|].
  destruct (String.eqb op "<"); [split; reflexivity|].
  destruct (String.eqb op ">="); [split; reflexivity|].
  destruct (String.eqb op "<="); [split; reflexivity|].
  discriminate Hop.
Qed.

(** [comparison_of_number_and_string] on the number 1 and the string
    ["1"]: they are not [==], and they are [<=]. *)
Lemma comparison_of_number_and_string_witness :
  evalExpression
    (BinaryExpression (JS.VStr "==") (NumberLiteral (JS.VNum 1) (at_ 2 7))
       (StringLiteral (JS.VStr "1") (at_ 2 12)) (at_ 2 7)) (createRuntime false)
  = Fulfilled (JS.VBool false) /\
  evalExpression
    (BinaryExpression (JS.VStr "<=") (NumberLiteral (JS.VNum 1) (at_ 2 7))
       (StringLiteral (JS.VStr "1") (at_ 2 12)) (at_ 2 7)) (createRuntime false)
  = Fulfilled (JS.VBool true).
Proof.
  pose proof (comparison_of_number_and_string (createRuntime false)
                (NumberLiteral (JS.VNum 1) (at_ 2 7))
                (StringLiteral (JS.VStr "1") (at_ 2 12)) (at_ 2 7) 1%float "1"
                eq_refl eq_refl) as (Heq & _ & _ & _ & Hrel).
  split; [exact Heq|].
  rewrite (proj1 (Hrel "<=" eq_refl)). vm_compute. reflexivity.
Defined.

(** ** The tokenizer *)

Lemma get_lt (text : string) (pos : nat) (ch : ascii) :
  String.get pos text = Some ch -> pos < String.length text.
Proof.
  revert pos. induction text as [|c r IH]; intros [|p] H; simpl in *;
    try discriminate; [lia|]. apply IH in H. lia.
Qed.

Lemma sliceFrom_get (text : string) (pos : nat) (ch : ascii) :
  String.get pos text = Some ch ->
  JS.sliceFrom text pos = String ch (JS.sliceFrom text (S pos)).
Proof.
  unfold JS.sliceFrom. revert pos.
  induction text as [|c r IH]; intros [|p] H; simpl in *; try discriminate.
  - injection H as ->. rewrite Nat.sub_0_r. reflexivity.
  - rewrite (IH p H). reflexivity.
Qed.

Lemma readStringLoop_advances (quote : ascii) (rest : string) (pos : nat)
    (value value' : string) (endPos : nat) :
  readStringLoop quote rest pos value = Some (value', endPos) -> pos < endPos.
Proof.
  remember (String.length rest) as n eqn:Hn.
  assert (Hle : String.length rest <= n) by lia. clear Hn.
  revert rest pos value Hle.
  induction n as [|n IH]; intros [|ch r] pos value Hle; simpl in *;
    try discriminate; [lia|].
  destruct (Ascii.eqb ch "092").
  - destruct r as [|next r']; [discriminate|]. simpl in Hle.
    intros H. apply IH in H; lia.
  - destruct (Ascii.eqb ch quote).
    + intros H. injection H as _ <-. lia.
    + intros H. apply IH in H; lia.
Qed.

Lemma keywordOrIdent_not_EOF (value : string) : keywordOrIdent value <> EOF.
Proof.
  unfold keywordOrIdent, KEYWORDS. simpl.
  repeat (destruct (String.eqb value _); [discriminate|]). discriminate.
Qed.

Lemma tokenize_post_push (tokens : list token) (t : token) (f : string) (ln b b' : nat)
    (r : result (list token)) :
  Token.type t <> EOF ->
  (b' = 0 -> b = 0) ->
  tokenize_post (tokens ++ [t]) f ln b' r -> tokenize_post tokens f ln b r.
Proof.
  intros Ht Hb. destruct r as [tokens'|err|]; simpl; auto.
  intros (added & -> & Hall). exists (t :: added). split.
  - rewrite <- app_assoc. reflexivity.
  - constructor; assumption.
Qed.

Lemma tokenizeLoop_post (fuel : nat) (text : string) (pos : nat) (tokens : list token)
    (f : string) (ln : nat) :
  tokenize_post tokens f ln (fuel - (String.length text - pos))
    (tokenizeLoop fuel text pos tokens f ln).
Proof.
  revert pos tokens. induction fuel as [|fuel IH]; intros pos tokens; [reflexivity|].
  cbn [tokenizeLoop].
  destruct (String.get pos text) as [ch|] eqn:Hget.
  2:{ exists []. split; [symmetry; apply app_nil_r | constructor]. }
  pose proof (get_lt _ _ _ Hget) as Hlt.
  pose proof (sliceFrom_get _ _ _ Hget) as Hslice.
  destruct (JS.isSpace ch).
  { specialize (IH (pos + 1) tokens).
    destruct (tokenizeLoop fuel text (pos + 1) tokens f ln); simpl in *; auto. lia. }
  destruct (Ascii.eqb ch "034" || Ascii.eqb ch "039").
  { unfold readString. rewrite Hget.
    destruct (readStringLoop ch (JS.sliceFrom text (pos + 1)) (pos + 1) "")
      as [[value endPos]|] eqn:Hrd.
    - apply readStringLoop_advances in Hrd. cbn.
      eapply tokenize_post_push; cycle 2; [apply IH | discriminate | lia].
    - cbn. eexists. repeat split. }
  destruct (JS.isDigit ch) eqn:Hdigit.
  { unfold readNumber. rewrite Hslice. cbn [spanLength].
    unfold isNumberChar at 1. rewrite Hdigit. cbn [orb].
    eapply tokenize_post_push; cycle 2; [apply IH | discriminate | lia]. }
  destruct (JS.isIdentStart ch) eqn:Hident.
  { unfold readIdent. rewrite Hslice. cbn [spanLength].
    unfold isIdentChar at 1. rewrite Hident. cbn [orb].
    eapply tokenize_post_push; cycle 2; [apply IH | apply keywordOrIdent_not_EOF | lia]. }
  destruct (isTwoCharOp (JS.slice text pos (pos + 2))).
  { eapply tokenize_post_push; cycle 2; [apply IH | discriminate | lia]. }
  destruct (JS.includes "+-*/%><=(){}[],." ch).
  { eapply tokenize_post_push; cycle 2; [apply IH | discriminate | lia]. }
  cbn. eexists. repeat split.
Qed.

Lemma tokenizeStatement_post (text : string) (tokens : list token) (f : string) (ln : nat) :
  tokenize_post tokens f ln 1 (tokenizeStatement text tokens f ln).
Proof.
  unfold tokenizeStatement.
  pose proof (tokenizeLoop_post (S (String.length text)) text 0 tokens f ln) as H.
  destruct (tokenizeLoop (S (String.length text)) text 0 tokens f ln); simpl in *; auto.
  lia.
Qed.

Lemma lexLines_post (lines : list string) (lineNum : nat) (headerFound : bool)
    (tokens : list token) (f : string) :
  match lexLines lines lineNum headerFound tokens f with
  | Ok tokens' =>
      exists added, tokens' = tokens ++ added /\
                    Forall (fun t => Token.type t <> EOF) added
  | Throw err =>
      exists q, err = Qast q /\ file q = Some f /\
                (headerFound = true -> hint q = None)
  | OutOfFuel => False
  end.
Proof.
  revert lineNum headerFound tokens.
  induction lines as [|raw rest IH]; intros lineNum headerFound tokens; simpl.
  { exists []. split; [symmetry; apply app_nil_r | constructor]. }
  destruct (String.eqb (JS.trim raw) ""); [apply IH|].
  destruct (JS.startsWith (JS.trim raw) "#"); [apply IH|].
  destruct headerFound; simpl.
  - destruct (JS.startsWith (JS.trim raw) "q."); simpl.
    + pose proof (tokenizeStatement_post
                    (JS.sliceFrom raw match JS.indexOf raw "q." with
                                      | Some i => i + 2
                                      | None => 1
                                      end) tokens f lineNum) as Hst.
      destruct (tokenizeStatement _ tokens f lineNum) as [tokens1|err|]; simpl in *.
      * destruct Hst as (added1 & -> & Hall1).
        specialize (IH (S lineNum) true (tokens ++ added1)).
        destruct (lexLines rest (S lineNum) true (tokens ++ added1) f); auto.
        destruct IH as (added2 & -> & Hall2). exists (added1 ++ added2).
        split; [rewrite app_assoc; reflexivity | apply Forall_app; auto].
      * destruct Hst as (q & -> & Hf & _ & Hh). exists q. auto.
      * discriminate Hst.
    + eexists. repeat split.
  - destruct (JS.startsWith (JS.trim raw) "new qas"); simpl.
    + specialize (IH (S lineNum) true tokens).
      destruct (lexLines rest (S lineNum) true tokens f); auto.
      destruct IH as (q & -> & Hf & _). exists q. repeat split; auto. discriminate.
    + eexists. repeat split. discriminate.
Qed.

(** The tokenizer always comes to an end. *)
Lemma lex_total (src f : string) : lex src f <> OutOfFuel.
Proof.
  unfold lex. pose proof (lexLines_post (splitLines src) 1 false [] f) as H.
  destruct (lexLines (splitLines src) 1 false [] f); simpl; try discriminate.
  destruct H.
Qed.

(** C8.  When tokenization succeeds, the token sequence is a sequence of
    tokens none of which is [EOF], followed by one [EOF] token whose line
    is the number of lines of the source ([lines.length]) and whose column
    is 1. *)
Theorem lex_ends_with_single_EOF (src f : string) (tokens : list token) :
  lex src f = Ok tokens ->
  exists front,
    tokens = front ++ [Token.mk EOF JS.VNull (length (splitLines src)) 1 f] /\
    Forall (fun t => Token.type t <> EOF) front.
Proof.
  unfold lex. pose proof (lexLines_post (splitLines src) 1 false [] f) as H.
  destruct (lexLines (splitLines src) 1 false [] f) as [front|err|]; simpl;
    try discriminate.
  destruct H as (added & -> & Hall). intros [= <-]. exists added. auto.
Qed.

(** [lex_ends_with_single_EOF] on a source of four lines. *)
Lemma lex_ends_with_single_EOF_witness :
  exists tokens front,
    lex loop_then_print "f" = Ok tokens /\
    tokens = front ++ [Token.mk EOF JS.VNull 4 1 "f"] /\
    Forall (fun t => Token.type t <> EOF) front.
Proof.
  eexists _. 
  destruct (lex_ends_with_single_EOF loop_then_print "f" _ eq_refl) as (front & Heq & Hall).
  exists front. split; [reflexivity|]. split; [exact Heq | exact Hall].
Defined.

Lemma lexLines_header (lines : list string) (lineNum : nat) (tokens : list token)
    (f : string) (n : nat) :
  lexLines lines lineNum false tokens f = Throw (headerError f n) <->
  exists t, firstEffective lines lineNum = Some (n, t) /\
            JS.startsWith t "new qas" = false.
Proof.
  revert lineNum. induction lines as [|raw rest IH]; intros lineNum; simpl.
  { split; [discriminate | intros (t & Ht & _); discriminate]. }
  unfold isEffective.
  destruct (String.eqb (JS.trim raw) ""); simpl; [apply IH|].
  destruct (JS.startsWith (JS.trim raw) "#"); simpl; [apply IH|].
  destruct (JS.startsWith (JS.trim raw) "new qas") eqn:Hhdr; simpl.
  - split.
    + intros Hthrow.
      pose proof (lexLines_post rest (S lineNum) true tokens f) as Hpost.
      rewrite Hthrow in Hpost. destruct Hpost as (q & [= <-] & _ & Hhint).
      specialize (Hhint eq_refl). discriminate Hhint.
    + intros (t & [= <- <-] & Ht). congruence.
  - split.
    + intros [= <-]. eauto.
    + intros (t & [= <- <-] & _). reflexivity.
Qed.

(** What the header test of [lex] does: the header error is thrown, at
    column 1 of line [n] and with the hint, exactly when the first
    effective line is line [n] and does not start with [new qas]. *)
Lemma lex_header_error (src f : string) (n : nat) :
  lex src f = Throw (headerError f n) <->
  exists t, firstEffective (splitLines src) 1 = Some (n, t) /\
            JS.startsWith t "new qas" = false.
Proof.
  rewrite <- (lexLines_header (splitLines src) 1 [] f n). unfold lex.
  destruct (lexLines (splitLines src) 1 false [] f); simpl;
    split; (discriminate || auto).
Qed.

(** C1 fails on the code: the first effective line of this source is
    [new qasx], which is not [new qas], and tokenization succeeds, since
    the line starts with [new qas]. *)
Lemma lex_accepts_longer_header :
  firstEffective (splitLines (source ["new qasx"; "q.print 1"])) 1 = Some (1, "new qasx") /\
  lex (source ["new qasx"; "q.print 1"]) "f" =
    Ok [Token.mk PRINT (JS.VStr "print") 2 1 "f"; Token.mk NUMBER (JS.VNum 1) 2 7 "f";
        Token.mk EOF JS.VNull 2 1 "f"].
Proof. split; vm_compute; reflexivity. Qed.

(** ** Errors *)

(** C3 as stated fails: the error thrown for a missing header has no
    [kind]; reading it gives [undefined], and its [name] is that of every
    [QastError]. *)
Lemma header_error_has_no_kind :
  exists q,
    lex (source ["q.print 1"; ""]) "f" = Throw (Qast q) /\
    QastError_get q "kind" = JS.VUndefined /\
    ~ In (QastError_get q "kind") (map JS.VStr taxonomy) /\
    QastError_get q "name" = JS.VStr "QastError".
Proof.
  eexists. split; [vm_compute; reflexivity|].
  repeat split.
  simpl. intros H. repeat (destruct H as [H|H]; [discriminate H|]). exact H.
Qed.

(** C3, amended.  Every [QastError] carries [message], [file], [line],
    [column] and [hint] ([file] and [hint] possibly undefined), the name
    [QastError] and the flag [isQastError], and no [kind]: the classes of
    the taxonomy are not recorded in the error.  Every error the tokenizer
    throws is such an error, with the file identifier it was given. *)
Theorem structured_error_fields :
  (forall q : QastError,
     QastError_get q "kind" = JS.VUndefined /\
     QastError_get q "name" = JS.VStr "QastError" /\
     QastError_get q "isQastError" = JS.VBool true /\
     QastError_get q "message" = JS.VStr (message q) /\
     QastError_get q "line" = JS.VNum (JS.ofNat (line q)) /\
     QastError_get q "column" = JS.VNum (JS.ofNat (column q)) /\
     QastError_get q "file" =
       match file q with Some s => JS.VStr s | None => JS.VUndefined end /\
     QastError_get q "hint" =
       match hint q with Some s => JS.VStr s | None => JS.VUndefined end) /\
  (forall (src f : string) (err : error),
     lex src f = Throw err -> exists q, err = Qast q /\ file q = Some f).
Proof.
  split.
  - intros q. repeat split.
  - intros src f err. unfold lex.
    pose proof (lexLines_post (splitLines src) 1 false [] f) as H.
    destruct (lexLines (splitLines src) 1 false [] f) as [front|e|]; simpl;
      try discriminate.
    intros [= <-]. destruct H as (q & -> & Hf & _). eauto.
Qed.

(** [structured_error_fields] on the error of a line without prefix. *)
Lemma structured_error_fields_witness :
  exists q, Qast (mkQastError "Executable lines must start with 'q.'." (Some "f") 2 3 None)
            = Qast q /\ file q = Some "f".
Proof.
  exact (proj2 structured_error_fields (source ["new qas"; "  print 1"; ""]) "f" _ eq_refl).
Defined.

(** ** The parser *)

Section ParserProperties.
Variable tokens : list token.
Variable f : string.

Lemma match__inv (ty : tokenType) (v : option string) (pos : nat) (m : bool) (pos1 : nat) :
  match_ tokens ty v pos = Ok (m, pos1) ->
  exists tok, peek tokens pos = Some tok /\ token_is tok ty v = m /\
              pos1 = if m then S pos else pos.
Proof.
  unfold match_. destruct (peek tokens pos) as [tok|]; [|discriminate].
  destruct (token_is tok ty v) eqn:Hm; intros [= <- <-]; eauto.
Qed.

Lemma matchOp_inv (values : list string) (pos : nat) (m : bool) (pos1 : nat) :
  matchOp tokens values pos = Ok (m, pos1) ->
  if m then pos1 = S pos /\
            exists tok v, peek tokens pos = Some tok /\ In v values /\
                          token_is tok OP (Some v) = true
  else pos1 = pos.
Proof.
  revert pos1. induction values as [|v rest IH]; intros pos1; simpl.
  { intros [= <- <-]. reflexivity. }
  destruct (match_ tokens OP (Some v) pos) as [[m1 p1]|err|] eqn:Hm1; simpl;
    try discriminate.
  apply match__inv in Hm1 as (tok & Hpeek & Htok & ->).
  destruct m1.
  - intros [= <- <-]. split; [reflexivity|]. exists tok, v. auto.
  - intros H. apply IH in H. destruct m; [|exact H].
    destruct H as (-> & tok' & v' & ? & ? & ?). split; [reflexivity|].
    exists tok', v'. auto.
Qed.

Lemma consume_inv (ty : tokenType) (v : option string) (pos : nat) (tok : token)
    (pos1 : nat) :
  consume tokens f ty v pos = Ok (tok, pos1) ->
  peek tokens pos = Some tok /\ token_is tok ty v = true /\ pos1 = S pos.
Proof.
  unfold consume. destruct (peek tokens pos) as [t|]; [|discriminate].
  destruct (token_is t ty v) eqn:Hm; [|discriminate].
  intros [= <- <-]. auto.
Qed.

(** Steps of the proofs below: name the result of the next call, and
    read off what a successful [consume], [match] or operator match tells. *)
Ltac next_call :=
  match goal with
  | |- context [mbind _ ?r] =>
      let H := fresh "Hcall" in
      destruct r as [[? ?]|?|] eqn:H; cbn [mbind result_bind]; try discriminate
  end.

Ltac next_value :=
  match goal with
  | |- context [mbind _ ?r] =>
      let H := fresh "Hval" in
      destruct r as [?|?|] eqn:H; cbn [mbind result_bind]; try discriminate
  end.

Ltac read_calls :=
  repeat match goal with
    | H : consume _ _ _ _ _ = Ok _ |- _ => apply consume_inv in H as (? & ? & ->)
    | H : match_ _ _ _ _ = Ok _ |- _ => apply match__inv in H as (? & ? & ? & ->)
    end.

Lemma binaryLoop_spans (values : list string) (operand : nat -> result (expr * nat))
    (fuel : nat) :
  spans_ok tokens operand ->
  forall e pos0 pos e' pos',
    expr_spans tokens e pos0 pos ->
    binaryLoop tokens values operand fuel e pos = Ok (e', pos') ->
    expr_spans tokens e' pos0 pos'.
Proof.
  intros Hop. induction fuel as [|fuel IH]; intros e pos0 pos e' pos' He;
    cbn [binaryLoop]; [discriminate|].
  destruct (matchOp tokens values pos) as [[m pos1]|?|] eqn:Hm;
    cbn [mbind result_bind]; try discriminate.
  apply matchOp_inv in Hm. destruct m.
  - destruct Hm as (-> & _). next_value. next_call.
    apply IH. simpl. exists pos. repeat split; auto.
  - subst pos1. intros [= <- <-]. exact He.
Qed.

Lemma binaryLevel_spans (values : list string) (operand : nat -> result (expr * nat))
    (fuel : nat) :
  spans_ok tokens operand -> spans_ok tokens (binaryLevel tokens values operand fuel).
Proof.
  intros Hop pos e pos'. unfold binaryLevel. next_call.
  apply binaryLoop_spans; auto.
Qed.

Lemma parseEqualityOver_spans (unary : nat -> result (expr * nat)) (fuel : nat) :
  spans_ok tokens unary -> spans_ok tokens (parseEqualityOver tokens unary fuel).
Proof.
  intros Hu. unfold parseEqualityOver, parseComparisonOver, parseTermOver, parseFactorOver.
  repeat apply binaryLevel_spans. exact Hu.
Qed.

Lemma parsePrimary_spans (parseExpr : nat -> result (expr * nat)) :
  spans_ok tokens parseExpr -> spans_ok tokens (parsePrimary tokens f parseExpr).
Proof.
  intros Hpe pos e pos'. unfold parsePrimary.
  destruct (peek tokens pos) as [tok|] eqn:Hpeek; [|discriminate].
  destruct (match_ tokens NUMBER None pos) as [[number pos1]|?|] eqn:H1;
    cbn [mbind result_bind]; try discriminate.
  apply match__inv in H1 as (? & _ & _ & ->).
  destruct number; [intros [= <- <-]; simpl; eauto|].
  destruct (match_ tokens STRING None pos) as [[string pos2]|?|] eqn:H2;
    cbn [mbind result_bind]; try discriminate.
  apply match__inv in H2 as (? & _ & _ & ->).
  destruct string; [intros [= <- <-]; simpl; eauto|].
  destruct (match_ tokens IDENT None pos) as [[ident pos3]|?|] eqn:H3;
    cbn [mbind result_bind]; try discriminate.
  apply match__inv in H3 as (? & _ & _ & ->).
  destruct ident; [intros [= <- <-]; simpl; eauto|].
  destruct (match_ tokens OP (Some "(") pos) as [[paren pos4]|?|] eqn:H4;
    cbn [mbind result_bind]; try discriminate.
  apply match__inv in H4 as (? & _ & _ & ->).
  destruct paren; [|discriminate].
  next_call. next_call. read_calls. intros [= <- <-]. simpl.
  exists tok. eexists. repeat split; eauto.
Qed.

Lemma parseUnary_spans (fuel : nat) : spans_ok tokens (parseUnary tokens f fuel).
Proof.
  induction fuel as [|fuel IH]; intros pos e pos'; cbn [parseUnary]; [discriminate|].
  destruct (matchOp tokens ["!"; "-"] pos) as [[m pos1]|?|] eqn:Hm;
    cbn [mbind result_bind]; try discriminate.
  apply matchOp_inv in Hm. destruct m.
  - destruct Hm as (-> & _). next_value. next_call.
    destruct (tokens !! (n - 1)) as [t|]; [|discriminate].
    intros [= <- <-]. simpl. split; [reflexivity|]. apply IH. assumption.
  - subst pos1. apply parsePrimary_spans, parseEqualityOver_spans, IH.
Qed.

Lemma parseExpression_spans (fuel : nat) : spans_ok tokens (parseExpression tokens f fuel).
Proof.
  unfold parseExpression, parseEquality. apply parseEqualityOver_spans, parseUnary_spans.
Qed.

Lemma parseParams_inv (fuel : nat) (params : list JS.value) (pos : nat)
    (params' : list JS.value) (pos' : nat) :
  parseParams tokens fuel params pos = Ok (params', pos') ->
  exists added, params' = params ++ added /\ pos' = pos + length added.
Proof.
  revert params pos. induction fuel as [|fuel IH]; intros params pos;
    cbn [parseParams]; [discriminate|].
  destruct (match_ tokens IDENT None pos) as [[m pos1]|?|] eqn:Hm;
    cbn [mbind result_bind]; try discriminate.
  read_calls. destruct m.
  - destruct (previousValue tokens (S pos)) as [v|?|];
      cbn [mbind result_bind]; try discriminate.
    intros Hrec. apply IH in Hrec as (added & -> & ->).
    exists (v :: added). rewrite <- app_assoc. simpl. split; [reflexivity | lia].
  - intros [= <- <-]. exists []. rewrite app_nil_r. split; [reflexivity | simpl; lia].
Qed.

Lemma parseStatement_spans (fuel : nat) (pos : nat) (s : statement) (pos' : nat) :
  parseStatement tokens f fuel pos = Ok (s, pos') -> statement_spans tokens s pos pos'.
Proof.
  pose proof (parseExpression_spans fuel) as Hexpr.
  unfold parseStatement.
  destruct (peek tokens pos) as [tok|] eqn:Hpeek; [|discriminate].
  assert (Hdefault : forall r,
            r = parseExpression tokens f fuel pos ->
            ('(e, pos1) ← r; Ok (ExprStatement e (locFrom (OfNode (expr_loc e)) None), pos1))
              = Ok (s, pos') ->
            statement_spans tokens s pos pos').
  { intros r ->. next_call. intros [= <- <-]. simpl. split; [reflexivity|].
    apply Hexpr. assumption. }
  destruct (Token.type tok); try (apply Hdefault; reflexivity); clear Hdefault.
  - unfold parsePrint. next_call. next_call. read_calls. intros [= <- <-]. simpl.
    eexists. repeat split; eauto.
  - unfold parseSet. do 4 next_call. read_calls. intros [= <- <-]. simpl.
    eexists. repeat split; eauto.
    replace (pos + 3) with (S (S (S pos))) by lia. apply Hexpr. assumption.
  - unfold parseInput. do 3 next_call. read_calls.
    match goal with b : bool |- _ => destruct b end.
    + next_value. intros [= <- <-]. simpl. eexists. repeat split; eauto. right. lia.
    + simpl. intros [= <- <-]. simpl. eexists. repeat split; eauto. left. lia.
  - unfold parseIf. do 3 next_call. read_calls. intros [= <- <-]. simpl.
    eexists _, _, _. repeat split; eauto.
  - unfold parseLoop. do 3 next_call. read_calls. intros [= <- <-]. simpl.
    eexists _, _. repeat split; eauto.
  - unfold parseWhile. do 3 next_call. read_calls. intros [= <- <-]. simpl.
    eexists _, _. repeat split; eauto.
  - unfold parseFn. do 4 next_call. read_calls.
    match goal with H : parseParams _ _ _ _ = Ok _ |- _ =>
      apply parseParams_inv in H as (added & -> & ->) end.
    intros [= <- <-]. simpl. eexists. repeat split; eauto. lia.
  - unfold parseReturn. next_call. read_calls.
    destruct (peek tokens (S pos)) as [tok1|]; [|discriminate].
    destruct (bool_decide (Token.type tok1 = EOF)).
    + intros [= <- <-]. simpl. eexists. repeat split; eauto.
    + next_call. intros [= <- <-]. simpl. eexists. repeat split; eauto.
Qed.

Lemma parseBody_spans (fuel : nat) (stmts : list statement) (pos : nat)
    (stmts' : list statement) :
  parseBody tokens f fuel stmts pos = Ok stmts' ->
  exists rest, stmts' = stmts ++ rest /\ body_spans tokens rest pos.
Proof.
  revert stmts pos. induction fuel as [|fuel IH]; intros stmts pos;
    cbn [parseBody]; [discriminate|].
  destruct (peek tokens pos) as [tok|]; [|discriminate].
  destruct (bool_decide (Token.type tok = EOF)).
  - intros [= <-]. exists []. rewrite app_nil_r. split; [reflexivity | exact I].
  - destruct (parseStatement tokens f fuel pos) as [[s pos1]|?|] eqn:Hs;
      cbn [mbind result_bind]; try discriminate.
    intros Hrec. apply IH in Hrec as (rest & -> & Hrest).
    exists (s :: rest). rewrite <- app_assoc. split; [reflexivity|].
    simpl. exists pos1. split; [|exact Hrest]. apply parseStatement_spans with fuel.
    exact Hs.
Qed.

End ParserProperties.

(** C4 as stated fails: the [loc] of the [UnaryExpression] of [- 5]
    starts at the operand (column 9), not at the operator (column 7), and
    the [loc] of [input x "p"] ends at the keyword (column 1), before the
    prompt (column 9). *)
Lemma loc_misses_operator_and_prompt :
  (exists toks op argument l l',
     lex (source ["new qas"; "q.print - 5"]) "f" = Ok toks /\
     toks !! 1 = Some op /\ Token.value op = JS.VStr "-" /\
     parse 8 toks "f" =
       Ok (mkProgram [PrintStatement (UnaryExpression (JS.VStr "-") argument l) l']) /\
     token_position op = mkPos 2 7 /\ Loc.start l = mkPos 2 9) /\
  (exists toks prompt l,
     lex (source ["new qas"; "q.input x 'p'"]) "f" = Ok toks /\
     toks !! 2 = Some prompt /\ Token.value prompt = JS.VStr "p" /\
     parse 8 toks "f" = Ok (mkProgram [InputStatement (JS.VStr "x") (JS.VStr "p") l]) /\
     token_position prompt = mkPos 2 9 /\ Loc.end_ l = mkPos 2 1).
Proof.
  split.
  - eexists _, _, _, _, _. split; [vm_compute; reflexivity|].
    split; [reflexivity|]. split; [reflexivity|].
    split; [vm_compute; reflexivity|]. split; reflexivity.
  - eexists _, _, _. split; [vm_compute; reflexivity|].
    split; [reflexivity|]. split; [reflexivity|].
    split; [vm_compute; reflexivity|]. split; reflexivity.
Qed.

Lemma expr_spans_start (tokens : list token) (e : expr) (pos pos' : nat) :
  expr_spans tokens e pos pos' ->
  leftmostUnary e = false ->
  exists tok, peek tokens pos = Some tok /\ Loc.start (expr_loc e) = token_position tok.
Proof.
  revert pos pos'. induction e; intros pos pos'; simpl; try discriminate.
  - intros (tok & Hpeek & -> & _) _. eauto.
  - intros (tok & Hpeek & -> & _) _. eauto.
  - intros (tok & Hpeek & -> & _) _. eauto.
  - intros (mid & Hs & _ & Hl & _) Hleft.
    destruct (IHe1 _ _ Hl Hleft) as (tok & Hpeek & Hstart).
    exists tok. split; [exact Hpeek | congruence].
  - intros (tok & mid & Hpeek & Hs & _) _. eauto.
Qed.

(** C4, amended.  The statements of a successful parse are read one after
    the other from the first token on, and the [loc] of every node is as
    [body_spans] says: a keyword statement starts at its keyword, a
    literal, an identifier and a [Grouping] at their first token, a
    [BinaryExpression] and an [ExprStatement] where their first operand
    starts; a node ends where its last sub-expression ends ([print],
    [set], [if], [loop], [while], [return] with an argument, unary, binary
    and grouping nodes), and where it starts when it has none or records
    none (literals, identifiers, [input], [fn], [return] alone,
    [ExprStatement]); tokens have no end position.  Hence every expression
    whose leftmost leaf is not under a unary operator starts at the first
    token it was read from. *)
Theorem parse_locations (fuel : nat) (tokens : list token) (f : string) (prog : Program) :
  parse fuel tokens f = Ok prog ->
  body_spans tokens (body prog) 0 /\
  forall e pos pos',
    expr_spans tokens e pos pos' -> leftmostUnary e = false ->
    exists tok, peek tokens pos = Some tok /\
                Loc.start (expr_loc e) = token_position tok.
Proof.
  unfold parse. intros H. split; [|apply expr_spans_start].
  destruct (parseBody tokens f fuel [] 0) as [stmts|?|] eqn:Hbody; simpl in H;
    try discriminate.
  injection H as <-. apply parseBody_spans in Hbody as (rest & -> & Hrest).
  exact Hrest.
Qed.

(** [parse_locations] on a program of three statements. *)
Lemma parse_locations_witness :
  exists toks prog,
    lex (source ["new qas"; "q.set x = (2 + 3) * 4"; "q.input y 'p'"; "q.print x"]) "f"
      = Ok toks /\
    parse 8 toks "f" = Ok prog /\
    body_spans toks (body prog) 0.
Proof.
  eexists _, _. split; [vm_compute; reflexivity|].
  split; [vm_compute; reflexivity|].
  eapply (proj1 (parse_locations 8 _ "f" _ _)).
  Unshelve. vm_compute. reflexivity.
Defined.

(** ** A token that no production consumes *)

Section Unconsumed.
Variable tokens : list token.
Variable f : string.
Variable k : nat.
Variable bad : token.
Hypothesis Hbad : tokens !! k = Some bad.
Hypothesis Hop : Token.type bad = OP.
Hypothesis Hvalue : Token.value bad = JS.VStr "&&" \/ Token.value bad = JS.VStr "||".
Hypothesis Hbefore : forall i t, i < k -> tokens !! i = Some t -> Token.type t <> EOF.

Lemma in_range (pos : nat) : pos <= k -> exists tok, tokens !! pos = Some tok.
Proof.
  intros Hle. apply lookup_lt_is_Some. apply lookup_lt_Some in Hbad. lia.
Qed.

Lemma peek_in_range (pos : nat) :
  pos <= k -> exists tok, tokens !! pos = Some tok /\ peek tokens pos = Some tok.
Proof.
  intros Hle. destruct (in_range pos Hle) as [tok Htok].
  exists tok. unfold peek. rewrite Htok. auto.
Qed.

Lemma bad_not_asked (ty : tokenType) (v : option string) :
  asked ty v -> token_is bad ty v = false.
Proof.
  unfold token_is. intros [Hty | (s & -> & Hs1 & Hs2)].
  - rewrite bool_decide_eq_false_2; [reflexivity | congruence].
  - apply andb_false_intro2.
    destruct Hvalue as [-> | ->]; cbn [JS.strictEquals];
      apply String.eqb_neq; congruence.
Qed.

Lemma not_at_bad (pos : nat) (tok : token) (ty : tokenType) (v : option string) :
  pos <= k -> tokens !! pos = Some tok -> asked ty v ->
  token_is tok ty v = true -> S pos <= k.
Proof.
  intros Hle Htok Hasked Hm. destruct (decide (pos = k)) as [->|]; [|lia].
  rewrite Hbad in Htok. injection Htok as <-.
  rewrite (bad_not_asked ty v Hasked) in Hm. discriminate.
Qed.

Lemma match__held (ty : tokenType) (v : option string) (pos : nat) :
  pos <= k -> asked ty v ->
  exists m pos1, match_ tokens ty v pos = Ok (m, pos1) /\
                 pos1 = (if m then S pos else pos) /\ pos1 <= k.
Proof.
  intros Hle Hasked. destruct (peek_in_range pos Hle) as (tok & Htok & Hpeek).
  unfold match_. rewrite Hpeek. destruct (token_is tok ty v) eqn:Hm.
  - exists true, (S pos). repeat split. eapply not_at_bad; eauto.
  - exists false, pos. auto.
Qed.

Lemma matchOp_held (values : list string) (pos : nat) :
  pos <= k -> Forall (fun s => s <> "&&" /\ s <> "||") values ->
  exists m pos1, matchOp tokens values pos = Ok (m, pos1) /\
                 pos1 = (if m then S pos else pos) /\ pos1 <= k.
Proof.
  intros Hle Hvalues. induction Hvalues as [|v rest [Hv1 Hv2] _ IH]; simpl.
  { exists false, pos. auto. }
  destruct (match__held OP (Some v) pos Hle) as (m & pos1 & -> & -> & Hle1).
  { right. eauto. }
  cbn [mbind result_bind]. destruct m.
  - exists true, (S pos). auto.
  - exact IH.
Qed.

Lemma consume_held (ty : tokenType) (v : option string) (pos : nat) :
  pos <= k -> asked ty v ->
  match consume tokens f ty v pos with
  | Ok (_, pos1) => pos1 = S pos /\ pos1 <= k
  | Throw (Qast _) => True
  | _ => False
  end.
Proof.
  intros Hle Hasked. destruct (peek_in_range pos Hle) as (tok & Htok & Hpeek).
  unfold consume. rewrite Hpeek. destruct (token_is tok ty v) eqn:Hm.
  - split; [reflexivity|]. eapply not_at_bad; eauto.
  - exact I.
Qed.

Lemma previousValue_held (pos : nat) :
  pos - 1 <= k -> exists v, previousValue tokens pos = Ok v.
Proof.
  intros Hle. destruct (in_range _ Hle) as [tok Htok].
  unfold previousValue. rewrite Htok. eauto.
Qed.

Lemma binaryLoop_held (values : list string) (operand : nat -> result (expr * nat))
    (fuel : nat) :
  Forall (fun s => s <> "&&" /\ s <> "||") values ->
  holds k fuel operand ->
  forall n e pos, pos <= k ->
    match binaryLoop tokens values operand n e pos with
    | Ok (_, pos') => pos <= pos' /\ pos' <= k
    | Throw (Qast _) => True
    | Throw (HostError _ _) => False
    | OutOfFuel => n <= k - pos \/ fuel <= k - pos
    end.
Proof.
  intros Hvalues Hoperand. induction n as [|n IH]; intros e pos Hle;
    cbn [binaryLoop]; [left; lia|].
  destruct (matchOp_held values pos Hle Hvalues) as (m & pos1 & -> & -> & Hle1).
  cbn [mbind result_bind]. destruct m; [|split; [lia | exact Hle1]].
  destruct (previousValue_held (S pos)) as [op ->]; [lia|].
  cbn [mbind result_bind].
  pose proof (Hoperand (S pos) Hle1) as Hrhs.
  destruct (operand (S pos)) as [[rhs pos2]|err|]; cbn [mbind result_bind].
  - destruct Hrhs as [Hlt Hle2].
    specialize (IH (BinaryExpression op e rhs
                      (locFrom (OfNode (expr_loc e)) (Some (OfNode (expr_loc rhs)))))
                   pos2 Hle2).
    destruct (binaryLoop tokens values operand n _ pos2) as [[? pos3]|err|].
    + lia.
    + exact IH.
    + lia.
  - exact Hrhs.
  - simpl in Hrhs. right. lia.
Qed.

Lemma binaryLevel_held (values : list string) (operand : nat -> result (expr * nat))
    (fuel : nat) :
  Forall (fun s => s <> "&&" /\ s <> "||") values ->
  holds k fuel operand -> holds k fuel (binaryLevel tokens values operand fuel).
Proof.
  intros Hvalues Hoperand pos Hle. unfold binaryLevel.
  pose proof (Hoperand pos Hle) as Hfirst.
  destruct (operand pos) as [[e pos1]|err|]; cbn [mbind result_bind];
    [|exact Hfirst|exact Hfirst].
  destruct Hfirst as [Hlt Hle1].
  pose proof (binaryLoop_held values operand fuel Hvalues Hoperand fuel e pos1 Hle1) as H.
  unfold held. destruct (binaryLoop tokens values operand fuel e pos1) as [[? pos2]|err|].
  - lia.
  - exact H.
  - lia.
Qed.

Ltac operators_ok :=
  repeat (constructor; [split; discriminate|]); constructor.

Lemma parseEqualityOver_held (unary : nat -> result (expr * nat)) (fuel : nat) :
  holds k fuel unary -> holds k fuel (parseEqualityOver tokens unary fuel).
Proof.
  intros Hunary.
  unfold parseEqualityOver, parseComparisonOver, parseTermOver, parseFactorOver.
  repeat (apply binaryLevel_held; [operators_ok|]). exact Hunary.
Qed.

Lemma parsePrimary_held (parseExpr : nat -> result (expr * nat)) (fuel : nat) :
  holds k fuel parseExpr ->
  forall pos, pos <= k ->
    match parsePrimary tokens f parseExpr pos with
    | Ok (_, pos') => pos < pos' /\ pos' <= k
    | Throw (Qast _) => True
    | Throw (HostError _ _) => False
    | OutOfFuel => S fuel <= k - pos
    end.
Proof.
  intros Hexpr pos Hle. destruct (peek_in_range pos Hle) as (tok & Htok & Hpeek).
  unfold parsePrimary. rewrite Hpeek.
  destruct (match__held NUMBER None pos Hle) as (m1 & pos1 & -> & -> & Hle1);
    [left; discriminate|].
  cbn [mbind result_bind]. destruct m1; [lia|].
  destruct (match__held STRING None pos Hle) as (m2 & pos2 & -> & -> & Hle2);
    [left; discriminate|].
  cbn [mbind result_bind]. destruct m2; [lia|].
  destruct (match__held IDENT None pos Hle) as (m3 & pos3 & -> & -> & Hle3);
    [left; discriminate|].
  cbn [mbind result_bind]. destruct m3; [lia|].
  destruct (match__held OP (Some "(") pos Hle) as (m4 & pos4 & -> & -> & Hle4).
  { right. eexists. repeat split; discriminate. }
  cbn [mbind result_bind]. destruct m4; [|exact I].
  pose proof (Hexpr (S pos) Hle4) as Hinner.
  destruct (parseExpr (S pos)) as [[e pos5]|err|]; cbn [mbind result_bind].
  - destruct Hinner as [Hlt Hle5].
    assert (Hclose := consume_held OP (Some ")") pos5 Hle5).
    destruct (consume tokens f OP (Some ")") pos5) as [[? pos6]|err|];
      cbn [mbind result_bind].
    + destruct Hclose as [-> Hle6]; [|lia]. right. eexists. repeat split; discriminate.
    + apply Hclose. right. eexists. repeat split; discriminate.
    + exfalso. apply Hclose. right. eexists. repeat split; discriminate.
  - exact Hinner.
  - simpl in Hinner. lia.
Qed.

Lemma parseUnary_held (fuel : nat) : holds k fuel (parseUnary tokens f fuel).
Proof.
  induction fuel as [|fuel IH]; intros pos Hle; cbn [parseUnary]; [simpl; lia|].
  destruct (matchOp_held ["!"; "-"] pos Hle) as (m & pos1 & -> & -> & Hle1);
    [operators_ok|].
  cbn [mbind result_bind]. destruct m.
  - destruct (previousValue_held (S pos)) as [op ->]; [lia|].
    cbn [mbind result_bind].
    pose proof (IH (S pos) Hle1) as Hrhs.
    destruct (parseUnary tokens f fuel (S pos)) as [[rhs pos2]|err|];
      cbn [mbind result_bind].
    + destruct Hrhs as [Hlt Hle2].
      destruct (in_range (pos2 - 1)) as [t ->]; [lia|]. simpl. lia.
    + exact Hrhs.
    + simpl in Hrhs |- *. lia.
  - pose proof (parsePrimary_held _ fuel (parseEqualityOver_held _ fuel IH) pos Hle) as H.
    unfold held.
    destruct (parsePrimary tokens f (parseEqualityOver tokens (parseUnary tokens f fuel) fuel) pos)
      as [[? ?]|err|]; [exact H | exact H | lia].
Qed.

Lemma parseExpression_held (fuel : nat) : holds k fuel (parseExpression tokens f fuel).
Proof.
  unfold parseExpression, parseEquality. apply parseEqualityOver_held, parseUnary_held.
Qed.

Lemma parseParams_held (n : nat) (params : list JS.value) (pos : nat) :
  pos <= k ->
  match parseParams tokens n params pos with
  | Ok (_, pos') => pos <= pos' /\ pos' <= k
  | Throw (Qast _) => True
  | Throw (HostError _ _) => False
  | OutOfFuel => n <= k - pos
  end.
Proof.
  revert params pos. induction n as [|n IH]; intros params pos Hle;
    cbn [parseParams]; [lia|].
  destruct (match__held IDENT None pos Hle) as (m & pos1 & -> & -> & Hle1);
    [left; discriminate|].
  cbn [mbind result_bind]. destruct m; [|lia].
  destruct (previousValue_held (S pos)) as [v ->]; [lia|].
  cbn [mbind result_bind].
  specialize (IH (params ++ [v]) (S pos) Hle1).
  destruct (parseParams tokens n (params ++ [v]) (S pos)) as [[? pos2]|err|];
    [lia | exact IH | lia].
Qed.

Lemma not_EOF_upto (pos : nat) (tok : token) :
  pos <= k -> tokens !! pos = Some tok -> Token.type tok <> EOF.
Proof.
  intros Hle Htok. destruct (decide (pos = k)) as [->|Hne].
  - rewrite Hbad in Htok. injection Htok as <-. rewrite Hop. discriminate.
  - apply (Hbefore pos); [lia | exact Htok].
Qed.

Lemma held_weaken {A : Type} (fuel lo lo' : nat) (r : result (A * nat)) :
  lo <= lo' -> held k fuel lo' r -> held k fuel lo r.
Proof.
  intros Hle. destruct r as [[a pos']|[q|n m]|]; simpl; auto; lia.
Qed.

(** A [consume] that nothing stops at [bad], followed by [rest]. *)
Lemma held_consume {A : Type} (fuel lo pos : nat) (ty : tokenType) (v : option string)
    (rest : token * nat -> result (A * nat)) :
  pos <= k -> asked ty v ->
  (forall tok, S pos <= k -> held k fuel lo (rest (tok, S pos))) ->
  held k fuel lo (consume tokens f ty v pos ≫= rest).
Proof.
  intros Hle Hasked Hrest. pose proof (consume_held ty v pos Hle Hasked) as H.
  destruct (consume tokens f ty v pos) as [[tok pos1]|[q|n m]|];
    cbn [mbind result_bind].
  - destruct H as [-> H]. apply Hrest. exact H.
  - exact I.
  - destruct H.
  - destruct H.
Qed.

(** An expression read from [pos], followed by [rest]. *)
Lemma held_expression {A : Type} (fuel lo pos : nat)
    (rest : expr * nat -> result (A * nat)) :
  lo <= pos -> pos <= k ->
  (forall e pos', pos < pos' -> pos' <= k -> held k fuel lo (rest (e, pos'))) ->
  held k fuel lo (parseExpression tokens f fuel pos ≫= rest).
Proof.
  intros Hlo Hle Hrest. pose proof (parseExpression_held fuel pos Hle) as H.
  destruct (parseExpression tokens f fuel pos) as [[e pos']|[q|n m]|];
    cbn [mbind result_bind]; simpl in H.
  - apply Hrest; lia.
  - exact I.
  - destruct H.
  - simpl. lia.
Qed.

Ltac asked_keyword := left; discriminate.
Ltac asked_operator := right; eexists; repeat split; discriminate.

Lemma parseStatement_held (fuel pos : nat) :
  pos <= k -> held k fuel pos (parseStatement tokens f fuel pos).
Proof.
  intros Hle. destruct (peek_in_range pos Hle) as (tok & Htok & Hpeek).
  unfold parseStatement. rewrite Hpeek.
  assert (Hdefault :
            held k fuel pos
              ('(e, pos1) ← parseExpression tokens f fuel pos;
               Ok (ExprStatement e (locFrom (OfNode (expr_loc e)) None), pos1))).
  { apply held_expression; [lia | exact Hle |]. intros e pos' ? ?. simpl. lia. }
  destruct (Token.type tok); try exact Hdefault; clear Hdefault.
  - unfold parsePrint. apply held_consume; [exact Hle | asked_keyword |].
    intros start H1. cbn beta iota.
    apply held_expression; [lia | exact H1 |]. intros e pos' ? ?. simpl. lia.
  - unfold parseSet. apply held_consume; [exact Hle | asked_keyword |].
    intros start H1. cbn beta iota.
    apply held_consume; [exact H1 | asked_keyword |]. intros id H2. cbn beta iota.
    apply held_consume; [exact H2 | asked_operator |]. intros eq H3. cbn beta iota.
    apply held_expression; [lia | exact H3 |]. intros e pos' ? ?. simpl. lia.
  - unfold parseInput. apply held_consume; [exact Hle | asked_keyword |].
    intros start H1. cbn beta iota.
    apply held_consume; [exact H1 | asked_keyword |]. intros id H2. cbn beta iota.
    destruct (match__held STRING None (S (S pos)) H2) as (m & pos3 & -> & -> & H3);
      [asked_keyword|].
    cbn [mbind result_bind]. destruct m.
    + destruct (previousValue_held (S (S (S pos)))) as [v ->]; [lia|]. simpl. lia.
    + simpl. lia.
  - unfold parseIf. apply held_consume; [exact Hle | asked_keyword |].
    intros start H1. cbn beta iota.
    apply held_expression; [lia | exact H1 |]. intros e pos' ? ?. cbn beta iota.
    apply held_consume; [assumption | asked_keyword |]. intros ? ?. simpl. lia.
  - unfold parseLoop. apply held_consume; [exact Hle | asked_keyword |].
    intros start H1. cbn beta iota.
    apply held_expression; [lia | exact H1 |]. intros e pos' ? ?. cbn beta iota.
    apply held_consume; [assumption | asked_keyword |]. intros ? ?. simpl. lia.
  - unfold parseWhile. apply held_consume; [exact Hle | asked_keyword |].
    intros start H1. cbn beta iota.
    apply held_expression; [lia | exact H1 |]. intros e pos' ? ?. cbn beta iota.
    apply held_consume; [assumption | asked_keyword |]. intros ? ?. simpl. lia.
  - unfold parseFn. apply held_consume; [exact Hle | asked_keyword |].
    intros start H1. cbn beta iota.
    apply held_consume; [exact H1 | asked_keyword |]. intros id H2. cbn beta iota.
    pose proof (parseParams_held fuel [] (S (S pos)) H2) as Hparams.
    destruct (parseParams tokens fuel [] (S (S pos))) as [[params pos3]|[q|n m]|];
      cbn [mbind result_bind].
    + destruct Hparams as [? ?].
      apply held_consume; [assumption | asked_keyword |]. intros ? ?. simpl. lia.
    + exact I.
    + destruct Hparams.
    + simpl. lia.
  - unfold parseReturn. apply held_consume; [exact Hle | asked_keyword |].
    intros start H1. cbn beta iota.
    destruct (peek_in_range (S pos) H1) as (tok1 & Htok1 & ->).
    rewrite bool_decide_eq_false_2; [|eapply not_EOF_upto; eauto].
    apply held_expression; [lia | exact H1 |]. intros e pos' ? ?. simpl. lia.
Qed.

Lemma parseBody_held (fuel : nat) (stmts : list statement) (pos : nat) :
  pos <= k ->
  match parseBody tokens f fuel stmts pos with
  | Ok _ => False
  | Throw (Qast _) => True
  | Throw (HostError _ _) => False
  | OutOfFuel => fuel <= S (k - pos)
  end.
Proof.
  revert stmts pos. induction fuel as [|fuel IH]; intros stmts pos Hle;
    cbn [parseBody]; [lia|].
  destruct (peek_in_range pos Hle) as (tok & Htok & ->).
  rewrite bool_decide_eq_false_2; [|eapply not_EOF_upto; eauto].
  pose proof (parseStatement_held fuel pos Hle) as Hs.
  destruct (parseStatement tokens f fuel pos) as [[s pos1]|[q|n m]|];
    cbn [mbind result_bind]; simpl in Hs.
  - destruct Hs as [Hlt Hle1]. specialize (IH (stmts ++ [s]) pos1 Hle1).
    destruct (parseBody tokens f fuel (stmts ++ [s]) pos1) as [?|[q|n m]|]; auto. lia.
  - exact I.
  - destruct Hs.
  - lia.
Qed.

Lemma parse_held (fuel : nat) :
  match parse fuel tokens f with
  | Ok _ => False
  | Throw (Qast _) => True
  | Throw (HostError _ _) => False
  | OutOfFuel => fuel <= S k
  end.
Proof.
  unfold parse. pose proof (parseBody_held fuel [] 0 (Nat.le_0_l k)) as H.
  destruct (parseBody tokens f fuel [] 0) as [?|[q|n m]|]; cbn [mbind result_bind];
    auto. lia.
Qed.

End Unconsumed.

(** C10.  The tokenizer makes [OP] tokens of [&&] and [||], and no
    production of the parser takes one.  So, for a token array that holds
    such a token with no [EOF] token before it (as in every array the
    tokenizer makes, where [EOF] is last), [parse] never returns a
    program, and with fuel above the index of the token it throws a
    [QastError]. *)
Theorem parse_rejects_logical_operators (tokens : list token) (f : string) (k : nat)
    (bad : token) :
  tokens !! k = Some bad ->
  Token.type bad = OP ->
  Token.value bad = JS.VStr "&&" \/ Token.value bad = JS.VStr "||" ->
  (forall i t, i < k -> tokens !! i = Some t -> Token.type t <> EOF) ->
  forall fuel,
    (forall prog, parse fuel tokens f <> Ok prog) /\
    (S k < fuel -> exists q, parse fuel tokens f = Throw (Qast q)).
Proof.
  intros Hbad Hop Hvalue Hbefore fuel.
  pose proof (parse_held tokens f k bad Hbad Hop Hvalue Hbefore fuel) as H.
  destruct (parse fuel tokens f) as [prog|[q|n m]|].
  - destruct H.
  - split; [discriminate | eauto].
  - destruct H.
  - split; [discriminate | lia].
Qed.

(** [parse_rejects_logical_operators] on [q.print 1 && 2], whose third
    token is the operator. *)
Lemma parse_rejects_logical_operators_witness :
  exists toks,
    lex (source ["new qas"; "q.print 1 && 2"]) "f" = Ok toks /\
    toks !! 2 = Some (Token.mk OP (JS.VStr "&&") 2 9 "f") /\
    (forall prog, parse 8 toks "f" <> Ok prog) /\
    exists q, parse 8 toks "f" = Throw (Qast q).
Proof.
  eexists. split; [vm_compute; reflexivity|]. split; [reflexivity|].
  match goal with |- (forall prog, parse _ ?toks _ <> _) /\ _ =>
    assert (Hbefore : forall i t, i < 2 -> toks !! i = Some t -> Token.type t <> EOF);
    [ intros [|[|i]] t Hi Ht; [injection Ht as <-; discriminate.. | lia]
    | destruct (parse_rejects_logical_operators toks "f" 2
                  (Token.mk OP (JS.VStr "&&") 2 9 "f") eq_refl eq_refl
                  (or_introl eq_refl) Hbefore 8) as [Hnever Hthrows] ]
  end.
  split; [exact Hnever | apply Hthrows; lia].
Defined.

(** * Further properties *)

(** ** The tokens and the errors of the tokenizer *)

Lemma keywordOrIdent_word (value : string) :
  keywordOrIdent value <> NUMBER /\ keywordOrIdent value <> STRING /\
  keywordOrIdent value <> OP /\ keywordOrIdent value <> EOF.
Proof.
  unfold keywordOrIdent, KEYWORDS. simpl.
  repeat (destruct (String.eqb value _); [repeat split; discriminate|]).
  repeat split; discriminate.
Qed.

Lemma word_shaped (value : string) (ln col : nat) (f : string) :
  token_shaped (Token.mk (keywordOrIdent value) (JS.VStr value) ln col f).
Proof.
  unfold token_shaped. simpl.
  destruct (keywordOrIdent_word value) as (H1 & H2 & H3 & H4).
  destruct (keywordOrIdent value) eqn:Hk; try congruence; eauto.
Qed.

Lemma statement_tokens_push (f : string) (ln pos pos' : nat) (t : token)
    (added : list token) :
  Token.file t = f -> Token.line t = ln -> Token.column t = pos + 1 ->
  token_shaped t -> pos < pos' ->
  statement_tokens f ln pos' added -> statement_tokens f ln pos (t :: added).
Proof.
  intros Hf Hl Hc Hs Hlt [Hall Hsorted]. split.
  - constructor; [repeat split; auto; lia|].
    eapply Forall_impl; [exact Hall|]. simpl. intros x (? & ? & ? & ?).
    repeat split; auto; lia.
  - constructor; [exact Hsorted|].
    eapply Forall_impl; [exact Hall|]. simpl. intros x (? & ? & ? & ?). lia.
Qed.

Lemma tokenized_push (tokens : list token) (t : token) (f : string) (ln pos pos' : nat)
    (r : result (list token)) :
  Token.file t = f -> Token.line t = ln -> Token.column t = pos + 1 ->
  token_shaped t -> pos < pos' ->
  tokenized (tokens ++ [t]) f ln pos' r -> tokenized tokens f ln pos r.
Proof.
  intros Hf Hl Hc Hs Hlt. destruct r as [tokens'|err|]; simpl; auto.
  - intros (added & -> & Hadded). exists (t :: added). split.
    + rewrite <- app_assoc. reflexivity.
    + eapply statement_tokens_push; eauto.
  - intros (q & -> & ? & ? & ? & ? & ?). exists q. repeat split; auto. lia.
Qed.

Lemma tokenizeLoop_tokens (fuel : nat) (text : string) (pos : nat) (tokens : list token)
    (f : string) (ln : nat) :
  tokenized tokens f ln pos (tokenizeLoop fuel text pos tokens f ln).
Proof.
  revert pos tokens. induction fuel as [|fuel IH]; intros pos tokens; [exact I|].
  cbn [tokenizeLoop].
  destruct (String.get pos text) as [ch|] eqn:Hget.
  2:{ exists []. split; [symmetry; apply app_nil_r|]. split; constructor. }
  pose proof (sliceFrom_get _ _ _ Hget) as Hslice.
  destruct (JS.isSpace ch).
  { specialize (IH (pos + 1) tokens).
    destruct (tokenizeLoop fuel text (pos + 1) tokens f ln) as [tokens'|err|]; simpl in *;
      auto.
    - destruct IH as (added & -> & Hall & Hsorted). exists added. split; [reflexivity|].
      split; [|exact Hsorted]. eapply Forall_impl; [exact Hall|]. simpl.
      intros x (? & ? & ? & ?). repeat split; auto; lia.
    - destruct IH as (q & -> & ? & ? & ? & ? & ?). exists q. repeat split; auto. lia. }
  destruct (Ascii.eqb ch "034" || Ascii.eqb ch "039").
  { unfold readString. rewrite Hget.
    destruct (readStringLoop ch (JS.sliceFrom text (pos + 1)) (pos + 1) "")
      as [[value endPos]|] eqn:Hrd.
    - apply readStringLoop_advances in Hrd. cbn.
      eapply (tokenized_push _ _ _ _ _ endPos); cycle 5; [apply IH | try reflexivity ..].
      + unfold token_shaped. simpl. eauto.
      + lia.
    - cbn. eexists. split; [reflexivity|]. simpl.
      do 2 (split; [reflexivity|]). split; [lia|]. split; [reflexivity|]. left. reflexivity. }
  destruct (JS.isDigit ch) eqn:Hdigit.
  { unfold readNumber. rewrite Hslice. cbn [spanLength].
    unfold isNumberChar at 1. rewrite Hdigit. cbn [orb].
    eapply tokenized_push; cycle 5; [apply IH | try reflexivity ..].
    + unfold token_shaped. simpl. eauto.
    + lia. }
  destruct (JS.isIdentStart ch) eqn:Hident.
  { unfold readIdent. rewrite Hslice. cbn [spanLength].
    unfold isIdentChar at 1. rewrite Hident. cbn [orb].
    eapply tokenized_push; cycle 5; [apply IH | try reflexivity ..].
    + apply word_shaped.
    + lia. }
  destruct (isTwoCharOp (JS.slice text pos (pos + 2))) eqn:Htwo.
  { eapply tokenized_push; cycle 5; [apply IH | try reflexivity ..].
    + unfold token_shaped. simpl. eauto.
    + lia. }
  destruct (JS.includes "+-*/%><=(){}[],." ch) eqn:Hone.
  { eapply tokenized_push; cycle 5; [apply IH | try reflexivity ..].
    + unfold token_shaped. simpl. eauto 6.
    + lia. }
  cbn. eexists. split; [reflexivity|]. simpl.
  do 2 (split; [reflexivity|]). split; [lia|]. split; [reflexivity|]. right. eauto.
Qed.

Lemma prefix_empty (s : string) : String.prefix "" s = true.
Proof. destruct s; reflexivity. Qed.

Lemma trimEnd_prefix (t : string) : String.prefix (JS.trimEnd t) t = true.
Proof.
  induction t as [|c r IH]; [reflexivity|]. simpl.
  destruct (JS.trimEnd r) as [|a r'] eqn:Hr.
  - destruct (JS.isSpace c); [reflexivity|].
    simpl. destruct (ascii_dec c c); [apply prefix_empty | congruence].
  - simpl. destruct (ascii_dec c c); [exact IH | congruence].
Qed.

Lemma indexOfFrom_trimStart (s p : string) (i : nat) :
  String.prefix p (JS.trimStart s) = true ->
  exists j, JS.indexOfFrom s p i = Some j.
Proof.
  revert i. induction s as [|c r IH]; intros i Hp.
  - simpl in *. rewrite Hp. eauto.
  - cbn [JS.indexOfFrom]. destruct (String.prefix p (String c r)) eqn:Hhere; [eauto|].
    cbn [JS.trimStart] in Hp. destruct (JS.isSpace c); [apply IH; exact Hp | congruence].
Qed.

(** [raw.indexOf(trimmed)] is never [-1]. *)
Lemma indexOf_trim (raw : string) : exists j, JS.indexOf raw (JS.trim raw) = Some j.
Proof. apply indexOfFrom_trimStart, trimEnd_prefix. Qed.

Lemma sorted_by_column_before (ln : nat) (l : list token) :
  Forall (fun t => Token.line t = ln) l ->
  StronglySorted (fun a b => Token.column a < Token.column b) l ->
  StronglySorted before l.
Proof.
  induction l as [|t l IH]; intros Hall Hsorted; [constructor|].
  apply Forall_cons in Hall as [Ht Hl].
  apply StronglySorted_cons in Hsorted as [Hlt Hs].
  constructor; [auto|].
  apply Forall_forall. intros x Hx. right.
  rewrite Forall_forall in Hl, Hlt. split; [rewrite Ht, (Hl x Hx); reflexivity | auto].
Qed.

Lemma lexLines_tokens (lines : list string) (lineNum : nat) (headerFound : bool)
    (tokens : list token) (f : string) :
  1 <= lineNum ->
  match lexLines lines lineNum headerFound tokens f with
  | Ok tokens' =>
      exists added, tokens' = tokens ++ added /\
                    Forall (token_placed f lineNum (lineNum + length lines)) added /\
                    StronglySorted before added
  | Throw err =>
      exists q, err = Qast q /\ error_placed f lineNum (lineNum + length lines) q
  | OutOfFuel => True
  end.
Proof.
  revert lineNum headerFound tokens.
  induction lines as [|raw rest IH]; intros lineNum headerFound tokens Hpos; simpl.
  { exists []. split; [symmetry; apply app_nil_r|]. split; constructor. }
  assert (Hskip : forall hf,
    match lexLines rest (S lineNum) hf tokens f with
    | Ok tokens' =>
        exists added, tokens' = tokens ++ added /\
                      Forall (token_placed f lineNum (lineNum + S (length rest))) added /\
                      StronglySorted before added
    | Throw err =>
        exists q, err = Qast q /\ error_placed f lineNum (lineNum + S (length rest)) q
    | OutOfFuel => True
    end).
  { intros hf. specialize (IH (S lineNum) hf tokens).
    destruct (lexLines rest (S lineNum) hf tokens f) as [tokens'|err|]; auto.
    - destruct IH as (added & -> & Hall & Hsorted); [lia|]. exists added.
      split; [reflexivity|]. split; [|exact Hsorted].
      eapply Forall_impl; [exact Hall|]. intros t (? & ? & ? & ?).
      repeat split; auto; lia.
    - destruct IH as (q & -> & ? & ? & ? & ?); [lia|]. exists q.
      repeat split; auto; lia. }
  destruct (String.eqb (JS.trim raw) ""); [apply Hskip|].
  destruct (JS.startsWith (JS.trim raw) "#"); [apply Hskip|].
  destruct headerFound; simpl.
  - destruct (JS.startsWith (JS.trim raw) "q."); simpl.
    + pose proof (tokenizeLoop_tokens
                    (S (String.length (JS.sliceFrom raw match JS.indexOf raw "q." with
                                                        | Some i => i + 2
                                                        | None => 1
                                                        end)))
                    (JS.sliceFrom raw match JS.indexOf raw "q." with
                                      | Some i => i + 2
                                      | None => 1
                                      end) 0 tokens f lineNum) as Hst.
      unfold tokenizeStatement.
      destruct (tokenizeLoop _ _ 0 tokens f lineNum) as [tokens1|err|]; simpl in *.
      * destruct Hst as (added1 & -> & Hall1 & Hsorted1).
        specialize (IH (S lineNum) true (tokens ++ added1)).
        destruct (lexLines rest (S lineNum) true (tokens ++ added1) f) as [tokens'|err|];
          auto.
        -- destruct IH as (added2 & -> & Hall2 & Hsorted2); [lia|].
           exists (added1 ++ added2). split; [rewrite app_assoc; reflexivity|]. split.
           ++ apply Forall_app. split.
              ** eapply Forall_impl; [exact Hall1|]. intros t (? & ? & ? & ?).
                 repeat split; auto; lia.
              ** eapply Forall_impl; [exact Hall2|]. intros t (? & ? & ? & ?).
                 repeat split; auto; lia.
           ++ apply StronglySorted_app. split; [|split]; [| |exact Hsorted2].
              ** intros x1 x2 Hx1 Hx2. left.
                 rewrite Forall_forall in Hall1, Hall2.
                 destruct (Hall1 x1 Hx1) as (_ & -> & _).
                 destruct (Hall2 x2 Hx2) as (_ & ? & _). lia.
              ** apply (sorted_by_column_before lineNum); [|exact Hsorted1].
                 eapply Forall_impl; [exact Hall1|]. intros t (? & ? & ?). assumption.
        -- destruct IH as (q & -> & ? & ? & ? & ?); [lia|]. exists q.
           repeat split; auto; lia.
      * destruct Hst as (q & -> & Hf & Hl & Hc & Hh & Hm). exists q.
        split; [reflexivity|]. repeat split; auto; try lia.
        right. split; [exact Hh|]. right. exact Hm.
      * exact I.
    + destruct (indexOf_trim raw) as [j ->]. eexists. split; [reflexivity|].
      repeat split; simpl; try lia. right. split; [reflexivity|]. left. reflexivity.
  - destruct (JS.startsWith (JS.trim raw) "new qas"); simpl; [apply Hskip|].
    eexists. split; [reflexivity|]. repeat split; simpl; try lia.
    left. repeat split.
Qed.

Lemma splitLines_nonempty (src : string) : 1 <= length (splitLines src).
Proof.
  assert (H : exists l ls, splitLines src = l :: ls).
  { destruct src as [|c r]; [simpl; eauto|].
    unfold splitLines; fold splitLines.
    destruct (Ascii.eqb c "010"); [eauto|].
    destruct r as [|d r']; [eauto|].
    destruct (Ascii.eqb c "013" && Ascii.eqb d "010"); [eauto|].
    destruct (splitLines (String d r')); eauto. }
  destruct H as (l & ls & ->). simpl. lia.
Qed.

(** X3.  Every token of a successful tokenization carries the file
    identifier, a line between 1 and the number of lines of the source, a
    column of at least 1, and a value of the kind its type calls for: a
    number for [NUMBER], a string for [STRING], the operator's text for
    [OP], [null] for [EOF], and for identifiers and keywords their text
    (an [IDENT] never spells a keyword). *)
Theorem lex_tokens_placed (src f : string) (tokens : list token) :
  lex src f = Ok tokens ->
  Forall (token_placed f 1 (S (length (splitLines src)))) tokens.
Proof.
  unfold lex. pose proof (lexLines_tokens (splitLines src) 1 false [] f (le_n 1)) as H.
  pose proof (splitLines_nonempty src) as Hlines.
  destruct (lexLines (splitLines src) 1 false [] f) as [front|err|]; simpl;
    try discriminate.
  destruct H as (added & -> & Hall & _). intros [= <-]. simpl.
  apply Forall_app. split; [exact Hall|].
  constructor; [|constructor]. repeat split; simpl; lia.
Qed.

(** [lex_tokens_placed] on a source with a comment, a string and an
    operator. *)
Lemma lex_tokens_placed_witness :
  exists tokens,
    lex (source ["# greet"; "new qas"; "q.set x = 'a' + 1"]) "f" = Ok tokens /\
    length tokens = 7 /\
    Forall (token_placed "f" 1 4) tokens.
Proof.
  eexists. split; [vm_compute; reflexivity|]. split; [reflexivity|].
  exact (lex_tokens_placed (source ["# greet"; "new qas"; "q.set x = 'a' + 1"]) "f" _
           eq_refl).
Defined.

(** X4.  The tokens of a successful tokenization are in source order:
    all but the final [EOF] are strictly increasing by line and, within a
    line, by column. *)
Theorem lex_tokens_in_order (src f : string) (tokens : list token) :
  lex src f = Ok tokens ->
  exists front eof,
    tokens = front ++ [eof] /\ Token.type eof = EOF /\ StronglySorted before front.
Proof.
  unfold lex. pose proof (lexLines_tokens (splitLines src) 1 false [] f (le_n 1)) as H.
  destruct (lexLines (splitLines src) 1 false [] f) as [front|err|]; simpl;
    try discriminate.
  destruct H as (added & -> & _ & Hsorted). intros [= <-].
  eexists added, _. split; [reflexivity|]. split; [reflexivity | exact Hsorted].
Qed.

(** [lex_tokens_in_order] on a source of two statements. *)
Lemma lex_tokens_in_order_witness :
  exists tokens front eof,
    lex (source ["new qas"; "q.set x = 5"; "q.print x"]) "f" = Ok tokens /\
    tokens = front ++ [eof] /\ Token.type eof = EOF /\ StronglySorted before front.
Proof.
  eexists.
  destruct (lex_tokens_in_order (source ["new qas"; "q.set x = 5"; "q.print x"]) "f" _
              eq_refl) as (front & eof & Heq & Heof & Hsorted).
  exists front, eof. split; [reflexivity|].
  split; [exact Heq | split; [exact Heof | exact Hsorted]].
Defined.

(** X5.  Every error the tokenizer throws is a [QastError] with the file
    identifier, a line between 1 and the number of lines of the source and
    a column of at least 1; it is the header error (the only one with a
    hint, always at column 1), the prefix error, an unterminated string
    literal or an unexpected character. *)
Theorem lex_errors_placed (src f : string) (err : error) :
  lex src f = Throw err ->
  exists q, err = Qast q /\ error_placed f 1 (S (length (splitLines src))) q.
Proof.
  unfold lex. pose proof (lexLines_tokens (splitLines src) 1 false [] f (le_n 1)) as H.
  destruct (lexLines (splitLines src) 1 false [] f) as [front|e|]; simpl;
    try discriminate.
  intros [= <-]. exact H.
Qed.

(** [lex_errors_placed] on an unterminated string on line 3. *)
Lemma lex_errors_placed_witness :
  exists q,
    lex (source ["new qas"; ""; "  q.print 'abc"]) "f" = Throw (Qast q) /\
    line q = 3 /\ column q = 7 /\ error_placed "f" 1 4 q.
Proof.
  destruct (lex_errors_placed (source ["new qas"; ""; "  q.print 'abc"]) "f" _ eq_refl)
    as (q & Heq & Hplaced).
  exists q. injection Heq as <-. repeat split; try apply Hplaced; reflexivity.
Defined.

(** ** String literals *)

Lemma string_app_assoc (a b c : string) : (a +:+ b) +:+ c = a +:+ (b +:+ c).
Proof.
  induction a as [|x a IH]; [reflexivity|].
  change (String x ((a +:+ b) +:+ c) = String x (a +:+ (b +:+ c))). f_equal. exact IH.
Qed.

Lemma string_app_nil_r (a : string) : a +:+ "" = a.
Proof.
  induction a as [|x a IH]; [reflexivity|].
  change (String x (a +:+ "") = String x a). f_equal. exact IH.
Qed.

Lemma string_length_app (a b : string) :
  String.length (a +:+ b) = String.length a + String.length b.
Proof.
  induction a as [|x a IH]; [reflexivity|].
  change (S (String.length (a +:+ b)) = S (String.length a + String.length b)).
  f_equal. exact IH.
Qed.

Lemma substring_full (s : string) : substring 0 (String.length s) s = s.
Proof.
  induction s as [|c s IH]; [reflexivity|].
  change (String c (substring 0 (String.length s) s) = String c s). f_equal. exact IH.
Qed.

Lemma get_length (s : string) : String.get (String.length s) s = None.
Proof. induction s as [|c s IH]; simpl; [reflexivity | exact IH]. Qed.

Lemma readStringLoop_plain (quote : ascii) (s rest : string) (pos : nat) (value : string) :
  Ascii.eqb quote "092" = false ->
  isPlain quote s = true ->
  readStringLoop quote (s +:+ String quote rest) pos value
  = Some (value +:+ s, pos + String.length s + 1).
Proof.
  intros Hq. revert pos value. induction s as [|c r IH]; intros pos value Hplain.
  - simpl. rewrite Hq, Ascii.eqb_refl, string_app_nil_r. f_equal. f_equal. lia.
  - simpl in Hplain. apply andb_prop in Hplain as [Hc Hr].
    apply andb_prop in Hc as [Hc1 Hc2].
    apply negb_true_iff in Hc1, Hc2. simpl. rewrite Hc1, Hc2.
    rewrite (IH _ _ Hr), string_app_assoc. simpl. f_equal. f_equal. lia.
Qed.

(** X6.  A quoted string whose text holds no backslash and no quote of
    its own kind is tokenized to one [STRING] token, at column 1, whose
    value is the text between the quotes. *)
Theorem plain_string_is_one_token (quote : ascii) (s : string) (tokens : list token)
    (f : string) (ln : nat) :
  quote = "034"%char \/ quote = "039"%char ->
  isPlain quote s = true ->
  tokenizeStatement (String quote (s +:+ String quote "")) tokens f ln
  = Ok (tokens ++ [Token.mk STRING (JS.VStr s) ln 1 f]).
Proof.
  intros Hquote Hplain.
  assert (Hq : Ascii.eqb quote "092" = false /\ JS.isSpace quote = false /\
               (Ascii.eqb quote "034" || Ascii.eqb quote "039") = true).
  { destruct Hquote as [-> | ->]; repeat split. }
  destruct Hq as (Hback & Hspace & Hisquote).
  remember (String quote (s +:+ String quote "")) as text eqn:Htext.
  assert (Hget : String.get 0 text = Some quote) by (subst text; reflexivity).
  assert (Hslice : JS.sliceFrom text (0 + 1) = s +:+ String quote "").
  { subst text. unfold JS.sliceFrom. cbn [String.length Nat.add Nat.sub substring].
    rewrite Nat.sub_0_r. apply substring_full. }
  assert (Hlen : String.length text = S (S (String.length s))).
  { subst text. cbn [String.length]. rewrite string_length_app. simpl. lia. }
  assert (Hend : String.get (0 + 1 + String.length s + 1) text = None).
  { replace (0 + 1 + String.length s + 1) with (String.length text) by lia.
    apply get_length. }
  unfold tokenizeStatement. rewrite Hlen. cbn [tokenizeLoop].
  rewrite Hget, Hspace, Hisquote. unfold readString. rewrite Hget, Hslice.
  rewrite (readStringLoop_plain quote s "" (0 + 1) "" Hback Hplain).
  cbn [mbind result_bind]. rewrite Hend. reflexivity.
Qed.

(** [plain_string_is_one_token] on a text in single quotes. *)
Lemma plain_string_is_one_token_witness :
  tokenizeStatement (String "039" ("hello, world" +:+ String "039" "")) [] "f" 2
  = Ok [Token.mk STRING (JS.VStr "hello, world") 2 1 "f"].
Proof.
  exact (plain_string_is_one_token "039" "hello, world" [] "f" 2 (or_intror eq_refl)
           eq_refl).
Defined.

(** ** The parser comes to an end at [EOF] *)

Lemma peek_elem_of (tokens : list token) (pos : nat) (tok : token) :
  peek tokens pos = Some tok -> tok ∈ tokens.
Proof.
  unfold peek. destruct (tokens !! pos) as [t|] eqn:Hget.
  - intros [= <-]. eapply list_elem_of_lookup_2. exact Hget.
  - intros Hlast. apply last_Some in Hlast as [l' ->].
    apply elem_of_app. right. apply list_elem_of_singleton. reflexivity.
Qed.

Lemma parseBody_needs_EOF (tokens : list token) (f : string) (fuel : nat)
    (stmts : list statement) (pos : nat) (stmts' : list statement) :
  Forall (fun t => Token.type t <> EOF) tokens ->
  parseBody tokens f fuel stmts pos <> Ok stmts'.
Proof.
  intros Hnone. revert stmts pos. induction fuel as [|fuel IH]; intros stmts pos;
    cbn [parseBody]; [discriminate|].
  destruct (peek tokens pos) as [tok|] eqn:Hpeek; [|discriminate].
  apply peek_elem_of in Hpeek. rewrite Forall_forall in Hnone.
  rewrite bool_decide_eq_false_2; [|apply Hnone; exact Hpeek].
  destruct (parseStatement tokens f fuel pos) as [[s pos1]|?|];
    cbn [mbind result_bind]; try discriminate.
  apply IH.
Qed.

(** X7.  On a token array that holds no [EOF] token, [parse] never
    returns a program, whatever the fuel: it throws, or goes on for
    ever. *)
Theorem parse_needs_EOF (tokens : list token) (f : string) (fuel : nat) (prog : Program) :
  Forall (fun t => Token.type t <> EOF) tokens ->
  parse fuel tokens f <> Ok prog.
Proof.
  intros Hnone. unfold parse.
  destruct (parseBody tokens f fuel [] 0) as [stmts|?|] eqn:Hbody;
    cbn [mbind result_bind]; try discriminate.
  exfalso. exact (parseBody_needs_EOF tokens f fuel [] 0 stmts Hnone Hbody).
Qed.

(** [parse_needs_EOF] on the single token of [1]: the fuel runs out. *)
Lemma parse_needs_EOF_witness :
  parse 20 [Token.mk NUMBER (JS.VNum 1) 1 1 "f"] "f" = OutOfFuel /\
  forall prog, parse 20 [Token.mk NUMBER (JS.VNum 1) 1 1 "f"] "f" <> Ok prog.
Proof.
  split; [vm_compute; reflexivity|]. intros prog.
  apply (parse_needs_EOF [Token.mk NUMBER (JS.VNum 1) 1 1 "f"] "f" 20 prog).
  constructor; [discriminate | constructor].
Defined.

Section AtEOF.
Variable tokens : list token.
Variable f : string.
Variable k : nat.
Variable eof : token.
Hypothesis Heof : tokens !! k = Some eof.
Hypothesis Htype : Token.type eof = EOF.

Lemma peek_upto (pos : nat) :
  pos <= k -> exists tok, tokens !! pos = Some tok /\ peek tokens pos = Some tok.
Proof.
  intros Hle. assert (Hsome : is_Some (tokens !! pos)).
  { apply lookup_lt_is_Some. apply lookup_lt_Some in Heof. lia. }
  destruct Hsome as [tok Htok]. exists tok. unfold peek. rewrite Htok. auto.
Qed.

Lemma not_at_eof (pos : nat) (tok : token) (ty : tokenType) (v : option string) :
  pos <= k -> tokens !! pos = Some tok -> ty <> EOF ->
  token_is tok ty v = true -> S pos <= k.
Proof.
  intros Hle Htok Hty Hm. destruct (decide (pos = k)) as [->|]; [|lia].
  rewrite Heof in Htok. injection Htok as <-.
  unfold token_is in Hm. rewrite bool_decide_eq_false_2 in Hm; [discriminate|].
  congruence.
Qed.

Lemma match__stops (ty : tokenType) (v : option string) (pos : nat) :
  pos <= k -> ty <> EOF ->
  exists m pos1, match_ tokens ty v pos = Ok (m, pos1) /\
                 pos1 = (if m then S pos else pos) /\ pos1 <= k.
Proof.
  intros Hle Hty. destruct (peek_upto pos Hle) as (tok & Htok & Hpeek).
  unfold match_. rewrite Hpeek. destruct (token_is tok ty v) eqn:Hm.
  - exists true, (S pos). repeat split. eapply not_at_eof; eauto.
  - exists false, pos. auto.
Qed.

Lemma matchOp_stops (values : list string) (pos : nat) :
  pos <= k ->
  exists m pos1, matchOp tokens values pos = Ok (m, pos1) /\
                 pos1 = (if m then S pos else pos) /\ pos1 <= k.
Proof.
  intros Hle. induction values as [|v rest IH]; simpl.
  { exists false, pos. auto. }
  destruct (match__stops OP (Some v) pos Hle) as (m & pos1 & -> & -> & Hle1);
    [discriminate|].
  cbn [mbind result_bind]. destruct m.
  - exists true, (S pos). auto.
  - exact IH.
Qed.

Lemma consume_stops (ty : tokenType) (v : option string) (pos : nat) :
  pos <= k -> ty <> EOF ->
  match consume tokens f ty v pos with
  | Ok (_, pos1) => pos1 = S pos /\ pos1 <= k
  | Throw (Qast _) => True
  | _ => False
  end.
Proof.
  intros Hle Hty. destruct (peek_upto pos Hle) as (tok & Htok & Hpeek).
  unfold consume. rewrite Hpeek. destruct (token_is tok ty v) eqn:Hm.
  - split; [reflexivity|]. eapply not_at_eof; eauto.
  - exact I.
Qed.

Lemma previousValue_upto (pos : nat) :
  pos - 1 <= k -> exists v, previousValue tokens pos = Ok v.
Proof.
  intros Hle. destruct (peek_upto _ Hle) as (tok & Htok & _).
  unfold previousValue. rewrite Htok. eauto.
Qed.

Lemma binaryLoop_stops (values : list string) (operand : nat -> result (expr * nat))
    (fuel : nat) :
  holds k fuel operand ->
  forall n e pos, pos <= k ->
    match binaryLoop tokens values operand n e pos with
    | Ok (_, pos') => pos <= pos' /\ pos' <= k
    | Throw (Qast _) => True
    | Throw (HostError _ _) => False
    | OutOfFuel => n <= k - pos \/ fuel <= k - pos
    end.
Proof.
  intros Hoperand. induction n as [|n IH]; intros e pos Hle;
    cbn [binaryLoop]; [left; lia|].
  destruct (matchOp_stops values pos Hle) as (m & pos1 & -> & -> & Hle1).
  cbn [mbind result_bind]. destruct m; [|split; [lia | exact Hle1]].
  destruct (previousValue_upto (S pos)) as [op ->]; [lia|].
  cbn [mbind result_bind].
  pose proof (Hoperand (S pos) Hle1) as Hrhs.
  destruct (operand (S pos)) as [[rhs pos2]|err|]; cbn [mbind result_bind].
  - destruct Hrhs as [Hlt Hle2].
    specialize (IH (BinaryExpression op e rhs
                      (locFrom (OfNode (expr_loc e)) (Some (OfNode (expr_loc rhs)))))
                   pos2 Hle2).
    destruct (binaryLoop tokens values operand n _ pos2) as [[? pos3]|err|].
    + lia.
    + exact IH.
    + lia.
  - exact Hrhs.
  - simpl in Hrhs. right. lia.
Qed.

Lemma binaryLevel_stops (values : list string) (operand : nat -> result (expr * nat))
    (fuel : nat) :
  holds k fuel operand -> holds k fuel (binaryLevel tokens values operand fuel).
Proof.
  intros Hoperand pos Hle. unfold binaryLevel.
  pose proof (Hoperand pos Hle) as Hfirst'.
  destruct (operand pos) as [[e pos1]|err|]; cbn [mbind result_bind];
    [|exact Hfirst'|exact Hfirst'].
  destruct Hfirst' as [Hlt Hle1].
  pose proof (binaryLoop_stops values operand fuel Hoperand fuel e pos1 Hle1) as H.
  unfold held. destruct (binaryLoop tokens values operand fuel e pos1) as [[? pos2]|err|].
  - lia.
  - exact H.
  - lia.
Qed.

Lemma parseEqualityOver_stops (unary : nat -> result (expr * nat)) (fuel : nat) :
  holds k fuel unary -> holds k fuel (parseEqualityOver tokens unary fuel).
Proof.
  intros Hunary.
  unfold parseEqualityOver, parseComparisonOver, parseTermOver, parseFactorOver.
  repeat apply binaryLevel_stops. exact Hunary.
Qed.

Lemma parsePrimary_stops (parseExpr : nat -> result (expr * nat)) (fuel : nat) :
  holds k fuel parseExpr ->
  forall pos, pos <= k ->
    match parsePrimary tokens f parseExpr pos with
    | Ok (_, pos') => pos < pos' /\ pos' <= k
    | Throw (Qast _) => True
    | Throw (HostError _ _) => False
    | OutOfFuel => S fuel <= k - pos
    end.
Proof.
  intros Hexpr pos Hle. destruct (peek_upto pos Hle) as (tok & Htok & Hpeek).
  unfold parsePrimary. rewrite Hpeek.
  destruct (match__stops NUMBER None pos Hle) as (m1 & pos1 & -> & -> & Hle1);
    [discriminate|].
  cbn [mbind result_bind]. destruct m1; [lia|].
  destruct (match__stops STRING None pos Hle) as (m2 & pos2 & -> & -> & Hle2);
    [discriminate|].
  cbn [mbind result_bind]. destruct m2; [lia|].
  destruct (match__stops IDENT None pos Hle) as (m3 & pos3 & -> & -> & Hle3);
    [discriminate|].
  cbn [mbind result_bind]. destruct m3; [lia|].
  destruct (match__stops OP (Some "(") pos Hle) as (m4 & pos4 & -> & -> & Hle4);
    [discriminate|].
  cbn [mbind result_bind]. destruct m4; [|exact I].
  pose proof (Hexpr (S pos) Hle4) as Hinner.
  destruct (parseExpr (S pos)) as [[e pos5]|err|]; cbn [mbind result_bind].
  - destruct Hinner as [Hlt Hle5].
    assert (Hclose := consume_stops OP (Some ")") pos5 Hle5).
    destruct (consume tokens f OP (Some ")") pos5) as [[? pos6]|err|];
      cbn [mbind result_bind].
    + destruct Hclose as [-> Hle6]; [discriminate | lia].
    + apply Hclose. discriminate.
    + exfalso. apply Hclose. discriminate.
  - exact Hinner.
  - simpl in Hinner. lia.
Qed.

Lemma parseUnary_stops (fuel : nat) : holds k fuel (parseUnary tokens f fuel).
Proof.
  induction fuel as [|fuel IH]; intros pos Hle; cbn [parseUnary]; [simpl; lia|].
  destruct (matchOp_stops ["!"; "-"] pos Hle) as (m & pos1 & -> & -> & Hle1).
  cbn [mbind result_bind]. destruct m.
  - destruct (previousValue_upto (S pos)) as [op ->]; [lia|].
    cbn [mbind result_bind].
    pose proof (IH (S pos) Hle1) as Hrhs.
    destruct (parseUnary tokens f fuel (S pos)) as [[rhs pos2]|err|];
      cbn [mbind result_bind].
    + destruct Hrhs as [Hlt Hle2].
      destruct (peek_upto (pos2 - 1)) as (t & -> & _); [lia|]. simpl. lia.
    + exact Hrhs.
    + simpl in Hrhs |- *. lia.
  - pose proof (parsePrimary_stops _ fuel (parseEqualityOver_stops _ fuel IH) pos Hle) as H.
    unfold held.
    destruct (parsePrimary tokens f (parseEqualityOver tokens (parseUnary tokens f fuel) fuel) pos)
      as [[? ?]|err|]; [exact H | exact H | lia].
Qed.

Lemma parseExpression_stops (fuel : nat) : holds k fuel (parseExpression tokens f fuel).
Proof.
  unfold parseExpression, parseEquality. apply parseEqualityOver_stops, parseUnary_stops.
Qed.

Lemma parseParams_stops (n : nat) (params : list JS.value) (pos : nat) :
  pos <= k ->
  match parseParams tokens n params pos with
  | Ok (_, pos') => pos <= pos' /\ pos' <= k
  | Throw (Qast _) => True
  | Throw (HostError _ _) => False
  | OutOfFuel => n <= k - pos
  end.
Proof.
  revert params pos. induction n as [|n IH]; intros params pos Hle;
    cbn [parseParams]; [lia|].
  destruct (match__stops IDENT None pos Hle) as (m & pos1 & -> & -> & Hle1);
    [discriminate|].
  cbn [mbind result_bind]. destruct m; [|lia].
  destruct (previousValue_upto (S pos)) as [v ->]; [lia|].
  cbn [mbind result_bind].
  specialize (IH (params ++ [v]) (S pos) Hle1).
  destruct (parseParams tokens n (params ++ [v]) (S pos)) as [[? pos2]|err|];
    [lia | exact IH | lia].
Qed.

Lemma stops_consume {A : Type} (fuel lo pos : nat) (ty : tokenType) (v : option string)
    (rest : token * nat -> result (A * nat)) :
  pos <= k -> ty <> EOF ->
  (forall tok, S pos <= k -> held k fuel lo (rest (tok, S pos))) ->
  held k fuel lo (consume tokens f ty v pos ≫= rest).
Proof.
  intros Hle Hty Hrest. pose proof (consume_stops ty v pos Hle Hty) as H.
  destruct (consume tokens f ty v pos) as [[tok pos1]|[q|n m]|];
    cbn [mbind result_bind].
  - destruct H as [-> H]. apply Hrest. exact H.
  - exact I.
  - destruct H.
  - destruct H.
Qed.

Lemma stops_expression {A : Type} (fuel lo pos : nat)
    (rest : expr * nat -> result (A * nat)) :
  lo <= pos -> pos <= k ->
  (forall e pos', pos < pos' -> pos' <= k -> held k fuel lo (rest (e, pos'))) ->
  held k fuel lo (parseExpression tokens f fuel pos ≫= rest).
Proof.
  intros Hlo Hle Hrest. pose proof (parseExpression_stops fuel pos Hle) as H.
  destruct (parseExpression tokens f fuel pos) as [[e pos']|[q|n m]|];
    cbn [mbind result_bind]; simpl in H.
  - apply Hrest; lia.
  - exact I.
  - destruct H.
  - simpl. lia.
Qed.

Lemma parseStatement_stops (fuel pos : nat) :
  pos <= k -> held k fuel pos (parseStatement tokens f fuel pos).
Proof.
  intros Hle. destruct (peek_upto pos Hle) as (tok & Htok & Hpeek).
  unfold parseStatement. rewrite Hpeek.
  assert (Hdefault :
            held k fuel pos
              ('(e, pos1) ← parseExpression tokens f fuel pos;
               Ok (ExprStatement e (locFrom (OfNode (expr_loc e)) None), pos1))).
  { apply stops_expression; [lia | exact Hle |]. intros e pos' ? ?. simpl. lia. }
  destruct (Token.type tok); try exact Hdefault; clear Hdefault.
  - unfold parsePrint. apply stops_consume; [exact Hle | discriminate |].
    intros start H1. cbn beta iota.
    apply stops_expression; [lia | exact H1 |]. intros e pos' ? ?. simpl. lia.
  - unfold parseSet. apply stops_consume; [exact Hle | discriminate |].
    intros start H1. cbn beta iota.
    apply stops_consume; [exact H1 | discriminate |]. intros id H2. cbn beta iota.
    apply stops_consume; [exact H2 | discriminate |]. intros eq H3. cbn beta iota.
    apply stops_expression; [lia | exact H3 |]. intros e pos' ? ?. simpl. lia.
  - unfold parseInput. apply stops_consume; [exact Hle | discriminate |].
    intros start H1. cbn beta iota.
    apply stops_consume; [exact H1 | discriminate |]. intros id H2. cbn beta iota.
    destruct (match__stops STRING None (S (S pos)) H2) as (m & pos3 & -> & -> & H3);
      [discriminate|].
    cbn [mbind result_bind]. destruct m.
    + destruct (previousValue_upto (S (S (S pos)))) as [v ->]; [lia|]. simpl. lia.
    + simpl. lia.
  - unfold parseIf. apply stops_consume; [exact Hle | discriminate |].
    intros start H1. cbn beta iota.
    apply stops_expression; [lia | exact H1 |]. intros e pos' ? ?. cbn beta iota.
    apply stops_consume; [assumption | discriminate |]. intros ? ?. simpl. lia.
  - unfold parseLoop. apply stops_consume; [exact Hle | discriminate |].
    intros start H1. cbn beta iota.
    apply stops_expression; [lia | exact H1 |]. intros e pos' ? ?. cbn beta iota.
    apply stops_consume; [assumption | discriminate |]. intros ? ?. simpl. lia.
  - unfold parseWhile. apply stops_consume; [exact Hle | discriminate |].
    intros start H1. cbn beta iota.
    apply stops_expression; [lia | exact H1 |]. intros e pos' ? ?. cbn beta iota.
    apply stops_consume; [assumption | discriminate |]. intros ? ?. simpl. lia.
  - unfold parseFn. apply stops_consume; [exact Hle | discriminate |].
    intros start H1. cbn beta iota.
    apply stops_consume; [exact H1 | discriminate |]. intros id H2. cbn beta iota.
    pose proof (parseParams_stops fuel [] (S (S pos)) H2) as Hparams.
    destruct (parseParams tokens fuel [] (S (S pos))) as [[params pos3]|[q|n m]|];
      cbn [mbind result_bind].
    + destruct Hparams as [? ?].
      apply stops_consume; [assumption | discriminate |]. intros ? ?. simpl. lia.
    + exact I.
    + destruct Hparams.
    + simpl. lia.
  - unfold parseReturn. apply stops_consume; [exact Hle | discriminate |].
    intros start H1. cbn beta iota.
    destruct (peek_upto (S pos) H1) as (tok1 & Htok1 & ->).
    destruct (bool_decide (Token.type tok1 = EOF)); [simpl; lia|].
    apply stops_expression; [lia | exact H1 |]. intros e pos' ? ?. simpl. lia.
Qed.

Lemma parseBody_stops (fuel : nat) (stmts : list statement) (pos : nat) :
  pos <= k ->
  match parseBody tokens f fuel stmts pos with
  | Ok _ => True
  | Throw (Qast _) => True
  | Throw (HostError _ _) => False
  | OutOfFuel => fuel <= S (k - pos)
  end.
Proof.
  revert stmts pos. induction fuel as [|fuel IH]; intros stmts pos Hle;
    cbn [parseBody]; [lia|].
  destruct (peek_upto pos Hle) as (tok & Htok & ->).
  destruct (bool_decide (Token.type tok = EOF)); [exact I|].
  pose proof (parseStatement_stops fuel pos Hle) as Hs.
  destruct (parseStatement tokens f fuel pos) as [[s pos1]|[q|n m]|];
    cbn [mbind result_bind]; simpl in Hs.
  - destruct Hs as [Hlt Hle1]. specialize (IH (stmts ++ [s]) pos1 Hle1).
    destruct (parseBody tokens f fuel (stmts ++ [s]) pos1) as [?|[q|n m]|]; auto. lia.
  - exact I.
  - destruct Hs.
  - lia.
Qed.

Lemma parse_stops (fuel : nat) :
  S k < fuel ->
  (exists prog, parse fuel tokens f = Ok prog) \/
  (exists q, parse fuel tokens f = Throw (Qast q)).
Proof.
  intros Hfuel. unfold parse.
  pose proof (parseBody_stops fuel [] 0 (Nat.le_0_l k)) as H.
  destruct (parseBody tokens f fuel [] 0) as [?|[q|n m]|]; cbn [mbind result_bind].
  - left. eauto.
  - right. eauto.
  - destruct H.
  - lia.
Qed.

End AtEOF.

(** X8.  On a token array that holds an [EOF] token, [parse] comes to an
    end: with fuel above the length of the array it returns a program or
    throws a [QastError]; it neither runs out of fuel nor reads past the
    array. *)
Theorem parse_terminates (tokens : list token) (f : string) (fuel : nat) :
  (exists t, t ∈ tokens /\ Token.type t = EOF) ->
  length tokens < fuel ->
  (exists prog, parse fuel tokens f = Ok prog) \/
  (exists q, parse fuel tokens f = Throw (Qast q)).
Proof.
  intros (t & Hin & Ht) Hfuel.
  apply list_elem_of_lookup_1 in Hin as [k Hk].
  apply (parse_stops tokens f k t Hk Ht). apply lookup_lt_Some in Hk. lia.
Qed.

(** [parse_terminates] on the tokens of an unclosed parenthesis. *)
Lemma parse_terminates_witness :
  exists toks,
    lex (source ["new qas"; "q.print (1 + 2"]) "f" = Ok toks /\
    ((exists prog, parse 7 toks "f" = Ok prog) \/
     (exists q, parse 7 toks "f" = Throw (Qast q))).
Proof.
  eexists. split; [vm_compute; reflexivity|].
  apply parse_terminates.
  - exists (Token.mk EOF JS.VNull 2 1 "f"). split; [|reflexivity].
    do 5 apply list_elem_of_further. apply list_elem_of_here.
  - simpl. lia.
Defined.

(** ** The shape of what the parser builds *)

Lemma strictEquals_VStr (x : JS.value) (v : string) :
  JS.strictEquals x (JS.VStr v) = true -> x = JS.VStr v.
Proof.
  destruct x; simpl; try discriminate. intros H. apply String.eqb_eq in H. congruence.
Qed.

Lemma peek_lookup (tokens : list token) (pos : nat) (t tok : token) :
  tokens !! pos = Some t -> peek tokens pos = Some tok -> tok = t.
Proof. unfold peek. intros ->. congruence. Qed.

Lemma matched_value (tokens : list token) (values : list string) (pos pos1 : nat)
    (op : JS.value) :
  matchOp tokens values pos = Ok (true, pos1) ->
  previousValue tokens pos1 = Ok op ->
  exists v, In v values /\ op = JS.VStr v.
Proof.
  intros Hm Hprev. apply matchOp_inv in Hm as (-> & tok & v & Hpeek & Hin & Htok).
  unfold previousValue in Hprev. replace (S pos - 1) with pos in Hprev by lia.
  destruct (tokens !! pos) as [t|] eqn:Hget; [|discriminate].
  injection Hprev as <-. rewrite (peek_lookup _ _ _ _ Hget Hpeek) in Htok.
  unfold token_is in Htok. apply andb_prop in Htok as [_ Hv].
  exists v. split; [exact Hin | apply strictEquals_VStr; exact Hv].
Qed.

Lemma exprLevel_le (e : expr) : exprLevel e <= 5.
Proof.
  destruct e; simpl; try lia. destruct operator as [| | | |s|]; simpl; try lia.
  repeat (match goal with |- context [if ?b then _ else _] => destruct b end; simpl; try lia).
Qed.

Section Nesting.
Variable tokens : list token.
Variable f : string.

Lemma binaryLoop_nested (values : list string) (n : nat)
    (operand : nat -> result (expr * nat)) (fuel : nat) :
  Forall (fun v => opLevel (JS.VStr v) = Some n) values ->
  nested_ok (S n) operand ->
  forall e pos e' pos',
    well_nested e -> n <= exprLevel e ->
    binaryLoop tokens values operand fuel e pos = Ok (e', pos') ->
    well_nested e' /\ n <= exprLevel e'.
Proof.
  intros Hvalues Hoperand. induction fuel as [|fuel IH]; intros e pos e' pos' He Hlvl;
    cbn [binaryLoop]; [discriminate|].
  destruct (matchOp tokens values pos) as [[m pos1]|?|] eqn:Hm;
    cbn [mbind result_bind]; try discriminate.
  destruct m; [|intros [= <- <-]; auto].
  destruct (previousValue tokens pos1) as [op|?|] eqn:Hprev;
    cbn [mbind result_bind]; try discriminate.
  destruct (matched_value _ _ _ _ _ Hm Hprev) as (v & Hin & ->).
  rewrite Forall_forall in Hvalues.
  assert (Hop : opLevel (JS.VStr v) = Some n).
  { apply Hvalues. apply list_elem_of_In. exact Hin. }
  destruct (operand pos1) as [[rhs pos2]|?|] eqn:Hrhs;
    cbn [mbind result_bind]; try discriminate.
  apply Hoperand in Hrhs as [Hrhs Hrlvl].
  apply IH.
  - simpl. split; [|auto]. exists n. repeat split; [exact Hop | exact Hlvl | lia].
  - cbn [exprLevel]. rewrite Hop. simpl. lia.
Qed.

Lemma binaryLevel_nested (values : list string) (n : nat)
    (operand : nat -> result (expr * nat)) (fuel : nat) :
  Forall (fun v => opLevel (JS.VStr v) = Some n) values ->
  nested_ok (S n) operand ->
  nested_ok n (binaryLevel tokens values operand fuel).
Proof.
  intros Hvalues Hoperand pos e pos'. unfold binaryLevel.
  destruct (operand pos) as [[e0 pos1]|?|] eqn:H0; cbn [mbind result_bind];
    try discriminate.
  apply Hoperand in H0 as [He0 Hl0].
  apply (binaryLoop_nested values n operand fuel Hvalues Hoperand); [exact He0 | lia].
Qed.

Lemma parseEqualityOver_nested (unary : nat -> result (expr * nat)) (fuel : nat) :
  nested_ok 5 unary -> nested_ok 1 (parseEqualityOver tokens unary fuel).
Proof.
  intros Hunary.
  unfold parseEqualityOver, parseComparisonOver, parseTermOver, parseFactorOver.
  apply binaryLevel_nested; [repeat constructor|].
  apply binaryLevel_nested; [repeat constructor|].
  apply binaryLevel_nested; [repeat constructor|].
  apply binaryLevel_nested; [repeat constructor|].
  exact Hunary.
Qed.

Lemma parsePrimary_nested (parseExpr : nat -> result (expr * nat)) :
  nested_ok 1 parseExpr -> nested_ok 5 (parsePrimary tokens f parseExpr).
Proof.
  intros Hpe pos e pos'. unfold parsePrimary.
  destruct (peek tokens pos) as [tok|]; [|discriminate].
  destruct (match_ tokens NUMBER None pos) as [[[] pos1]|?|];
    cbn [mbind result_bind]; try discriminate.
  { intros [= <- <-]. simpl. auto. }
  destruct (match_ tokens STRING None pos1) as [[[] pos2]|?|];
    cbn [mbind result_bind]; try discriminate.
  { intros [= <- <-]. simpl. auto. }
  destruct (match_ tokens IDENT None pos2) as [[[] pos3]|?|];
    cbn [mbind result_bind]; try discriminate.
  { intros [= <- <-]. simpl. auto. }
  destruct (match_ tokens OP (Some "(") pos3) as [[[] pos4]|?|];
    cbn [mbind result_bind]; try discriminate.
  destruct (parseExpr pos4) as [[inner pos5]|?|] eqn:Hinner;
    cbn [mbind result_bind]; try discriminate.
  destruct (consume tokens f OP (Some ")") pos5) as [[? pos6]|?|];
    cbn [mbind result_bind]; try discriminate.
  intros [= <- <-]. apply Hpe in Hinner as [Hinner _]. simpl. auto.
Qed.

Lemma parseUnary_nested (fuel : nat) : nested_ok 5 (parseUnary tokens f fuel).
Proof.
  induction fuel as [|fuel IH]; intros pos e pos'; cbn [parseUnary]; [discriminate|].
  destruct (matchOp tokens ["!"; "-"] pos) as [[m pos1]|?|] eqn:Hm;
    cbn [mbind result_bind]; try discriminate.
  destruct m.
  - destruct (previousValue tokens pos1) as [op|?|] eqn:Hprev;
      cbn [mbind result_bind]; try discriminate.
    destruct (matched_value _ _ _ _ _ Hm Hprev) as (v & Hin & ->).
    destruct (parseUnary tokens f fuel pos1) as [[rhs pos2]|?|] eqn:Hrhs;
      cbn [mbind result_bind]; try discriminate.
    destruct (tokens !! (pos2 - 1)); [|discriminate].
    intros [= <- <-]. apply IH in Hrhs as [Hrhs Hlvl]. simpl. split; [|lia].
    split; [|split; [pose proof (exprLevel_le rhs); lia | exact Hrhs]].
    simpl in Hin. destruct Hin as [<-|[<-|[]]]; auto.
  - apply parsePrimary_nested, parseEqualityOver_nested, IH.
Qed.

Lemma parseExpression_nested (fuel : nat) :
  nested_ok 1 (parseExpression tokens f fuel).
Proof.
  unfold parseExpression, parseEquality.
  apply parseEqualityOver_nested, parseUnary_nested.
Qed.

End Nesting.

Section Shape.
Variable tokens : list token.
Variable f : string.

Lemma consumed_identifier (pos : nat) (tok : token) (pos1 : nat) :
  consume tokens f IDENT None pos = Ok (tok, pos1) ->
  identifier_of tokens (Token.value tok).
Proof.
  intros H. apply consume_inv in H as (Hpeek & Htok & _).
  exists tok. split; [eapply peek_elem_of; eauto|]. split; [|reflexivity].
  unfold token_is in Htok. apply andb_prop in Htok as [Hty _].
  apply bool_decide_eq_true in Hty. exact Hty.
Qed.

Lemma parseParams_identifiers (fuel : nat) (params : list JS.value) (pos : nat)
    (params' : list JS.value) (pos' : nat) :
  Forall (identifier_of tokens) params ->
  parseParams tokens fuel params pos = Ok (params', pos') ->
  Forall (identifier_of tokens) params'.
Proof.
  revert params pos. induction fuel as [|fuel IH]; intros params pos Hparams;
    cbn [parseParams]; [discriminate|].
  destruct (match_ tokens IDENT None pos) as [[m pos1]|?|] eqn:Hm;
    cbn [mbind result_bind]; try discriminate.
  apply match__inv in Hm as (tok & Hpeek & Htok & ->).
  destruct m; [|intros [= <- <-]; exact Hparams].
  unfold previousValue. replace (S pos - 1) with pos by lia.
  destruct (tokens !! pos) as [t|] eqn:Hget; cbn [mbind result_bind]; [|discriminate].
  apply IH. apply Forall_app. split; [exact Hparams|]. constructor; [|constructor].
  rewrite (peek_lookup _ _ _ _ Hget Hpeek) in Htok.
  exists t. split; [eapply list_elem_of_lookup_2; eauto|]. split; [|reflexivity].
  unfold token_is in Htok. apply andb_prop in Htok as [Hty _].
  apply bool_decide_eq_true in Hty. exact Hty.
Qed.

Lemma parseStatement_shape (fuel : nat) (pos : nat) (s : statement) (pos' : nat) :
  parseStatement tokens f fuel pos = Ok (s, pos') ->
  Forall well_nested (statement_exprs s) /\
  Forall (identifier_of tokens) (statement_names s).
Proof.
  pose proof (parseExpression_nested tokens f fuel) as Hexpr.
  unfold parseStatement.
  destruct (peek tokens pos) as [tok|] eqn:Hpeek; [|discriminate].
  assert (Hdefault : forall r,
            r = parseExpression tokens f fuel pos ->
            ('(e, pos1) ← r; Ok (ExprStatement e (locFrom (OfNode (expr_loc e)) None), pos1))
              = Ok (s, pos') ->
            Forall well_nested (statement_exprs s) /\
            Forall (identifier_of tokens) (statement_names s)).
  { intros r ->.
    destruct (parseExpression tokens f fuel pos) as [[e pos1]|?|] eqn:He;
      cbn [mbind result_bind]; try discriminate.
    intros [= <- <-]. apply Hexpr in He as [He _]. simpl. auto. }
  destruct (Token.type tok); try (apply Hdefault; reflexivity); clear Hdefault.
  - unfold parsePrint.
    destruct (consume tokens f PRINT None pos) as [[start pos1]|?|];
      cbn [mbind result_bind]; try discriminate.
    destruct (parseExpression tokens f fuel pos1) as [[e pos2]|?|] eqn:He;
      cbn [mbind result_bind]; try discriminate.
    intros [= <- <-]. apply Hexpr in He as [He _]. simpl. auto.
  - unfold parseSet.
    destruct (consume tokens f SET None pos) as [[start pos1]|?|];
      cbn [mbind result_bind]; try discriminate.
    destruct (consume tokens f IDENT None pos1) as [[id pos2]|?|] eqn:Hid;
      cbn [mbind result_bind]; try discriminate.
    destruct (consume tokens f OP (Some "=") pos2) as [[eq pos3]|?|];
      cbn [mbind result_bind]; try discriminate.
    destruct (parseExpression tokens f fuel pos3) as [[e pos4]|?|] eqn:He;
      cbn [mbind result_bind]; try discriminate.
    intros [= <- <-]. apply Hexpr in He as [He _].
    apply consumed_identifier in Hid. simpl. auto.
  - unfold parseInput.
    destruct (consume tokens f INPUT None pos) as [[start pos1]|?|];
      cbn [mbind result_bind]; try discriminate.
    destruct (consume tokens f IDENT None pos1) as [[id pos2]|?|] eqn:Hid;
      cbn [mbind result_bind]; try discriminate.
    destruct (match_ tokens STRING None pos2) as [[m pos3]|?|];
      cbn [mbind result_bind]; try discriminate.
    destruct (if m then previousValue tokens pos3 else Ok JS.VNull) as [prompt|?|];
      cbn [mbind result_bind]; try discriminate.
    intros [= <- <-]. apply consumed_identifier in Hid. simpl. auto.
  - unfold parseIf.
    destruct (consume tokens f IF None pos) as [[start pos1]|?|];
      cbn [mbind result_bind]; try discriminate.
    destruct (parseExpression tokens f fuel pos1) as [[e pos2]|?|] eqn:He;
      cbn [mbind result_bind]; try discriminate.
    destruct (consume tokens f END None pos2) as [[? pos3]|?|];
      cbn [mbind result_bind]; try discriminate.
    intros [= <- <-]. apply Hexpr in He as [He _]. simpl. auto.
  - unfold parseLoop.
    destruct (consume tokens f LOOP None pos) as [[start pos1]|?|];
      cbn [mbind result_bind]; try discriminate.
    destruct (parseExpression tokens f fuel pos1) as [[e pos2]|?|] eqn:He;
      cbn [mbind result_bind]; try discriminate.
    destruct (consume tokens f END None pos2) as [[? pos3]|?|];
      cbn [mbind result_bind]; try discriminate.
    intros [= <- <-]. apply Hexpr in He as [He _]. simpl. auto.
  - unfold parseWhile.
    destruct (consume tokens f WHILE None pos) as [[start pos1]|?|];
      cbn [mbind result_bind]; try discriminate.
    destruct (parseExpression tokens f fuel pos1) as [[e pos2]|?|] eqn:He;
      cbn [mbind result_bind]; try discriminate.
    destruct (consume tokens f END None pos2) as [[? pos3]|?|];
      cbn [mbind result_bind]; try discriminate.
    intros [= <- <-]. apply Hexpr in He as [He _]. simpl. auto.
  - unfold parseFn.
    destruct (consume tokens f FN None pos) as [[start pos1]|?|];
      cbn [mbind result_bind]; try discriminate.
    destruct (consume tokens f IDENT None pos1) as [[id pos2]|?|] eqn:Hid;
      cbn [mbind result_bind]; try discriminate.
    destruct (parseParams tokens fuel [] pos2) as [[params pos3]|?|] eqn:Hparams;
      cbn [mbind result_bind]; try discriminate.
    destruct (consume tokens f END None pos3) as [[? pos4]|?|];
      cbn [mbind result_bind]; try discriminate.
    intros [= <- <-]. apply consumed_identifier in Hid.
    apply parseParams_identifiers in Hparams; [|constructor]. simpl. auto.
  - unfold parseReturn.
    destruct (consume tokens f RETURN None pos) as [[start pos1]|?|];
      cbn [mbind result_bind]; try discriminate.
    destruct (peek tokens pos1) as [tok1|]; [|discriminate].
    destruct (bool_decide (Token.type tok1 = EOF)).
    + intros [= <- <-]. simpl. auto.
    + destruct (parseExpression tokens f fuel pos1) as [[e pos2]|?|] eqn:He;
        cbn [mbind result_bind]; try discriminate.
      intros [= <- <-]. apply Hexpr in He as [He _]. simpl. auto.
Qed.

Lemma parseBody_shape (fuel : nat) (stmts : list statement) (pos : nat)
    (stmts' : list statement) :
  Forall (fun s => Forall well_nested (statement_exprs s) /\
                   Forall (identifier_of tokens) (statement_names s)) stmts ->
  parseBody tokens f fuel stmts pos = Ok stmts' ->
  Forall (fun s => Forall well_nested (statement_exprs s) /\
                   Forall (identifier_of tokens) (statement_names s)) stmts'.
Proof.
  revert stmts pos. induction fuel as [|fuel IH]; intros stmts pos Hstmts;
    cbn [parseBody]; [discriminate|].
  destruct (peek tokens pos) as [tok|]; [|discriminate].
  destruct (bool_decide (Token.type tok = EOF)); [intros [= <-]; exact Hstmts|].
  destruct (parseStatement tokens f fuel pos) as [[s pos1]|?|] eqn:Hs;
    cbn [mbind result_bind]; try discriminate.
  apply IH. apply Forall_app. split; [exact Hstmts|]. constructor; [|constructor].
  eapply parseStatement_shape. exact Hs.
Qed.

Lemma parse_shape (fuel : nat) (prog : Program) :
  parse fuel tokens f = Ok prog ->
  Forall (fun s => Forall well_nested (statement_exprs s) /\
                   Forall (identifier_of tokens) (statement_names s)) (body prog).
Proof.
  unfold parse.
  destruct (parseBody tokens f fuel [] 0) as [stmts|?|] eqn:Hbody;
    cbn [mbind result_bind]; try discriminate.
  intros [= <-]. simpl. eapply parseBody_shape; [constructor | exact Hbody].
Qed.

End Shape.

(** X9.  In every expression of a successful parse the operators are
    nested by precedence and chained to the left: the left operand of a
    binary operator is of the operator's level or tighter, the right
    operand strictly tighter, the operand of [!] or [-] is unary or
    primary, and every operator is one the evaluator knows; a looser
    expression only occurs inside parentheses. *)
Theorem parse_nests_by_precedence (fuel : nat) (tokens : list token) (f : string)
    (prog : Program) :
  parse fuel tokens f = Ok prog ->
  Forall (fun s => Forall well_nested (statement_exprs s)) (body prog).
Proof.
  intros H. apply parse_shape in H. eapply Forall_impl; [exact H|].
  intros s [Hs _]. exact Hs.
Qed.

(** [parse_nests_by_precedence] on [1 - 2 - 3 * 4 == 5]. *)
Lemma parse_nests_by_precedence_witness :
  exists toks l1 l2 l3 l4 l5 m1 m2 m3 m4 l,
    lex (source ["new qas"; "q.print 1 - 2 - 3 * 4 == 5"]) "f" = Ok toks /\
    parse 10 toks "f" =
      Ok (mkProgram
            [PrintStatement
               (BinaryExpression (JS.VStr "==")
                  (BinaryExpression (JS.VStr "-")
                     (BinaryExpression (JS.VStr "-")
                        (NumberLiteral (JS.VNum 1) l1) (NumberLiteral (JS.VNum 2) l2) m1)
                     (BinaryExpression (JS.VStr "*")
                        (NumberLiteral (JS.VNum 3) l3) (NumberLiteral (JS.VNum 4) l4) m2)
                     m3)
                  (NumberLiteral (JS.VNum 5) l5) m4) l]) /\
    Forall (fun s => Forall well_nested (statement_exprs s))
      [PrintStatement
         (BinaryExpression (JS.VStr "==")
            (BinaryExpression (JS.VStr "-")
               (BinaryExpression (JS.VStr "-")
                  (NumberLiteral (JS.VNum 1) l1) (NumberLiteral (JS.VNum 2) l2) m1)
               (BinaryExpression (JS.VStr "*")
                  (NumberLiteral (JS.VNum 3) l3) (NumberLiteral (JS.VNum 4) l4) m2)
               m3)
            (NumberLiteral (JS.VNum 5) l5) m4) l].
Proof.
  eexists _, _, _, _, _, _, _, _, _, _, _.
  split; [vm_compute; reflexivity|].
  match goal with
  | |- parse ?n ?t ?f = Ok ?p /\ _ =>
      assert (H : parse n t f = Ok p) by (vm_compute; reflexivity);
      split; [exact H | exact (parse_nests_by_precedence n t f p H)]
  end.
Defined.

(** ** Assignment and input *)

Lemma setVar_defined (rt : runtime) (name v : JS.value) :
  envStack rt <> [] ->
  exists frame,
    envStack rt !! (length (envStack rt) - 1) = Some frame /\
    setVar rt name v =
      Some (mkRuntime (<[ length (envStack rt) - 1 := <[ propertyKey name := v ]> frame ]>
                         (envStack rt)) (trace rt)).
Proof.
  intros Hne. unfold setVar.
  destruct (envStack rt !! (length (envStack rt) - 1)) as [frame|] eqn:Hlast; [eauto|].
  apply lookup_ge_None in Hlast. destruct (envStack rt); [congruence | simpl in Hlast; lia].
Qed.

Lemma getVarLoop_insert_same (stack : list (gmap string JS.value)) (i : nat)
    (frame : gmap string JS.value) (key : string) (v : JS.value) :
  i < length stack ->
  getVarLoop (<[ i := <[ key := v ]> frame ]> stack) (S i) key = Some v.
Proof.
  intros Hi. simpl. rewrite list_lookup_insert_eq by exact Hi.
  rewrite lookup_insert_eq. reflexivity.
Qed.

Lemma getVarLoop_insert_other (stack : list (gmap string JS.value)) (i : nat)
    (frame : gmap string JS.value) (key key' : string) (v : JS.value) (n : nat) :
  stack !! i = Some frame -> key' <> key ->
  getVarLoop (<[ i := <[ key := v ]> frame ]> stack) n key' = getVarLoop stack n key'.
Proof.
  intros Hframe Hne. induction n as [|n IH]; [reflexivity|]. simpl.
  destruct (decide (n = i)) as [->|Hni].
  - rewrite list_lookup_insert_eq by (eapply lookup_lt_Some; eauto).
    rewrite Hframe, lookup_insert_ne by congruence.
    rewrite IH. reflexivity.
  - rewrite list_lookup_insert_ne by congruence. rewrite IH. reflexivity.
Qed.

(** What [setVar] does to the stack and to later lookups. *)
Lemma setVar_lookup (rt : runtime) (name v : JS.value) :
  envStack rt <> [] ->
  exists rt',
    setVar rt name v = Some rt' /\
    trace rt' = trace rt /\
    length (envStack rt') = length (envStack rt) /\
    (forall j, j < length (envStack rt) - 1 -> envStack rt' !! j = envStack rt !! j) /\
    (forall l, getVar rt' name l = Fulfilled v) /\
    (forall other l, propertyKey other <> propertyKey name ->
                     getVar rt' other l = getVar rt other l).
Proof.
  intros Hne. destruct (setVar_defined rt name v Hne) as (frame & Hlast & ->).
  eexists. split; [reflexivity|]. simpl.
  pose proof (lookup_lt_Some _ _ _ Hlast) as Hlt.
  split; [reflexivity|]. split; [apply length_insert|]. split; [|split].
  - intros j Hj. apply list_lookup_insert_ne. lia.
  - intros l. unfold getVar. simpl. rewrite length_insert.
    replace (length (envStack rt)) with (S (length (envStack rt) - 1)) at 2 by lia.
    rewrite getVarLoop_insert_same by exact Hlt. reflexivity.
  - intros other l Hother. unfold getVar. simpl. rewrite length_insert.
    rewrite (getVarLoop_insert_other _ _ _ _ _ _ _ Hlast Hother). reflexivity.
Qed.

(** X10.  With at least one frame, a [SetStatement] whose value evaluates
    to [v] completes normally and binds the name in the innermost frame
    only: the frames below are untouched, the name evaluates to [v]
    afterwards, and every other name evaluates as before. *)
Theorem set_then_lookup (rt : runtime) (name : JS.value) (value : expr) (l : loc)
    (v : JS.value) (w : world) :
  envStack rt <> [] ->
  evalExpression value rt = Fulfilled v ->
  exists rt',
    evalStatement (SetStatement name value l) rt w =
      (Normal, rt', traced (SetStatement name value l) rt w) /\
    length (envStack rt') = length (envStack rt) /\
    (forall j, j < length (envStack rt) - 1 -> envStack rt' !! j = envStack rt !! j) /\
    (forall l', evalExpression (Identifier name l') rt' = Fulfilled v) /\
    (forall other l', propertyKey other <> propertyKey name ->
       evalExpression (Identifier other l') rt' = evalExpression (Identifier other l') rt).
Proof.
  intros Hne Hv.
  destruct (setVar_lookup rt name v Hne) as (rt' & Hset & _ & Hlen & Hbelow & Hsame & Hother).
  exists rt'. split; [|auto].
  unfold evalStatement. simpl. rewrite Hv. unfold assign. rewrite Hset. reflexivity.
Qed.

(** [set_then_lookup] on [set x = 7] in a stack whose two frames bind
    [x]: the global [x] stays 1, and [x] evaluates to 7. *)
Lemma set_then_lookup_witness :
  exists rt',
    evalStatement (SetStatement (JS.VStr "x") (NumberLiteral (JS.VNum 7) (at_ 2 9)) (at_ 2 1))
      two_frames (mkWorld [] []) = (Normal, rt', mkWorld [] []) /\
    envStack rt' !! 0 = Some {[ "print" := JS.VPrint; "x" := JS.VNum 1 ]} /\
    evalExpression (Identifier (JS.VStr "x") (at_ 3 7)) rt' = Fulfilled (JS.VNum 7).
Proof.
  destruct (set_then_lookup two_frames (JS.VStr "x") (NumberLiteral (JS.VNum 7) (at_ 2 9))
              (at_ 2 1) (JS.VNum 7) (mkWorld [] []))
    as (rt' & Heval & _ & Hbelow & Hsame & _).
  - discriminate.
  - reflexivity.
  - exists rt'. split; [exact Heval|]. split; [|apply Hsame].
    rewrite (Hbelow 0); [reflexivity | simpl; lia].
Defined.



(** ** What evaluation keeps *)

Lemma frames_kept_refl (rt : runtime) : frames_kept rt rt.
Proof. repeat split. Qed.

Lemma frames_kept_trans (rt1 rt2 rt3 : runtime) :
  frames_kept rt1 rt2 -> frames_kept rt2 rt3 -> frames_kept rt1 rt3.
Proof.
  intros (Ht1 & Hl1 & Hb1) (Ht2 & Hl2 & Hb2). split; [congruence|]. split; [congruence|].
  intros j Hj. rewrite Hb2 by (rewrite Hl1; exact Hj). apply Hb1, Hj.
Qed.

Lemma setVar_frames (rt rt' : runtime) (name v : JS.value) :
  setVar rt name v = Some rt' -> frames_kept rt rt'.
Proof.
  unfold setVar. destruct (envStack rt !! (length (envStack rt) - 1)); [|discriminate].
  intros [= <-]. split; [reflexivity|]. split; [apply length_insert|].
  intros j Hj. simpl. apply list_lookup_insert_ne. lia.
Qed.

Lemma assign_frames (rt rt' : runtime) (name v : JS.value) (w w' : world) (c : completion) :
  assign rt name v w = (c, rt', w') -> frames_kept rt rt' /\ w' = w.
Proof.
  unfold assign. destruct (setVar rt name v) as [rt1|] eqn:Hset; intros [= <- <- <-].
  - split; [eapply setVar_frames; eauto | reflexivity].
  - split; [apply frames_kept_refl | reflexivity].
Qed.

Lemma output_kept_refl (w : world) : output_kept w w.
Proof. exists []. symmetry. apply app_nil_r. Qed.

Lemma output_kept_trans (w1 w2 w3 : world) :
  output_kept w1 w2 -> output_kept w2 w3 -> output_kept w1 w3.
Proof.
  intros (out1 & Ho1) (out2 & Ho2). exists (out1 ++ out2).
  rewrite Ho2, Ho1, app_assoc. reflexivity.
Qed.

Lemma output_kept_write (w : world) (inp : list arrival) (o : output) :
  output_kept w (mkWorld inp (stdout w ++ [o])).
Proof. exists [o]. reflexivity. Qed.

Lemma traced_output (node : statement) (rt : runtime) (w : world) :
  output_kept w (traced node rt w).
Proof.
  unfold traced. destruct (trace rt); [apply output_kept_write | apply output_kept_refl].
Qed.

Lemma callPrint_output (rt : runtime) (v : JS.value) (w w' : world) (c : completion) :
  callPrint rt v w = (c, w') -> output_kept w w'.
Proof.
  unfold callPrint, callValue.
  destruct (envStack rt !! 0) as [globals|].
  - destruct (default JS.VUndefined (globals !! "print")); intros [= <- <-];
      first [apply output_kept_write | apply output_kept_refl].
  - intros [= <- <-]. apply output_kept_refl.
Qed.

Lemma execStatement_kept (node : statement) (rt rt' : runtime) (w w' : world)
    (c : completion) :
  execStatement node rt w = (c, rt', w') -> frames_kept rt rt' /\ output_kept w w'.
Proof.
  destruct node as [argument l|name value l|name prompt l|e l|argument l|tests alt l
                   |count body0 l|test body0 l|name params body0 l]; simpl.
  - destruct (evalExpression argument rt).
    + destruct (callPrint rt v w) as [c1 w1] eqn:Hprint. intros [= <- <- <-].
      split; [apply frames_kept_refl | eapply callPrint_output; eauto].
    + intros [= <- <- <-]. split; [apply frames_kept_refl | apply output_kept_refl].
  - destruct (evalExpression value rt).
    + intros Hassign. apply assign_frames in Hassign as (Hkept & ->).
      split; [exact Hkept | apply output_kept_refl].
    + intros [= <- <- <-]. split; [apply frames_kept_refl | apply output_kept_refl].
  - destruct (stdin w) as [|reached later].
    + intros [= <- <- <-]. split; [apply frames_kept_refl | apply output_kept_write].
    + intros Hassign. apply assign_frames in Hassign as (Hkept & ->).
      split; [exact Hkept | apply output_kept_write].
  - destruct (evalExpression e rt); intros [= <- <- <-];
      (split; [apply frames_kept_refl | apply output_kept_refl]).
  - destruct argument as [a|]; [destruct (evalExpression a rt)|]; intros [= <- <- <-];
      (split; [apply frames_kept_refl | apply output_kept_refl]).
  - intros [= <- <- <-]. split; [apply frames_kept_refl | apply output_kept_refl].
  - intros [= <- <- <-]. split; [apply frames_kept_refl | apply output_kept_refl].
  - intros [= <- <- <-]. split; [apply frames_kept_refl | apply output_kept_refl].
  - intros [= <- <- <-]. split; [apply frames_kept_refl | apply output_kept_refl].
Qed.

Lemma evalStatement_kept (node : statement) (rt rt' : runtime) (w w' : world)
    (c : completion) :
  evalStatement node rt w = (c, rt', w') -> frames_kept rt rt' /\ output_kept w w'.
Proof.
  unfold evalStatement. intros Hexec. apply execStatement_kept in Hexec as (Hkept & Hout).
  split; [exact Hkept|]. eapply output_kept_trans; [apply traced_output | exact Hout].
Qed.

(** X12.  Whatever the statements and however their evaluation ends, it
    keeps the [trace] option, the number of frames and every frame below
    the innermost (only [set] and [input] write, and only to the
    innermost frame), and what was written before it is kept, what it
    writes coming after. *)
Theorem evaluation_keeps_frames (stmts : list statement) (rt rt' : runtime) (w w' : world)
    (c : completion) :
  evalStatements stmts rt w = (c, rt', w') ->
  frames_kept rt rt' /\ output_kept w w'.
Proof.
  revert rt w. induction stmts as [|stmt rest IH]; intros rt w; simpl.
  - intros [= <- <- <-]. split; [apply frames_kept_refl | apply output_kept_refl].
  - destruct (evalStatement stmt rt w) as [[c1 rt1] w1] eqn:Hstmt.
    apply evalStatement_kept in Hstmt as (Hkept & Hout).
    destruct c1; try (intros [= <- <- <-]; split; assumption).
    intros Hrest. apply IH in Hrest as (Hkept' & Hout').
    split; [eapply frames_kept_trans; eauto | eapply output_kept_trans; eauto].
Qed.

(** [evaluation_keeps_frames] on [input a 'a? '], [set x = 7],
    [input b], [print x] when one line reaches the first interface and
    none the second, from two frames and with the trace on. *)
Lemma evaluation_keeps_frames_witness :
  exists rt' w',
    evalStatements
      [InputStatement (JS.VStr "a") (JS.VStr "a? ") (at_ 2 1);
       SetStatement (JS.VStr "x") (NumberLiteral (JS.VNum 7) (at_ 3 9)) (at_ 3 1);
       InputStatement (JS.VStr "b") JS.VNull (at_ 4 1);
       PrintStatement (Identifier (JS.VStr "x") (at_ 5 7)) (at_ 5 1)]
      (mkRuntime (envStack two_frames) true) (mkWorld [mkArrival "yes" []] [Log JS.VNull])
      = (Awaiting, rt', w') /\
    frames_kept (mkRuntime (envStack two_frames) true) rt' /\
    output_kept (mkWorld [mkArrival "yes" []] [Log JS.VNull]) w'.
Proof.
  eexists _, _. split; [vm_compute; reflexivity|].
  apply (evaluation_keeps_frames
           [InputStatement (JS.VStr "a") (JS.VStr "a? ") (at_ 2 1);
            SetStatement (JS.VStr "x") (NumberLiteral (JS.VNum 7) (at_ 3 9)) (at_ 3 1);
            InputStatement (JS.VStr "b") JS.VNull (at_ 4 1);
            PrintStatement (Identifier (JS.VStr "x") (at_ 5 7)) (at_ 5 1)]
           (mkRuntime (envStack two_frames) true) _
           (mkWorld [mkArrival "yes" []] [Log JS.VNull]) _ Awaiting).
  vm_compute. reflexivity.
Defined.

(** ** Programs that come from source text *)

Lemma evalBinary_level (op l r : JS.value) (n : nat) :
  opLevel op = Some n -> exists v, evalBinary op l r = Fulfilled v.
Proof.
  destruct op as [| |b|x|s|]; try discriminate. unfold opLevel.
  repeat match goal with
         | |- context [String.eqb s ?x] =>
             destruct (String.eqb s x) eqn:Heq;
             [apply String.eqb_eq in Heq; subst s; intros _; simpl; eauto | clear Heq]
         end.
  discriminate.
Qed.

Lemma evalExpression_nested (rt : runtime) (e : expr) :
  well_nested e ->
  forall err, evalExpression e rt = Rejected err -> undefined_variable err.
Proof.
  induction e as [v l|v l|name l|op argument IH l|op lhs IHl rhs IHr l|inner IH l];
    simpl; intros Hnested err.
  - discriminate.
  - discriminate.
  - unfold getVar. destruct (getVarLoop _ _ _); [discriminate|].
    intros [= <-]. eexists _, _, _. reflexivity.
  - destruct Hnested as (Hop & _ & Harg).
    destruct (evalExpression argument rt) as [v|err1]; simpl.
    + destruct Hop as [-> | ->]; discriminate.
    + intros [= <-]. apply IH; auto.
  - destruct Hnested as ((n & Hop & _) & Hl & Hr).
    destruct (evalExpression lhs rt) as [vl|err1]; simpl.
    + destruct (evalExpression rhs rt) as [vr|err2]; simpl.
      * destruct (evalBinary_level op vl vr n Hop) as (v & ->). discriminate.
      * intros [= <-]. apply IHr; auto.
    + intros [= <-]. apply IHl; auto.
  - apply IH, Hnested.
Qed.

Lemma lex_tokens_shaped (src f : string) (tokens : list token) :
  lex src f = Ok tokens -> Forall token_shaped tokens.
Proof.
  unfold lex. pose proof (lexLines_tokens (splitLines src) 1 false [] f (le_n 1)) as H.
  destruct (lexLines (splitLines src) 1 false [] f) as [front|err|]; simpl;
    try discriminate.
  destruct H as (added & -> & Hall & _). intros [= <-]. simpl.
  apply Forall_app. split.
  - eapply Forall_impl; [exact Hall|]. intros t Ht. apply Ht.
  - constructor; [reflexivity | constructor].
Qed.

Lemma identifier_plain (tokens : list token) (name : JS.value) :
  Forall token_shaped tokens -> identifier_of tokens name -> plain_name name.
Proof.
  intros Hall (tok & Hin & Htype & <-).
  rewrite Forall_forall in Hall. specialize (Hall tok Hin).
  unfold token_shaped in Hall. rewrite Htype in Hall. exact Hall.
Qed.

Lemma setVar_global (rt : runtime) (name v : JS.value) :
  global_only rt -> plain_name name ->
  exists rt', setVar rt name v = Some rt' /\ global_only rt'.
Proof.
  intros (globals & Hstack & Hprint) (s & -> & Hident).
  unfold setVar. rewrite Hstack. simpl. eexists. split; [reflexivity|].
  eexists. split; [reflexivity|].
  rewrite lookup_insert_ne; [exact Hprint|].
  intros Heq. change (s = "print") in Heq. subst s. discriminate.
Qed.

Lemma callPrint_global (rt : runtime) (v : JS.value) (w : world) :
  global_only rt ->
  callPrint rt v w = (Normal, mkWorld (stdin w) (stdout w ++ [Log v])).
Proof.
  intros (globals & Hstack & Hprint). unfold callPrint. rewrite Hstack. simpl.
  rewrite Hprint. reflexivity.
Qed.

Lemma evalStatement_safe (node : statement) (rt rt' : runtime) (w w' : world)
    (c : completion) :
  Forall well_nested (statement_exprs node) ->
  Forall plain_name (statement_names node) ->
  global_only rt ->
  evalStatement node rt w = (c, rt', w') ->
  global_only rt' /\ match c with Thrown e => undefined_variable e | _ => True end.
Proof.
  intros Hexprs Hnames Hglobal. unfold evalStatement.
  generalize (traced node rt w). intros w1.
  destruct node as [argument l|name value l|name prompt l|e l|argument l|tests alt l
                   |count body0 l|test body0 l|name params body0 l]; simpl in *.
  - apply Forall_cons in Hexprs as (Hnested & _).
    destruct (evalExpression argument rt) as [v|err] eqn:Heval.
    + rewrite callPrint_global by exact Hglobal. intros [= <- <- <-]. auto.
    + intros [= <- <- <-]. split; [exact Hglobal|]. eapply evalExpression_nested; eauto.
  - apply Forall_cons in Hexprs as (Hnested & _). apply Forall_cons in Hnames as (Hname & _).
    destruct (evalExpression value rt) as [v|err] eqn:Heval.
    + unfold assign. destruct (setVar_global rt name v Hglobal Hname) as (rt1 & -> & Hrt1).
      intros [= <- <- <-]. auto.
    + intros [= <- <- <-]. split; [exact Hglobal|]. eapply evalExpression_nested; eauto.
  - apply Forall_cons in Hnames as (Hname & _).
    destruct (stdin w1) as [|reached later].
    + intros [= <- <- <-]. auto.
    + unfold assign.
      destruct (setVar_global rt name (JS.VStr (answered reached)) Hglobal Hname)
        as (rt1 & -> & Hrt1).
      intros [= <- <- <-]. auto.
  - apply Forall_cons in Hexprs as (Hnested & _).
    destruct (evalExpression e rt) as [v|err] eqn:Heval; intros [= <- <- <-].
    + auto.
    + split; [exact Hglobal|]. eapply evalExpression_nested; eauto.
  - destruct argument as [a|].
    + apply Forall_cons in Hexprs as (Hnested & _).
      destruct (evalExpression a rt) as [v|err] eqn:Heval; intros [= <- <- <-].
      * auto.
      * split; [exact Hglobal|]. eapply evalExpression_nested; eauto.
    + intros [= <- <- <-]. auto.
  - intros [= <- <- <-]. auto.
  - intros [= <- <- <-]. auto.
  - intros [= <- <- <-]. auto.
  - intros [= <- <- <-]. auto.
Qed.

Lemma evalStatements_safe (stmts : list statement) (rt rt' : runtime) (w w' : world)
    (c : completion) :
  Forall (fun s => Forall well_nested (statement_exprs s) /\
                   Forall plain_name (statement_names s)) stmts ->
  global_only rt ->
  evalStatements stmts rt w = (c, rt', w') ->
  global_only rt' /\ match c with Thrown e => undefined_variable e | _ => True end.
Proof.
  revert rt w. induction stmts as [|stmt rest IH]; intros rt w Hall Hglobal; simpl.
  - intros [= <- <- <-]. auto.
  - apply Forall_cons in Hall as ((Hexprs & Hnames) & Hrest).
    destruct (evalStatement stmt rt w) as [[c1 rt1] w1] eqn:Hstmt.
    apply (evalStatement_safe _ _ _ _ _ _ Hexprs Hnames Hglobal) in Hstmt as (Hrt1 & Hc1).
    destruct c1; try (intros [= <- <- <-]; auto).
    apply IH; assumption.
Qed.

(** X13.  A program obtained by tokenizing and parsing a source text, run
    from a fresh runtime, never fails inside the host: no operator is
    unknown to the evaluator, [print] is always the built-in (no [set] can
    rebind it, since its name is a keyword), and there is always a frame
    to assign to.  The only exception evaluation can raise is the
    [Undefined variable] error of [getVar], and the runtime still has the
    global frame only, with [print] bound to the built-in, when it ends. *)
Theorem source_program_is_safe (src f : string) (tokens : list token) (fuel : nat)
    (prog : Program) (tr : bool) (w w' : world) (c : completion) (rt' : runtime) :
  lex src f = Ok tokens ->
  parse fuel tokens f = Ok prog ->
  evalProgram prog (createRuntime tr) w = (c, rt', w') ->
  global_only rt' /\ match c with Thrown e => undefined_variable e | _ => True end.
Proof.
  intros Hlex Hparse. unfold evalProgram. apply evalStatements_safe.
  - apply lex_tokens_shaped in Hlex. apply parse_shape in Hparse.
    eapply Forall_impl; [exact Hparse|]. intros s (Hexprs & Hnames). split; [exact Hexprs|].
    eapply Forall_impl; [exact Hnames|]. intros name. apply identifier_plain, Hlex.
  - eexists. split; [reflexivity|]. reflexivity.
Qed.

(** [source_program_is_safe] on a program that assigns, prints and then
    reads a name that was never set. *)
Lemma source_program_is_safe_witness :
  exists tokens prog rt' w' e,
    lex (source ["new qas"; "q.set x = 2 * 3"; "q.print x + 1"; "q.print y"]) "f" = Ok tokens /\
    parse 20 tokens "f" = Ok prog /\
    evalProgram prog (createRuntime false) (mkWorld [] []) = (Thrown e, rt', w') /\
    stdout w' = [Log (JS.VNum 7)] /\
    global_only rt' /\ undefined_variable e.
Proof.
  eexists _, _, _, _, _.
  split; [vm_compute; reflexivity|].
  split; [vm_compute; reflexivity|].
  split; [vm_compute; reflexivity|].
  split; [reflexivity|].
  exact (source_program_is_safe
           (source ["new qas"; "q.set x = 2 * 3"; "q.print x + 1"; "q.print y"]) "f" _ 20 _
           false (mkWorld [] []) _ (Thrown _) _ eq_refl eq_refl eq_refl).
Defined.

(** ** Where the parser's errors stand *)

Section Placed.
Variable tokens : list token.
Variable f : string.

Lemma bind_placed {A B : Type} (r : result A) (k : A -> result B) :
  placed_error f tokens r -> (forall x, placed_error f tokens (k x)) ->
  placed_error f tokens (mbind k r).
Proof. destruct r as [x|e|]; cbn [mbind result_bind]; auto. Qed.

Lemma match__placed (ty : tokenType) (v : option string) (pos : nat) :
  placed_error f tokens (match_ tokens ty v pos).
Proof.
  unfold match_. destruct (peek tokens pos) as [tok|]; [|exact I].
  destruct (token_is tok ty v); exact I.
Qed.

Lemma matchOp_placed (values : list string) (pos : nat) :
  placed_error f tokens (matchOp tokens values pos).
Proof.
  revert pos. induction values as [|v rest IH]; intros pos; [exact I|].
  cbn [matchOp]. apply bind_placed; [apply match__placed|].
  intros [m pos1]. destruct m; [exact I | apply IH].
Qed.

Lemma previousValue_placed (pos : nat) : placed_error f tokens (previousValue tokens pos).
Proof. unfold previousValue. destruct (tokens !! (pos - 1)); exact I. Qed.

Lemma consume_placed (ty : tokenType) (v : option string) (pos : nat) :
  placed_error f tokens (consume tokens f ty v pos).
Proof.
  unfold consume. destruct (peek tokens pos) as [tok|] eqn:Hpeek; [|exact I].
  destruct (token_is tok ty v); [exact I|].
  unfold throwQast, placed_error, parse_error_at. cbn [file hint line column message].
  split; [reflexivity|]. split; [reflexivity|].
  exists tok. split; [eapply peek_elem_of; eauto|].
  split; [reflexivity|]. split; [reflexivity|]. right. eexists _, _. reflexivity.
Qed.

Lemma binaryLoop_placed (values : list string) (operand : nat -> result (expr * nat))
    (fuel : nat) :
  (forall pos, placed_error f tokens (operand pos)) ->
  forall e pos, placed_error f tokens (binaryLoop tokens values operand fuel e pos).
Proof.
  intros Hop. induction fuel as [|fuel IH]; intros e pos; [exact I|].
  cbn [binaryLoop]. apply bind_placed; [apply matchOp_placed|].
  intros [m pos1]. destruct m; [|exact I].
  apply bind_placed; [apply previousValue_placed|]. intros op.
  apply bind_placed; [apply Hop|]. intros [rhs pos2]. apply IH.
Qed.

Lemma binaryLevel_placed (values : list string) (operand : nat -> result (expr * nat))
    (fuel : nat) :
  (forall pos, placed_error f tokens (operand pos)) ->
  forall pos, placed_error f tokens (binaryLevel tokens values operand fuel pos).
Proof.
  intros Hop pos. unfold binaryLevel. apply bind_placed; [apply Hop|].
  intros [e pos1]. apply binaryLoop_placed, Hop.
Qed.

Lemma parseEqualityOver_placed (unary : nat -> result (expr * nat)) (fuel : nat) :
  (forall pos, placed_error f tokens (unary pos)) ->
  forall pos, placed_error f tokens (parseEqualityOver tokens unary fuel pos).
Proof.
  intros Hunary. unfold parseEqualityOver, parseComparisonOver, parseTermOver, parseFactorOver.
  repeat apply binaryLevel_placed. exact Hunary.
Qed.

Lemma parsePrimary_placed (parseExpression : nat -> result (expr * nat)) :
  (forall pos, placed_error f tokens (parseExpression pos)) ->
  forall pos, placed_error f tokens (parsePrimary tokens f parseExpression pos).
Proof.
  intros Hexpr pos. unfold parsePrimary.
  destruct (peek tokens pos) as [tok|] eqn:Hpeek; [|exact I].
  apply bind_placed; [apply match__placed|]. intros [number pos1].
  destruct number; [exact I|].
  apply bind_placed; [apply match__placed|]. intros [string pos2].
  destruct string; [exact I|].
  apply bind_placed; [apply match__placed|]. intros [ident pos3].
  destruct ident; [exact I|].
  apply bind_placed; [apply match__placed|]. intros [paren pos4].
  destruct paren.
  - apply bind_placed; [apply Hexpr|]. intros [e pos5].
    apply bind_placed; [apply consume_placed|]. intros [closing pos6]. exact I.
  - unfold throwQast, placed_error, parse_error_at. cbn [file hint line column message].
    split; [reflexivity|]. split; [reflexivity|].
    exists tok. split; [eapply peek_elem_of; eauto|].
    split; [reflexivity|]. split; [reflexivity|]. left. reflexivity.
Qed.

Lemma parseUnary_placed (fuel : nat) (pos : nat) :
  placed_error f tokens (parseUnary tokens f fuel pos).
Proof.
  revert pos. induction fuel as [|fuel IH]; intros pos; [exact I|].
  cbn [parseUnary]. apply bind_placed; [apply matchOp_placed|].
  intros [m pos1]. destruct m.
  - apply bind_placed; [apply previousValue_placed|]. intros op.
    apply bind_placed; [apply IH|]. intros [rhs pos2].
    destruct (tokens !! (pos2 - 1)); exact I.
  - apply parsePrimary_placed, parseEqualityOver_placed, IH.
Qed.

Lemma parseExpression_placed (fuel : nat) (pos : nat) :
  placed_error f tokens (parseExpression tokens f fuel pos).
Proof. apply parseEqualityOver_placed, parseUnary_placed. Qed.

Lemma parseParams_placed (fuel : nat) (params : list JS.value) (pos : nat) :
  placed_error f tokens (parseParams tokens fuel params pos).
Proof.
  revert params pos. induction fuel as [|fuel IH]; intros params pos; [exact I|].
  cbn [parseParams]. apply bind_placed; [apply match__placed|].
  intros [m pos1]. destruct m; [|exact I].
  apply bind_placed; [apply previousValue_placed|]. intros v. apply IH.
Qed.

Ltac placed_calls :=
  repeat first
    [ exact I
    | apply bind_placed;
      [ first [ apply consume_placed | apply parseExpression_placed | apply match__placed
              | apply parseParams_placed | apply previousValue_placed ]
      | intros [? ?] ]
    | apply bind_placed; [| intros ? ] ].

Lemma parseStatement_placed (fuel : nat) (pos : nat) :
  placed_error f tokens (parseStatement tokens f fuel pos).
Proof.
  unfold parseStatement. destruct (peek tokens pos) as [tok|]; [|exact I].
  destruct (Token.type tok);
    unfold parsePrint, parseSet, parseInput, parseIf, parseLoop, parseWhile, parseFn,
      parseReturn.
  all: try (placed_calls; fail).
  - apply bind_placed; [apply consume_placed|]. intros [start pos1].
    apply bind_placed; [apply consume_placed|]. intros [id pos2].
    apply bind_placed; [apply match__placed|]. intros [m pos3].
    apply bind_placed; [|intros prompt; exact I].
    destruct m; [apply previousValue_placed | exact I].
  - apply bind_placed; [apply consume_placed|]. intros [start pos1].
    destruct (peek tokens pos1) as [next|]; [|exact I].
    destruct (bool_decide (Token.type next = EOF)); [exact I|]. placed_calls.
Qed.

Lemma parseBody_placed (fuel : nat) (body0 : list statement) (pos : nat) :
  placed_error f tokens (parseBody tokens f fuel body0 pos).
Proof.
  revert body0 pos. induction fuel as [|fuel IH]; intros body0 pos; [exact I|].
  cbn [parseBody]. destruct (peek tokens pos) as [tok|]; [|exact I].
  destruct (bool_decide (Token.type tok = EOF)); [exact I|].
  apply bind_placed; [apply parseStatement_placed|]. intros [s pos1]. apply IH.
Qed.

Lemma parse_placed (fuel : nat) : placed_error f tokens (parse fuel tokens f).
Proof.
  unfold parse. apply bind_placed; [apply parseBody_placed|]. intros body0. exact I.
Qed.

End Placed.

(** X14.  A [QastError] thrown by the parser names the file given to
    [parse], has no hint, and carries the line and the column of a token
    of the array; its message is [Unexpected token] with that token's
    type, or [Expected ... but found] with that token's type. *)
Theorem parse_errors_stand_at_tokens (fuel : nat) (tokens : list token) (f : string)
    (q : QastError) :
  parse fuel tokens f = Throw (Qast q) -> parse_error_at f tokens q.
Proof.
  intros Hparse. pose proof (parse_placed tokens f fuel) as H.
  rewrite Hparse in H. exact H.
Qed.

(** [parse_errors_stand_at_tokens] on [set x 5], where [=] is missing. *)
Lemma parse_errors_stand_at_tokens_witness :
  exists tokens q,
    lex (source ["new qas"; "q.set x 5"]) "f" = Ok tokens /\
    parse 10 tokens "f" = Throw (Qast q) /\
    message q = "Expected OP(=) but found NUMBER 5" /\
    parse_error_at "f" tokens q.
Proof.
  eexists _, _. split; [vm_compute; reflexivity|].
  match goal with
  | |- parse ?n ?t ?f = Throw (Qast ?q) /\ _ =>
      assert (H : parse n t f = Throw (Qast q)) by (vm_compute; reflexivity);
      split; [exact H|]; split;
      [vm_compute; reflexivity | exact (parse_errors_stand_at_tokens n t f q H)]
  end.
Defined.

(** ** From source text to a program *)

Lemma lex_tokens (src f : string) (tokens : list token) :
  lex src f = Ok tokens ->
  exists front,
    tokens = front ++ [Token.mk EOF JS.VNull (length (splitLines src)) 1 f] /\
    Forall (token_placed f 1 (S (length (splitLines src)))) front /\
    StronglySorted before front.
Proof.
  unfold lex. pose proof (lexLines_tokens (splitLines src) 1 false [] f (le_n 1)) as H.
  destruct (lexLines (splitLines src) 1 false [] f) as [front|err|]; simpl;
    try discriminate.
  destruct H as (added & -> & Hall & Hsorted). intros [= <-]. simpl. eauto.
Qed.

(** X15.  The parser always ends on the tokens of a source text, with
    fuel above their number: either with a program, or with a
    [QastError] that names the file, has no hint, and stands at a line
    of the source text (counted from 1) and a column of at least 1.  It
    never fails inside the host on them. *)
Theorem source_parse_outcome (src f : string) (tokens : list token) (fuel : nat) :
  lex src f = Ok tokens ->
  length tokens < fuel ->
  (exists prog, parse fuel tokens f = Ok prog) \/
  (exists q, parse fuel tokens f = Throw (Qast q) /\
             file q = Some f /\ hint q = None /\
             1 <= line q <= length (splitLines src) /\ 1 <= column q).
Proof.
  intros Hlex Hfuel. apply lex_tokens in Hlex as (front & -> & Hplaced & _).
  set (eof := Token.mk EOF JS.VNull (length (splitLines src)) 1 f) in *.
  assert (Heof : (front ++ [eof]) !! length front = Some eof).
  { rewrite lookup_app_r by lia. rewrite Nat.sub_diag. reflexivity. }
  destruct (parse_stops (front ++ [eof]) f (length front) eof Heof eq_refl fuel)
    as [Hok | (q & Hq)].
  - rewrite length_app in Hfuel. simpl in Hfuel. lia.
  - left. exact Hok.
  - right. exists q. split; [exact Hq|].
    pose proof (parse_placed (front ++ [eof]) f fuel) as H. rewrite Hq in H.
    destruct H as (Hfile & Hhint & tok & Hin & -> & -> & _).
    split; [exact Hfile|]. split; [exact Hhint|].
    apply elem_of_app in Hin as [Hin | Hin].
    + rewrite Forall_forall in Hplaced. destruct (Hplaced tok Hin) as (_ & Hline & Hcol & _).
      split; lia.
    + apply list_elem_of_singleton in Hin. subst tok. simpl.
      pose proof (splitLines_nonempty src). split; lia.
Qed.

(** [source_parse_outcome] on a source whose third line lacks the value
    of the assignment. *)
Lemma source_parse_outcome_witness :
  exists tokens q,
    lex (source ["new qas"; "q.print 1"; "q.set x ="]) "f" = Ok tokens /\
    parse 10 tokens "f" = Throw (Qast q) /\
    line q = 3 /\ column q = 1 /\
    ((exists prog, parse 10 tokens "f" = Ok prog) \/
     (exists q', parse 10 tokens "f" = Throw (Qast q') /\
                 file q' = Some "f" /\ hint q' = None /\
                 1 <= line q' <= 3 /\ 1 <= column q')).
Proof.
  eexists _, _. split; [vm_compute; reflexivity|].
  split; [vm_compute; reflexivity|].
  split; [reflexivity|]. split; [reflexivity|].
  apply (source_parse_outcome (source ["new qas"; "q.print 1"; "q.set x ="]) "f" _ 10 eq_refl).
  simpl. lia.
Defined.

(** ** Words and numbers *)

Lemma spanLength_every (p : ascii -> bool) (s : string) :
  every p s = true -> spanLength p s = String.length s.
Proof.
  induction s as [|c r IH]; simpl; [reflexivity|].
  intros H. apply andb_true_iff in H as (-> & Hr). rewrite IH by exact Hr. reflexivity.
Qed.

Lemma sliceFrom_0 (s : string) : JS.sliceFrom s 0 = s.
Proof. unfold JS.sliceFrom. rewrite Nat.sub_0_r. apply substring_full. Qed.

Lemma slice_full (s : string) : JS.slice s 0 (0 + String.length s) = s.
Proof.
  unfold JS.slice. rewrite Nat.add_0_l, Nat.min_id, Nat.sub_0_r. apply substring_full.
Qed.

Lemma isIdentStart_class (c : ascii) :
  JS.isIdentStart c = true ->
  JS.isSpace c = false /\ (Ascii.eqb c "034" || Ascii.eqb c "039") = false /\
  JS.isDigit c = false /\ isIdentChar c = true.
Proof.
  destruct c as [[] [] [] [] [] [] [] []]; vm_compute; intros H;
    first [discriminate H | repeat split].
Qed.

Lemma isDigit_class (c : ascii) :
  JS.isDigit c = true ->
  JS.isSpace c = false /\ (Ascii.eqb c "034" || Ascii.eqb c "039") = false /\
  isNumberChar c = true.
Proof.
  destruct c as [[] [] [] [] [] [] [] []]; vm_compute; intros H;
    first [discriminate H | repeat split].
Qed.

(** X16.  A text made of one word (a letter or underscore, then letters,
    digits and underscores) is one token at column 1 whose value is the
    whole word: a keyword token when the word is a keyword, and an
    [IDENT] otherwise, also when the word starts with a keyword. *)
Theorem word_is_one_token (c : ascii) (r : string) (tokens : list token) (f : string)
    (ln : nat) :
  JS.isIdentStart c = true ->
  every isIdentChar r = true ->
  tokenizeStatement (String c r) tokens f ln
  = Ok (tokens ++ [Token.mk (keywordOrIdent (String c r)) (JS.VStr (String c r)) ln 1 f]).
Proof.
  intros Hstart Hrest.
  destruct (isIdentStart_class c Hstart) as (Hspace & Hquote & Hdigit & Hc).
  remember (String c r) as text eqn:Htext.
  assert (Hget : String.get 0 text = Some c) by (subst text; reflexivity).
  assert (Hall : every isIdentChar text = true).
  { subst text. simpl. rewrite Hc. exact Hrest. }
  assert (Hlen : String.length text = S (String.length r)) by (subst text; reflexivity).
  unfold tokenizeStatement. rewrite Hlen. cbn [tokenizeLoop].
  rewrite Hget, Hspace, Hquote, Hdigit, Hstart. unfold readIdent.
  rewrite sliceFrom_0, (spanLength_every _ _ Hall), slice_full.
  rewrite Nat.add_0_l, get_length. reflexivity.
Qed.

(** [word_is_one_token] on [printx], which starts with a keyword. *)
Lemma word_is_one_token_witness :
  tokenizeStatement "printx" [] "f" 2 = Ok [Token.mk IDENT (JS.VStr "printx") 2 1 "f"].
Proof. exact (word_is_one_token "p" "rintx" [] "f" 2 eq_refl eq_refl). Defined.

(** X17.  A text made of a digit followed by digits and dots is one
    [NUMBER] token at column 1, whose value is the text converted as
    [Number] converts it: with more than one dot the value is [NaN], and
    the tokenizer does not fail. *)
Theorem digits_are_one_number (c : ascii) (r : string) (tokens : list token) (f : string)
    (ln : nat) :
  JS.isDigit c = true ->
  every isNumberChar r = true ->
  tokenizeStatement (String c r) tokens f ln
  = Ok (tokens ++ [Token.mk NUMBER (JS.VNum (JS.stringToNumber (String c r))) ln 1 f]).
Proof.
  intros Hdigit Hrest.
  destruct (isDigit_class c Hdigit) as (Hspace & Hquote & Hc).
  remember (String c r) as text eqn:Htext.
  assert (Hget : String.get 0 text = Some c) by (subst text; reflexivity).
  assert (Hall : every isNumberChar text = true).
  { subst text. simpl. rewrite Hc. exact Hrest. }
  assert (Hlen : String.length text = S (String.length r)) by (subst text; reflexivity).
  unfold tokenizeStatement. rewrite Hlen. cbn [tokenizeLoop].
  rewrite Hget, Hspace, Hquote, Hdigit. unfold readNumber.
  rewrite sliceFrom_0, (spanLength_every _ _ Hall), slice_full.
  rewrite Nat.add_0_l, get_length. reflexivity.
Qed.

(** [digits_are_one_number] on [1.2.3], which [Number] converts to
    [NaN]. *)
Lemma digits_are_one_number_witness :
  tokenizeStatement "1.2.3" [] "f" 2 = Ok [Token.mk NUMBER (JS.VNum nan) 2 1 "f"].
Proof. exact (digits_are_one_number "1" ".2.3" [] "f" 2 eq_refl eq_refl). Defined.

(** ** The command line *)







(** ** The operator the tokenizer does not know *)

Ltac called :=
  match goal with
  | |- context [mbind _ ?r] =>
      match type of r with
      | result (_ * _)%type => destruct r as [[? ?]|?|] eqn:?
      | _ => destruct r as [?|?|] eqn:?
      end; cbn [mbind result_bind]; try discriminate
  end.

Section Expressions.
Variable tokens : list token.
Variable f : string.

Lemma parseStatement_exprs (fuel : nat) (pos : nat) (s : statement) (pos' : nat) :
  parseStatement tokens f fuel pos = Ok (s, pos') ->
  Forall (parsed_expression tokens f) (statement_exprs s).
Proof.
  unfold parseStatement.
  destruct (peek tokens pos) as [tok|] eqn:Hpeek; [|discriminate].
  destruct (Token.type tok);
    unfold parsePrint, parseSet, parseInput, parseIf, parseLoop, parseWhile, parseFn,
      parseReturn.
  all: try (repeat called; intros [= <- <-]; simpl; repeat constructor;
            eexists _, _, _; eassumption).
  called. destruct (peek tokens n) as [tok1|]; [|discriminate].
  destruct (bool_decide (Token.type tok1 = EOF)).
  - intros [= <- <-]. constructor.
  - called. intros [= <- <-]. simpl. repeat constructor. eexists _, _, _; eassumption.
Qed.

Lemma parseBody_exprs (fuel : nat) (stmts : list statement) (pos : nat)
    (stmts' : list statement) :
  Forall (fun s => Forall (parsed_expression tokens f) (statement_exprs s)) stmts ->
  parseBody tokens f fuel stmts pos = Ok stmts' ->
  Forall (fun s => Forall (parsed_expression tokens f) (statement_exprs s)) stmts'.
Proof.
  revert stmts pos. induction fuel as [|fuel IH]; intros stmts pos Hstmts;
    cbn [parseBody]; [discriminate|].
  destruct (peek tokens pos) as [tok|]; [|discriminate].
  destruct (bool_decide (Token.type tok = EOF)); [intros [= <-]; exact Hstmts|].
  destruct (parseStatement tokens f fuel pos) as [[s pos1]|?|] eqn:Hs;
    cbn [mbind result_bind]; try discriminate.
  apply IH. apply Forall_app. split; [exact Hstmts|]. constructor; [|constructor].
  eapply parseStatement_exprs; eauto.
Qed.

Hypothesis Hbang :
  Forall (fun t => Token.type t = OP -> Token.value t <> JS.VStr "!") tokens.

Lemma matched_minus (pos pos1 : nat) (op : JS.value) :
  matchOp tokens ["!"; "-"] pos = Ok (true, pos1) ->
  previousValue tokens pos1 = Ok op ->
  op = JS.VStr "-".
Proof.
  intros Hm Hprev. destruct (matched_value _ _ _ _ _ Hm Hprev) as (v & Hin & ->).
  apply matchOp_inv in Hm as (-> & tok & v' & Hpeek & Hin' & Htok).
  unfold previousValue in Hprev. replace (S pos - 1) with pos in Hprev by lia.
  destruct (tokens !! pos) as [t|] eqn:Hget; [|discriminate].
  injection Hprev as Hvalue. rewrite (peek_lookup _ _ _ _ Hget Hpeek) in Htok.
  unfold token_is in Htok. apply andb_prop in Htok as [Hty _].
  apply bool_decide_eq_true in Hty.
  rewrite Forall_forall in Hbang.
  pose proof (Hbang t (list_elem_of_lookup_2 _ _ _ Hget) Hty) as Hne.
  simpl in Hin. destruct Hin as [<-|[<-|[]]]; [congruence | reflexivity].
Qed.

Lemma binaryLoop_unnegated (values : list string) (operand : nat -> result (expr * nat))
    (fuel : nat) :
  unnegated_ok operand ->
  forall e pos e' pos',
    negated e = false ->
    binaryLoop tokens values operand fuel e pos = Ok (e', pos') -> negated e' = false.
Proof.
  intros Hoperand. induction fuel as [|fuel IH]; intros e pos e' pos' He;
    cbn [binaryLoop]; [discriminate|].
  destruct (matchOp tokens values pos) as [[m pos1]|?|] eqn:Hm;
    cbn [mbind result_bind]; try discriminate.
  destruct m; [|intros [= <- <-]; exact He].
  destruct (previousValue tokens pos1) as [op|?|]; cbn [mbind result_bind];
    try discriminate.
  destruct (operand pos1) as [[rhs pos2]|?|] eqn:Hrhs; cbn [mbind result_bind];
    try discriminate.
  apply IH. simpl. rewrite He. apply Hoperand in Hrhs. exact Hrhs.
Qed.

Lemma binaryLevel_unnegated (values : list string) (operand : nat -> result (expr * nat))
    (fuel : nat) :
  unnegated_ok operand -> unnegated_ok (binaryLevel tokens values operand fuel).
Proof.
  intros Hoperand pos e pos'. unfold binaryLevel.
  destruct (operand pos) as [[e0 pos1]|?|] eqn:H0; cbn [mbind result_bind];
    try discriminate.
  apply binaryLoop_unnegated; [exact Hoperand | eapply Hoperand; eauto].
Qed.

Lemma parseEqualityOver_unnegated (unary : nat -> result (expr * nat)) (fuel : nat) :
  unnegated_ok unary -> unnegated_ok (parseEqualityOver tokens unary fuel).
Proof.
  intros Hunary.
  unfold parseEqualityOver, parseComparisonOver, parseTermOver, parseFactorOver.
  repeat apply binaryLevel_unnegated. exact Hunary.
Qed.

Lemma parsePrimary_unnegated (parseExpr : nat -> result (expr * nat)) :
  unnegated_ok parseExpr -> unnegated_ok (parsePrimary tokens f parseExpr).
Proof.
  intros Hpe pos e pos'. unfold parsePrimary.
  destruct (peek tokens pos) as [tok|]; [|discriminate].
  destruct (match_ tokens NUMBER None pos) as [[[] pos1]|?|];
    cbn [mbind result_bind]; try discriminate.
  { intros [= <- <-]. reflexivity. }
  destruct (match_ tokens STRING None pos1) as [[[] pos2]|?|];
    cbn [mbind result_bind]; try discriminate.
  { intros [= <- <-]. reflexivity. }
  destruct (match_ tokens IDENT None pos2) as [[[] pos3]|?|];
    cbn [mbind result_bind]; try discriminate.
  { intros [= <- <-]. reflexivity. }
  destruct (match_ tokens OP (Some "(") pos3) as [[[] pos4]|?|];
    cbn [mbind result_bind]; try discriminate.
  destruct (parseExpr pos4) as [[inner pos5]|?|] eqn:Hinner;
    cbn [mbind result_bind]; try discriminate.
  destruct (consume tokens f OP (Some ")") pos5) as [[? pos6]|?|];
    cbn [mbind result_bind]; try discriminate.
  intros [= <- <-]. apply Hpe in Hinner. exact Hinner.
Qed.

Lemma parseUnary_unnegated (fuel : nat) : unnegated_ok (parseUnary tokens f fuel).
Proof.
  induction fuel as [|fuel IH]; intros pos e pos'; cbn [parseUnary]; [discriminate|].
  destruct (matchOp tokens ["!"; "-"] pos) as [[m pos1]|?|] eqn:Hm;
    cbn [mbind result_bind]; try discriminate.
  destruct m.
  - destruct (previousValue tokens pos1) as [op|?|] eqn:Hprev;
      cbn [mbind result_bind]; try discriminate.
    rewrite (matched_minus _ _ _ Hm Hprev).
    destruct (parseUnary tokens f fuel pos1) as [[rhs pos2]|?|] eqn:Hrhs;
      cbn [mbind result_bind]; try discriminate.
    destruct (tokens !! (pos2 - 1)); [|discriminate].
    intros [= <- <-]. apply IH in Hrhs. simpl. exact Hrhs.
  - apply parsePrimary_unnegated, parseEqualityOver_unnegated, IH.
Qed.

Lemma parseExpression_unnegated (fuel : nat) :
  unnegated_ok (parseExpression tokens f fuel).
Proof.
  unfold parseExpression, parseEquality.
  apply parseEqualityOver_unnegated, parseUnary_unnegated.
Qed.

End Expressions.

Lemma shaped_without_bang (tokens : list token) :
  Forall token_shaped tokens ->
  Forall (fun t => Token.type t = OP -> Token.value t <> JS.VStr "!") tokens.
Proof.
  intros Hshaped. eapply Forall_impl; [exact Hshaped|].
  intros t Ht Hty. unfold token_shaped in Ht. rewrite Hty in Ht.
  destruct Ht as (s & -> & [Htwo | (ch & -> & Hch)]).
  - intros [= ->]. discriminate Htwo.
  - intros [= ->]. discriminate Hch.
Qed.

(** X19.  No program parsed from the tokens of a source text holds the
    operator [!]: the tokenizer makes no token for it (alone it is an
    unexpected character, and [!=] is one token), so [match('OP', '!')]
    in [parseUnary] never succeeds on them, and every unary operator of
    the program is [-]. *)
Theorem source_has_no_negation (src f : string) (tokens : list token) (fuel : nat)
    (prog : Program) :
  lex src f = Ok tokens ->
  parse fuel tokens f = Ok prog ->
  Forall (fun s => Forall (fun e => negated e = false) (statement_exprs s)) (body prog).
Proof.
  intros Hlex Hparse. apply lex_tokens_shaped, shaped_without_bang in Hlex.
  unfold parse in Hparse.
  destruct (parseBody tokens f fuel [] 0) as [stmts|?|] eqn:Hbody;
    cbn [mbind result_bind] in Hparse; try discriminate.
  injection Hparse as <-. simpl.
  apply parseBody_exprs in Hbody; [|constructor].
  eapply Forall_impl; [exact Hbody|]. intros s Hs.
  eapply Forall_impl; [exact Hs|]. intros e (n & pos & pos' & He).
  eapply parseExpression_unnegated; eauto.
Qed.

(** [source_has_no_negation] on [print -(1 != 2)]. *)
Lemma source_has_no_negation_witness :
  exists tokens prog,
    lex (source ["new qas"; "q.print -(1 != 2)"]) "f" = Ok tokens /\
    parse 10 tokens "f" = Ok prog /\
    length (body prog) = 1 /\
    Forall (fun s => Forall (fun e => negated e = false) (statement_exprs s)) (body prog).
Proof.
  eexists _, _. split; [vm_compute; reflexivity|].
  split; [vm_compute; reflexivity|]. split; [reflexivity|].
  exact (source_has_no_negation (source ["new qas"; "q.print -(1 != 2)"]) "f" _ 10 _
           eq_refl eq_refl).
Defined.
